(** * Similarity recommenders of ml_recsys_tools: a shallow embedding

    The development follows
    [ml_recsys_tools/lightfm_tools/similarity_recommenders.py]:
    the co-occurrence builder [interactions_mat_to_cooccurrence_mat] with its
    inner helpers [prune_mat] and [first_degree_cooccurrence], and the classes
    [BaseSimilarityRecommeder], [ItemCoocRecommender], [UserCoocRecommender],
    [SimilarityDFRecommender]; and [CoocEnsembleBase._fit_sub_model] of
    [ml_recsys_tools/recommenders/subdivision_ensembles.py].

    Modelling choices, valid for the whole file:
    - numbers are exact rationals [Q]; the rounding of float32/float64 (and
      [astype(np.float32)]) is not modelled, comparisons and equalities of
      values are those of [Q] ([==] is [Qeq]).  Infinities and NaN have no
      counterpart: the one division of the code whose divisor can be zero is
      that of the rescaling, and [rescale_divisor_nonzero] names the runs in
      which it is not;
    - a scipy sparse matrix is its shape together with its list of stored
      entries (row, column, value).  Stored entries may hold the value zero
      (scipy's explicit zeros), [data] is the list of stored values, and
      the value of the matrix at a position is the sum of the stored values
      there, as scipy defines it;
    - a Python exception is a value of [exn] carried by [Raise];
    - an object mutated through a reference held by the caller is returned
      next to the result (explicit state passing). *)

From Stdlib Require Import String.
From Stdlib Require Import List Arith Lia Bool ZArith.
From Stdlib Require Import QArith Qabs Qround Qpower Lqa Qfield.
From Stdlib Require Import Permutation Sorted.
Import ListNotations.

Local Open Scope Q_scope.

(** ** Exceptions and the error monad *)

Inductive exn : Type :=
| ValueError_unknown_trans_func (name : string)
| ValueError_percentile_range
| ValueError_kth_out_of_bounds
| ValueError_empty_array
| IndexError
| AttributeError_none
| TypeError_none
| NotImplementedError.

Inductive result (A : Type) : Type :=
| Ok (a : A)
| Raise (e : exn).

Arguments Ok {A} a.
Arguments Raise {A} e.

Definition bind {A B : Type} (r : result A) (k : A -> result B) : result B :=
  match r with
  | Ok a => k a
  | Raise e => Raise e
  end.

Notation "x <- r ;; k" := (bind r (fun x => k))
  (at level 61, r at next level, right associativity).

(** ** Numbers *)

Definition Qlt_bool (x y : Q) : bool := negb (Qle_bool y x).

Definition sumQ (l : list Q) : Q := fold_right Qplus 0 l.

(** Python's [max(a, b)]: the first argument unless the second is greater. *)
Definition py_max (a b : Q) : Q := if Qlt_bool a b then b else a.

Definition qmin (a b : Q) : Q := if Qle_bool a b then a else b.

(** [np.min] of an array (only used on non-empty arrays). *)
Definition np_min (l : list Q) : Q :=
  match l with
  | [] => 0
  | x :: t => fold_left qmin t x
  end.

(** Python's [int(x)]: truncation towards zero. *)
Definition py_int (x : Q) : Z := Z.quot (Qnum x) (Zpos (Qden x)).

(** ** Sorting (the brute-force reference order and the argsort instance) *)

Section InsertionSort.
Context {A : Type} (leb : A -> A -> bool).

Fixpoint insert_by (x : A) (l : list A) : list A :=
  match l with
  | [] => [x]
  | y :: t => if leb x y then x :: l else y :: insert_by x t
  end.

Fixpoint sort_by (l : list A) : list A :=
  match l with
  | [] => []
  | x :: t => insert_by x (sort_by t)
  end.
End InsertionSort.

Definition sort_asc : list Q -> list Q := sort_by Qle_bool.
Definition sort_desc : list Q -> list Q := sort_by (fun x y => Qle_bool y x).

(** ** Sparse matrices *)

Record entry : Type := mkEntry { e_row : nat; e_col : nat; e_val : Q }.

Record spmatrix : Type := mkSp {
  n_rows : nat;
  n_cols : nat;
  stored : list entry
}.

(** [m.data] *)
Definition data (m : spmatrix) : list Q := map e_val (stored m).

Definition set_val (f : Q -> Q) (e : entry) : entry :=
  mkEntry (e_row e) (e_col e) (f (e_val e)).

(** Elementwise update of [m.data] (the structure is kept). *)
Definition map_data (f : Q -> Q) (m : spmatrix) : spmatrix :=
  mkSp (n_rows m) (n_cols m) (map (set_val f) (stored m)).

Definition at_pos (i j : nat) (e : entry) : bool :=
  (e_row e =? i)%nat && (e_col e =? j)%nat.

(** The value of the matrix at (i, j). *)
Definition get (m : spmatrix) (i j : nat) : Q :=
  sumQ (map e_val (filter (at_pos i j) (stored m))).

(** A matrix given by a function on positions; results equal to zero are not
    stored (what scipy's matrix product and sum do). *)
Definition from_fun (r c : nat) (f : nat -> nat -> Q) : spmatrix :=
  mkSp r c
    (flat_map (fun i =>
       flat_map (fun j =>
         if Qeq_bool (f i j) 0 then [] else [mkEntry i j (f i j)])
         (seq 0 c))
       (seq 0 r)).

(** [m.T] : a new matrix object over the same values. *)
Definition transpose (m : spmatrix) : spmatrix :=
  mkSp (n_cols m) (n_rows m)
    (map (fun e => mkEntry (e_col e) (e_row e) (e_val e)) (stored m)).

(** [a * b] on sparse matrices: the matrix product. *)
Definition matmul (a b : spmatrix) : spmatrix :=
  from_fun (n_rows a) (n_cols b)
    (fun i j => sumQ (map (fun k => get a i k * get b k j) (seq 0 (n_cols a)))).

(** [a + b] (also what [a += b] does on sparse matrices: a new matrix). *)
Definition add (a b : spmatrix) : spmatrix :=
  from_fun (n_rows a) (n_cols a) (fun i j => get a i j + get b i j).

(** [c * m] for a scalar [c]. *)
Definition scale (c : Q) (m : spmatrix) : spmatrix := map_data (Qmult c) m.

(** [m.setdiag(0)]: every diagonal position holds a stored zero afterwards. *)
Definition setdiag0 (m : spmatrix) : spmatrix :=
  mkSp (n_rows m) (n_cols m)
    (filter (fun e => negb (e_row e =? e_col e)%nat) (stored m)
     ++ map (fun i => mkEntry i i 0) (seq 0 (Nat.min (n_rows m) (n_cols m)))).

(** [m.eliminate_zeros()] *)
Definition eliminate_zeros (m : spmatrix) : spmatrix :=
  mkSp (n_rows m) (n_cols m)
    (filter (fun e => negb (Qeq_bool (e_val e) 0)) (stored m)).

(** [np.percentile(a, q)] with the default linear interpolation. *)
Definition percentile (a : list Q) (q : Z) : result Q :=
  if ((q <? 0) || (100 <? q))%Z then Raise ValueError_percentile_range
  else
    let s := sort_asc a in
    let pos := (inject_Z q / 100) * (inject_Z (Z.of_nat (length a)) - 1) in
    let lo := Z.to_nat (Qfloor pos) in
    let frac := pos - inject_Z (Qfloor pos) in
    let x := nth lo s 0 in
    let y := nth (S lo) s x in
    Ok (x + frac * (y - x)).

(** The rows of [m] divided by the sum of the absolute values of their
    stored entries; a row whose norm is zero is left as it is. *)
Definition in_row (i : nat) (e : entry) : bool := (e_row e =? i)%nat.

Definition row_vals (m : spmatrix) (i : nat) : list Q :=
  map e_val (filter (in_row i) (stored m)).

Definition row_abs_sum (m : spmatrix) (i : nat) : Q :=
  sumQ (map Qabs (row_vals m i)).

Definition row_sum (m : spmatrix) (i : nat) : Q := sumQ (row_vals m i).

Definition normalize_l1 (m : spmatrix) : spmatrix :=
  mkSp (n_rows m) (n_cols m)
    (map (fun e =>
            let nrm := row_abs_sum m (e_row e) in
            if Qeq_bool nrm 0 then e else set_val (fun v => v / nrm) e)
         (stored m)).

(** [sklearn.preprocessing.normalize(m, norm='l1', axis=1)]: the input check
    refuses a matrix without rows or without columns; otherwise the result
    is a copy of [m] with its rows normalised. *)
Definition normalize (m : spmatrix) : result spmatrix :=
  if ((n_rows m =? 0) || (n_cols m =? 0))%nat
  then Raise ValueError_empty_array
  else Ok (normalize_l1 m).

(** ** The co-occurrence builder *)

Record fit_params : Type := mkParams {
  normalize_items : bool;
  degree : Z;
  base_min_cooccurrence : Q;
  prune_ratio : Q;
  decay : Q;
  min_cooccurrence : Q;
  trans_func : string
}.

Section Builder.
(** numpy functions the builder calls and that stay abstract:
    [np.log10] on values and the draw of [np.random.choice(a, n,
    replace=False)]. *)
Variable log10 : Q -> Q.
Variable np_random_choice : list Q -> Z -> list Q.

(** Inner function [prune_mat(m, ratio, cutoff)].  It works in place on
    [m], which at both call sites is a matrix no one else holds. *)
Definition prune_mat (m : spmatrix) (ratio cutoff : Q) : result spmatrix :=
  if (Qeq_bool ratio 0 && Qeq_bool cutoff 0)
     || (length (data m) =? 0)%nat
  then Ok m
  else
    cutoff' <-
      (if Qlt_bool 0 ratio then
         let data_sample :=
           if (50000 <? Z.of_nat (length (data m)))%Z
           then np_random_choice (data m)
                  (Z.min (Z.of_nat (length (data m))) 10000)
           else data m in
         p <- percentile data_sample (py_int (100 * ratio)) ;;
         Ok (py_max cutoff p)
       else Ok cutoff) ;;
    Ok (eliminate_zeros
          (map_data (fun v => if Qlt_bool v cutoff' then v * 0 else v) m)).

(** Inner function [first_degree_cooccurrence(mat, min_cooc)].  The
    assignments to [mat.data] change the object the caller passed, so the
    final [mat] is returned with the result.  [astype(np.float32)] is the
    identity on exact values. *)
Definition first_degree_cooccurrence (tf : string) (mat : spmatrix)
    (min_cooc : Q) : spmatrix * result spmatrix :=
  let transformed : result spmatrix :=
    if String.eqb tf "ones" then Ok (map_data (fun _ => 1) mat)
    else if String.eqb tf "log" then Ok (map_data (fun v => log10 (v + 1)) mat)
    else if String.eqb tf "none" then Ok mat
    else Raise (ValueError_unknown_trans_func tf) in
  match transformed with
  | Raise e => (mat, Raise e)
  | Ok mat' =>
      let cooc_mat := setdiag0 (matmul (transpose mat') mat') in
      (mat',
       if Qlt_bool 1 min_cooc then prune_mat cooc_mat 0 min_cooc
       else Ok cooc_mat)
  end.

(** The loop [for i in range(degree - 1)], from iteration [i] on with [n]
    iterations left. *)
Fixpoint expand_loop (dec : Q) (i n : nat) (hd : spmatrix) : spmatrix :=
  match n with
  | O => hd
  | S n' =>
      expand_loop dec (S i) n'
        (setdiag0
           (add hd (matmul (scale (dec ^ Z.of_nat (i + 1)) hd) hd)))
  end.

(** [higher_deg_cooc] when the loop is over, before it is rescaled.  It
    starts as the pruned [cooc_mat_base.copy()]: the base matrix itself is
    not pruned. *)
Definition higher_deg_expanded (p : fit_params) (cooc_mat_base : spmatrix)
    : result spmatrix :=
  hd <- prune_mat cooc_mat_base (prune_ratio p) (min_cooccurrence p) ;;
  Ok (expand_loop (decay p) 0 (Z.to_nat (degree p - 1)) hd).

(** [higher_deg_cooc.data *= total_weight / (np.sum(higher_deg_cooc.data) + 1)].
    The factor is meaningful when the divisor is not zero ([x / 0] is [0] in
    [Q], an infinity or a NaN in the code). *)
Definition rescale (total_weight : Q) (hd : spmatrix) : spmatrix :=
  map_data (fun v => v * (total_weight / (sumQ (data hd) + 1))) hd.

(** The body of [if degree > 1:]. *)
Definition higher_degree (p : fit_params) (cooc_mat_base : spmatrix)
    : result spmatrix :=
  let total_weight := sumQ (data cooc_mat_base) in
  hd <- higher_deg_expanded p cooc_mat_base ;;
  Ok (add cooc_mat_base (rescale total_weight hd)).

(** [interactions_mat_to_cooccurrence_mat(obs_mat, **params)]: the final
    state of the caller's [obs_mat] and the returned matrix. *)
Definition interactions_mat_to_cooccurrence_mat (obs_mat : spmatrix)
    (p : fit_params) : spmatrix * result spmatrix :=
  let '(obs_mat', r) :=
    first_degree_cooccurrence (trans_func p) obs_mat
      (base_min_cooccurrence p) in
  (obs_mat',
   cooc_mat_base <- r ;;
   cooc_mat_base <-
     (if (1 <? degree p)%Z then higher_degree p cooc_mat_base
      else Ok cooc_mat_base) ;;
   if normalize_items p then normalize cooc_mat_base
   else Ok cooc_mat_base).

End Builder.

(** ** Recommender objects *)

(** The attributes of a recommender object that the code below reads or
    writes.  [None] is Python's [None] for [similarity_mat] (set by
    [__init__]) and a missing attribute for [train_mat]. *)
Record recommender : Type := mkRec {
  params : fit_params;
  train_mat : option spmatrix;
  similarity_mat : option spmatrix
}.

(** [ItemCoocRecommender.__init__] *)
Definition init (p : fit_params) : recommender := mkRec p None None.

Definition set_train_mat (m : spmatrix) (self : recommender) : recommender :=
  mkRec (params self) (Some m) (similarity_mat self).

Definition set_similarity_mat (m : spmatrix) (self : recommender)
    : recommender :=
  mkRec (params self) (train_mat self) (Some m).

(** Methods run in a state and error monad over [self]: an exception leaves
    the mutations done before it in place. *)
Definition M (A : Type) : Type := recommender -> recommender * result A.

Definition ret {A : Type} (a : A) : M A := fun self => (self, Ok a).

Definition raise {A : Type} (e : exn) : M A := fun self => (self, Raise e).

Definition bindM {A B : Type} (m : M A) (k : A -> M B) : M B :=
  fun self =>
    match m self with
    | (self', Ok a) => k a self'
    | (self', Raise e) => (self', Raise e)
    end.

Notation "x <~ m ;; k" := (bindM m (fun x => k))
  (at level 61, m at next level, right associativity).

Definition lift {A : Type} (r : result A) : M A := fun self => (self, r).

Definition read_similarity_mat : M spmatrix :=
  fun self =>
    match similarity_mat self with
    | Some s => (self, Ok s)
    | None => (self, Raise AttributeError_none)
    end.

(** [self.similarity_mat[...]]: subscripting [None] is a type error. *)
Definition subscript_similarity_mat : M spmatrix :=
  fun self =>
    match similarity_mat self with
    | Some s => (self, Ok s)
    | None => (self, Raise TypeError_none)
    end.

Definition read_train_mat : M spmatrix :=
  fun self =>
    match train_mat self with
    | Some s => (self, Ok s)
    | None => (self, Raise AttributeError_none)
    end.

Definition modify (f : recommender -> recommender) : M unit :=
  fun self => (f self, Ok tt).

(** The threshold [0.01] of [_check_no_negatives]. *)
Definition floor_value : Q := 1 # 100.

(** [_check_no_negatives] on the matrix itself. *)
Definition check_no_negatives_mat (s : spmatrix) : spmatrix :=
  if negb (length (data s) =? 0)%nat && Qlt_bool (np_min (data s)) floor_value
  then map_data (fun v => v + Qabs (np_min (data s) - floor_value)) s
  else s.

(** [BaseSimilarityRecommeder._check_no_negatives] *)
Definition _check_no_negatives : M unit :=
  s <~ read_similarity_mat ;;
  modify (set_similarity_mat (check_no_negatives_mat s)).

Section Fit.
Variable log10 : Q -> Q.
Variable np_random_choice : list Q -> Z -> list Q.

(** [_prep_for_fit(train_obs, **fit_params)].  [train_obs] stands for the
    matrix that [build_sparse_interaction_matrix] makes of the training
    data, [upd] for the update of [self.fit_params] by the keyword
    arguments. *)
Definition _prep_for_fit (train_obs : spmatrix)
    (upd : fit_params -> fit_params) : M unit :=
  modify (fun self =>
            mkRec (upd (params self)) (Some train_obs) (similarity_mat self)).

(** The call [interactions_mat_to_cooccurrence_mat(obs_mat, **self.fit_params)]
    on an argument that is the object [self.train_mat] itself: its final
    state is written back. *)
Definition build_on_train_mat : M spmatrix :=
  fun self =>
    match train_mat self with
    | None => (self, Raise AttributeError_none)
    | Some tm =>
        let '(tm', r) :=
          interactions_mat_to_cooccurrence_mat log10 np_random_choice
            tm (params self) in
        (set_train_mat tm' self, r)
    end.

(** The same call on [self.train_mat.T], a fresh object: what the builder
    does to it is lost, [self.train_mat] keeps its attributes. *)
Definition build_on_train_mat_T : M spmatrix :=
  fun self =>
    match train_mat self with
    | None => (self, Raise AttributeError_none)
    | Some tm =>
        (self,
         snd (interactions_mat_to_cooccurrence_mat log10 np_random_choice
                (transpose tm) (params self)))
    end.

(** [ItemCoocRecommender.fit] *)
Definition ItemCoocRecommender_fit (train_obs : spmatrix)
    (upd : fit_params -> fit_params) : M unit :=
  _ <~ _prep_for_fit train_obs upd ;;
  s <~ build_on_train_mat ;;
  _ <~ modify (set_similarity_mat s) ;;
  s <~ read_similarity_mat ;;
  modify (set_similarity_mat (add s (transpose s))).

(** [UserCoocRecommender.fit] *)
Definition UserCoocRecommender_fit (train_obs : spmatrix)
    (upd : fit_params -> fit_params) : M unit :=
  _ <~ _prep_for_fit train_obs upd ;;
  s <~ build_on_train_mat_T ;;
  modify (set_similarity_mat s).

End Fit.

(** ** Ranking *)

(** [a[idx]] for an index list, and its in-range check. *)
Definition take (s : list Q) (idx : list nat) : list Q :=
  map (fun i => nth i s 0) idx.

Definition gather (l idx : list nat) : list nat :=
  map (fun p => nth p l O) idx.

Definition all_below (n : nat) (idx : list nat) : bool :=
  forallb (fun i => (i <? n)%nat) idx.

(** [a[-n:]] for [0 <= n <= len(a)] (note that [a[-0:]] is all of [a]). *)
Definition last_n {A : Type} (n : nat) (l : list A) : list A :=
  if (n =? 0)%nat then l else skipn (length l - n) l.

(** [np.array(np.sum(sim[item_inds, :], axis=0)).ravel()] *)
Definition sum_rows (sim : spmatrix) (item_inds : list nat) : list Q :=
  map (fun j => sumQ (map (fun i => get sim i j) item_inds))
      (seq 0 (n_cols sim)).

(** [sum_simils[item_inds] *= 0] *)
Definition zero_at (item_inds : list nat) (s : list Q) : list Q :=
  map (fun jv => if existsb (Nat.eqb (fst jv)) item_inds
                 then snd jv * 0 else snd jv)
      (combine (seq 0 (length s)) s).

Section Ranking.
(** [np.argpartition(a, kth)] and [np.argsort(a)] stay abstract: any
    functions with numpy's documented behaviour. *)
Variable argpartition : list Q -> nat -> list nat.
Variable argsort : list Q -> list nat.

(** The selection shared by [_recommend_for_item_inds] and the [row_func]
    of [UserCoocRecommender]: [argpartition] at [-n_rec], the last [n_rec]
    indices, sorted by decreasing score. *)
Definition top_sorted (sum_simils : list Q) (n_rec : nat)
    : list nat * list Q :=
  let kth := if (n_rec =? 0)%nat then O else (length sum_simils - n_rec)%nat in
  let i_part := last_n n_rec (argpartition sum_simils kth) in
  let i_sort :=
    gather i_part (firstn n_rec (argsort (map Qopp (take sum_simils i_part)))) in
  (i_sort, take sum_simils i_sort).

(** The score vector of [_recommend_for_item_inds]. *)
Definition scores_for (sim : spmatrix) (item_inds : list nat)
    (remove_self : bool) : result (list Q) :=
  if negb (all_below (n_rows sim) item_inds) then Raise IndexError
  else
    let sum_simils := sum_rows sim item_inds in
    if remove_self then
      if negb (all_below (length sum_simils) item_inds) then Raise IndexError
      else Ok (zero_at item_inds sum_simils)
    else Ok sum_simils.

(** [_recommend_for_item_inds(item_inds, n_rec_unfilt, remove_self)] on
    the matrix [self.similarity_mat]. *)
Definition recommend_for_item_inds (sim : spmatrix) (item_inds : list nat)
    (n_rec_unfilt : nat) (remove_self : bool) : result (list nat * list Q) :=
  sum_simils <- scores_for sim item_inds remove_self ;;
  let n_rec := Nat.min n_rec_unfilt (length sum_simils) in
  Ok (top_sorted sum_simils n_rec).

Definition _recommend_for_item_inds (item_inds : list nat)
    (n_rec_unfilt : nat) (remove_self : bool) : M (list nat * list Q) :=
  sim <~ subscript_similarity_mat ;;
  lift (recommend_for_item_inds sim item_inds n_rec_unfilt remove_self).

End Ranking.

(** ** Query methods *)

Section Queries.
Variable argpartition : list Q -> nat -> list nat.
Variable argsort : list Q -> list nat.

(** What the methods take from modules outside this file: the item encoder
    of [sparse_mat_builder], the two batch drivers of
    [ml_recsys_tools.utils.similarity] and [_format_results_df].  [ext_id] is
    the type of external identifiers, [best] what a driver returns, [df]
    a formatted result. *)
Variables ext_id best df : Type.
Variable iid_transform : list ext_id -> result (list nat).
Variable iid_inverse_transform : list nat -> list ext_id.
Variable top_N_sorted_on_sparse : list ext_id -> spmatrix -> nat -> result best.
Variable custom_row_func_on_sparse :
  (list nat -> list Q -> result (list nat * list Q)) ->
  list ext_id -> spmatrix -> result best.
Variable _format_results_df : list ext_id -> best -> string -> df.

(** [BaseSimilarityRecommeder.recommend_for_interaction_history] *)
Definition recommend_for_interaction_history (interactions_ids : list ext_id)
    (n_rec : nat) : M (list ext_id * list Q) :=
  interactions_inds <~ lift (iid_transform interactions_ids) ;;
  rec <~ _recommend_for_item_inds argpartition argsort
           interactions_inds n_rec true ;;
  ret (iid_inverse_transform (fst rec), snd rec).

(** [BaseSimilarityRecommeder._get_recommendations_flat_unfilt] *)
Definition _get_recommendations_flat_unfilt (user_ids : list ext_id)
    (n_rec_unfilt : nat) : M df :=
  _ <~ _check_no_negatives ;;
  sim <~ read_similarity_mat ;;
  tm <~ read_train_mat ;;
  let top_simil_for_users := fun (item_inds : list nat) (_ : list Q) =>
    recommend_for_item_inds argpartition argsort sim item_inds
      n_rec_unfilt false in
  b <~ lift (custom_row_func_on_sparse top_simil_for_users user_ids tm) ;;
  ret (_format_results_df user_ids b "recommendations_flat").

(** [BaseSimilarityRecommeder.get_similar_items] *)
Definition get_similar_items (itemids : list ext_id) (N : nat)
    (results_format : string) : M df :=
  _ <~ _check_no_negatives ;;
  sim <~ read_similarity_mat ;;
  b <~ lift (top_N_sorted_on_sparse itemids sim N) ;;
  ret (_format_results_df itemids b ("similarities_" ++ results_format)).

(** The multipliers of the [n] rows of [sub_mat] after the loop
    [for i, r in enumerate(row_data)]: a row beyond [row_data] is not
    scaled. *)
Definition row_multipliers (n : nat) (row_data : list Q) : list Q :=
  row_data ++ repeat 1 (n - length row_data).

(** [row_func] of [UserCoocRecommender._get_recommendations_flat_unfilt]:
    the rows [user_inds] of the interaction matrix, each scaled by its
    entry of [row_data], summed by column.  With more multipliers than
    rows the loop reads [sub_mat.indptr] beyond its end.  There is no [min]
    with the length here: numpy refuses a [kth] beyond a non-empty array. *)
Definition UserCooc_row_func (tm : spmatrix) (n_rec_unfilt : nat)
    (user_inds : list nat) (row_data : list Q)
    : result (list nat * list Q) :=
  if negb (all_below (n_rows tm) user_inds) then Raise IndexError
  else if (length user_inds <? length row_data)%nat then Raise IndexError
  else
    let sum_weight_occurs :=
      map (fun j =>
             sumQ (map (fun ur => snd ur * get tm (fst ur) j)
                       (combine user_inds
                          (row_multipliers (length user_inds) row_data))))
          (seq 0 (n_cols tm)) in
    if negb (length sum_weight_occurs =? 0)%nat
       && (length sum_weight_occurs <? n_rec_unfilt)%nat
    then Raise ValueError_kth_out_of_bounds
    else Ok (top_sorted argpartition argsort sum_weight_occurs n_rec_unfilt).

(** [UserCoocRecommender._get_recommendations_flat_unfilt] *)
Definition UserCooc_get_recommendations_flat_unfilt (user_ids : list ext_id)
    (n_rec_unfilt : nat) : M df :=
  tm <~ read_train_mat ;;
  sim <~ read_similarity_mat ;;
  b <~ lift (custom_row_func_on_sparse
               (UserCooc_row_func tm n_rec_unfilt) user_ids sim) ;;
  ret (_format_results_df user_ids b "recommendations_flat").

(** [UserCoocRecommender.recommend_for_interaction_history] and
    [UserCoocRecommender.get_similar_items] *)
Definition UserCooc_recommend_for_interaction_history
    (interactions_ids : list ext_id) (n_rec : nat)
    : M (list ext_id * list Q) :=
  raise NotImplementedError.

Definition UserCooc_get_similar_items (itemids : list ext_id) (N : nat)
    (results_format : string) : M df :=
  raise NotImplementedError.

End Queries.

(** ** SimilarityDFRecommender *)

(** What [continue_fit] can fail on: the attribute [similarity_mat_builder]
    is only set by [_prep_for_fit], and [None += matrix] is a type error. *)
Inductive continue_fit_error : Type :=
| AttributeError_no_similarity_builder
| TypeError_none_similarity_mat.

Section SimilarityDF.
(** [simil_df] is the type of the flat tables of similarity pairs.  The
    builder object that [get_similarity_builder] derives (a copy of
    [sparse_mat_builder] with the item encoder on both axes) is kept as the
    function its [build_sparse_interaction_matrix] computes. *)
Variable simil_df : Type.

Record simil_recommender : Type := mkSimil {
  sd_base : recommender;
  similarity_mat_builder : option (simil_df -> spmatrix)
}.

(** [SimilarityDFRecommender.fit(train_obs, simil_df_flat, **fit_params)].
    [simil_builder] is the builder [get_similarity_builder] makes from the
    helper of [train_obs]. *)
Definition SimilarityDFRecommender_fit (train_obs : spmatrix)
    (simil_builder : simil_df -> spmatrix) (simil_df_flat : simil_df)
    (upd : fit_params -> fit_params) (self : simil_recommender)
    : simil_recommender :=
  let base := fst (_prep_for_fit train_obs upd (sd_base self)) in
  let s := simil_builder simil_df_flat in
  let base := set_similarity_mat s base in
  mkSimil (set_similarity_mat (add s (transpose s)) base) (Some simil_builder).

(** [SimilarityDFRecommender.continue_fit(simil_df_flat)] *)
Definition SimilarityDFRecommender_continue_fit (simil_df_flat : simil_df)
    (self : simil_recommender)
    : simil_recommender * (unit + continue_fit_error) :=
  match similarity_mat_builder self with
  | None => (self, inr AttributeError_no_similarity_builder)
  | Some b =>
      let partial_similarity_mat := b simil_df_flat in
      match similarity_mat (sd_base self) with
      | None => (self, inr TypeError_none_similarity_mat)
      | Some s =>
          (mkSimil
             (set_similarity_mat
                (add s (add partial_similarity_mat
                            (transpose partial_similarity_mat)))
                (sd_base self))
             (Some b),
           inl tt)
      end
  end.

End SimilarityDF.

Arguments mkSimil {simil_df} sd_base similarity_mat_builder.
Arguments sd_base {simil_df} s.
Arguments similarity_mat_builder {simil_df} s.
Arguments SimilarityDFRecommender_fit {simil_df}.
Arguments SimilarityDFRecommender_continue_fit {simil_df}.

(** ** CoocEnsembleBase *)

(** [l[i] = x] for an index within the list. *)
Fixpoint list_update {A : Type} (i : nat) (x : A) (l : list A) : list A :=
  match l, i with
  | [], _ => []
  | _ :: t, O => x :: t
  | y :: t, S i' => y :: list_update i' x t
  end.

Section CoocEnsemble.
(** The sub-models are objects of the class [ItemCoocRecommender] that
    [subdivision_ensembles.py] imports from
    [ml_recsys_tools.recommenders.similarity_recommenders]: the class, the
    training data and the keyword arguments of its [fit] stay abstract, and
    [sub_model_fit obs fit_params m] is the call [m.fit(obs, **fit_params)],
    which returns the final state of [m] and either nothing or an
    exception. *)
Variables sub_model train_data kwargs : Type.
Variable sub_model_fit :
  train_data -> kwargs -> sub_model -> sub_model * result unit.

(** [CoocEnsembleBase._fit_sub_model((i_m, obs, fit_params))] on the list
    [self.sub_models]: the sub-model at [i_m] is fitted in place and
    returned. *)
Definition CoocEnsemble_fit_sub_model (i_m : nat) (obs : train_data)
    (fit_params : kwargs) (sub_models : list sub_model)
    : list sub_model * result sub_model :=
  match nth_error sub_models i_m with
  | None => (sub_models, Raise IndexError)
  | Some m =>
      let '(m', r) := sub_model_fit obs fit_params m in
      (list_update i_m m' sub_models, _ <- r ;; Ok m')
  end.

End CoocEnsemble.

Arguments CoocEnsemble_fit_sub_model {sub_model train_data kwargs}
  sub_model_fit i_m obs fit_params sub_models.

(** ** Reference behaviour of the numpy selections *)

(** What numpy documents for [argsort]: the indices of [a], in an order that
    makes the values ascend. *)
Definition argsort_spec (argsort : list Q -> list nat) : Prop :=
  forall a,
    Permutation (argsort a) (seq 0 (length a)) /\
    StronglySorted (fun i j => nth i a 0 <= nth j a 0) (argsort a).

(** What numpy documents for [argpartition] at a valid [kth] (any [kth] on
    an empty array): the indices of [a], those before position [kth] with
    values no greater than those from position [kth] on. *)
Definition argpartition_spec (argpartition : list Q -> nat -> list nat) : Prop :=
  forall a kth,
    (kth < length a)%nat \/ a = [] ->
    Permutation (argpartition a kth) (seq 0 (length a)) /\
    forall p q, (p < kth)%nat -> (kth <= q)%nat -> (q < length a)%nat ->
      nth (nth p (argpartition a kth) O) a 0
      <= nth (nth q (argpartition a kth) O) a 0.

(** An instance of both: a stable insertion sort of the indices. *)
Definition argsort_ins (a : list Q) : list nat :=
  sort_by (fun i j => Qle_bool (nth i a 0) (nth j a 0)) (seq 0 (length a)).

Definition argpartition_ins (a : list Q) (kth : nat) : list nat :=
  argsort_ins a.

Definition descending (l : list Q) : Prop :=
  StronglySorted (fun x y => y <= x) l.

(** [out] is a top-[k] of the score vector [s]: [k' = min(k, len(s))]
    distinct indices with their scores, in descending order of score, no
    index left out scoring more than a returned one, and the scores being
    the first [k'] of the brute-force descending sort of [s]. *)
Definition is_top_k (s : list Q) (k : nat) (out : list nat * list Q) : Prop :=
  let k' := Nat.min k (length s) in
  length (fst out) = k' /\
  length (snd out) = k' /\
  snd out = take s (fst out) /\
  NoDup (fst out) /\
  Forall (fun i => (i < length s)%nat) (fst out) /\
  descending (snd out) /\
  (forall i j, In i (fst out) -> (j < length s)%nat -> ~ In j (fst out) ->
     nth j s 0 <= nth i s 0) /\
  Forall2 Qeq (snd out) (firstn k' (sort_desc s)).

(** ** Helper notions for the statements *)

Definition valid_trans_func (tf : string) : Prop :=
  tf = "ones"%string \/ tf = "log"%string \/ tf = "none"%string.

Definition positions (m : spmatrix) : list (nat * nat) :=
  map (fun e => (e_row e, e_col e)) (stored m).

Definition nonneg_data (m : spmatrix) : Prop :=
  Forall (fun v => 0 <= v) (data m).

Definition row_has_nonzero (m : spmatrix) (i : nat) : Prop :=
  exists v, In v (row_vals m i) /\ ~ v == 0.

Definition row_all_zero (m : spmatrix) (i : nat) : Prop :=
  forall v, In v (row_vals m i) -> v == 0.

(** Two parameter records that differ at most in [prune_ratio], [decay] and
    [min_cooccurrence]. *)
Definition agree_off_expansion_knobs (p q : fit_params) : Prop :=
  normalize_items p = normalize_items q /\
  degree p = degree q /\
  base_min_cooccurrence p = base_min_cooccurrence q /\
  trans_func p = trans_func q.

(** Stand-ins for the abstract numpy functions in closed examples: the
    examples below never reach them ([trans_func] is not ["log"], fewer than
    50000 stored values). *)
Definition log10_unused (v : Q) : Q := 0.
Definition choice_unused (a : list Q) (n : Z) : list Q := a.

(** ** Example inputs *)

(** Two users, three items: user 0 took items 0 and 1, user 1 items 1 and 2;
    the weights are not all 1. *)
Definition obs_chain : spmatrix :=
  mkSp 2 3 [mkEntry 0 0 2; mkEntry 0 1 1; mkEntry 1 1 1; mkEntry 1 2 3].

Definition params_default : fit_params :=
  mkParams true 1 1 0 (1 # 2) 1 "ones".

Definition params_degree2 : fit_params :=
  mkParams false 2 1 0 (1 # 2) 1 "ones".

Definition params_negative_decay : fit_params :=
  mkParams true 2 1 0 (-1) 1 "ones".

Definition params_bad_trans : fit_params :=
  mkParams true 1 1 0 (1 # 2) 1 "sqrt".

(** The example of the specification: three users, four items, user 0 took
    items 0 and 1, user 1 items 1 and 2, user 2 items 2 and 3. *)
Definition obs_spec_example : spmatrix :=
  mkSp 3 4 [mkEntry 0 0 1; mkEntry 0 1 1; mkEntry 1 1 1; mkEntry 1 2 1;
            mkEntry 2 2 1; mkEntry 2 3 1].

Definition params_plain : fit_params :=
  mkParams false 1 1 0 (1 # 2) 1 "ones".

(** Three users, two items: user 0 took item 0, user 1 both, user 2 item 1. *)
Definition obs_users : spmatrix :=
  mkSp 3 2 [mkEntry 0 0 1; mkEntry 1 0 1; mkEntry 1 1 1; mkEntry 2 1 1].

(** A two-item similarity matrix, each item similar to the other. *)
Definition sim_pair : spmatrix :=
  mkSp 2 2 [mkEntry 0 1 1; mkEntry 1 0 1].

(** A similarity matrix with one stored value between 0 and 0.01. *)
Definition sim_small : spmatrix :=
  mkSp 2 2 [mkEntry 0 1 (1 # 200); mkEntry 1 0 (1 # 2)].

(** ** Statements of the specification, written as the specification has
    them *)

(** The ranking scores are the plain column sums of the seed rows. *)
Definition ranking_on_column_sums (argpartition : list Q -> nat -> list nat)
    (argsort : list Q -> list nat) (sim : spmatrix) (item_inds : list nat)
    (k : nat) (remove_self : bool) : Prop :=
  forall out,
    recommend_for_item_inds argpartition argsort sim item_inds k remove_self
      = Ok out ->
    is_top_k (sum_rows sim item_inds) k out.

(** After the rescaling the stored values of the higher-degree matrix sum to
    [total_weight]. *)
Definition rescale_conserves_weight (log10 : Q -> Q)
    (np_random_choice : list Q -> Z -> list Q) (obs_mat : spmatrix)
    (p : fit_params) : Prop :=
  forall base hd,
    snd (first_degree_cooccurrence log10 np_random_choice (trans_func p)
           obs_mat (base_min_cooccurrence p)) = Ok base ->
    higher_deg_expanded np_random_choice p base = Ok hd ->
    sumQ (data (rescale (sumQ (data base)) hd)) == sumQ (data base).

(** The shift of the no-negatives adjustment is [|min| + 0.01]. *)
Definition shift_is_abs_min_plus_floor (s : spmatrix) : Prop :=
  data s <> [] ->
  (exists v, In v (data s) /\ v < floor_value) ->
  let s' := check_no_negatives_mat s in
  Forall2 Qeq (data s')
    (map (fun v => v + (Qabs (np_min (data s)) + floor_value)) (data s)) /\
  floor_value <= np_min (data s') /\
  check_no_negatives_mat s' = s'.

(** With [normalize_items], every row with a nonzero entry sums to 1 within
    1e-6. *)
Definition normalized_rows_sum_to_one (log10 : Q -> Q)
    (np_random_choice : list Q -> Z -> list Q) (obs_mat : spmatrix)
    (p : fit_params) : Prop :=
  normalize_items p = true ->
  forall r,
    snd (interactions_mat_to_cooccurrence_mat log10 np_random_choice obs_mat p)
      = Ok r ->
    forall i, row_has_nonzero r i ->
      Qabs (row_sum r i - 1) <= 1 # 1000000.

(** ** Auxiliary definitions of the proofs *)

(** The entries [prune_mat] keeps for a cutoff [c]. *)
Definition kept_by_cutoff (c : Q) (e : entry) : bool :=
  Qle_bool c (e_val e) && negb (Qeq_bool (e_val e) 0).

(** The sum of the values that a list of entries holds at (i, j). *)
Definition sum_at (i j : nat) (l : list entry) : Q :=
  sumQ (map e_val (filter (at_pos i j) l)).

Definition same_shape (a b : spmatrix) : Prop :=
  n_rows a = n_rows b /\ n_cols a = n_cols b.

(** The divisor of the rescaling, [np.sum(higher_deg_cooc.data) + 1], is not
    zero in the run of the builder on [obs_mat] with [p] (the rescaling runs
    only when [degree > 1]).  Where it is zero the code multiplies by an
    infinity or a NaN, which the exact values used here do not have. *)
Definition rescale_divisor_nonzero (log10 : Q -> Q)
    (np_random_choice : list Q -> Z -> list Q) (obs_mat : spmatrix)
    (p : fit_params) : Prop :=
  (1 < degree p)%Z ->
  forall base hd,
    snd (first_degree_cooccurrence log10 np_random_choice (trans_func p)
           obs_mat (base_min_cooccurrence p)) = Ok base ->
    higher_deg_expanded np_random_choice p base = Ok hd ->
    ~ sumQ (data hd) + 1 == 0.

(** [p] with [normalize_items] replaced. *)
Definition set_normalize_items (b : bool) (p : fit_params) : fit_params :=
  mkParams b (degree p) (base_min_cooccurrence p) (prune_ratio p) (decay p)
    (min_cooccurrence p) (trans_func p).

(** How many elements of [l] are at least [x]. *)
Definition count_ge (x : Q) (l : list Q) : nat :=
  length (filter (fun y => Qle_bool x y) l).

(** The threshold [prune_mat] applies when it does not return at once: the
    cutoff, raised to the percentile when [ratio > 0]. *)
Definition prune_threshold (np_random_choice : list Q -> Z -> list Q)
    (m : spmatrix) (ratio cutoff : Q) : result Q :=
  if Qlt_bool 0 ratio then
    let data_sample :=
      if (50000 <? Z.of_nat (length (data m)))%Z
      then np_random_choice (data m)
             (Z.min (Z.of_nat (length (data m))) 10000)
      else data m in
    p <- percentile data_sample (py_int (100 * ratio)) ;;
    Ok (py_max cutoff p)
  else Ok cutoff.

(** Whether [prune_mat] returns its argument at once. *)
Definition prune_is_noop (m : spmatrix) (ratio cutoff : Q) : bool :=
  (Qeq_bool ratio 0 && Qeq_bool cutoff 0) || (length (data m) =? 0)%nat.

(** Every stored entry on the diagonal holds zero. *)
Definition diag_stored_zero (m : spmatrix) : Prop :=
  forall e, In e (stored m) -> e_row e = e_col e -> e_val e == 0.

(** At most one stored entry per position. *)
Definition single_valued (m : spmatrix) : Prop :=
  forall i j, (length (filter (at_pos i j) (stored m)) <= 1)%nat.

Definition symmetric_values (m : spmatrix) : Prop :=
  forall i j, get m i j == get m j i.

(** The interaction matrix after the transform of [first_degree_cooccurrence]
    for a known [trans_func]. *)
Definition transform_data (log10 : Q -> Q) (tf : string) (mat : spmatrix)
    : spmatrix :=
  if String.eqb tf "ones" then map_data (fun _ => 1) mat
  else if String.eqb tf "log" then map_data (fun v => log10 (v + 1)) mat
  else mat.

(** The score vector of [UserCooc_row_func]: per column, the sum of the
    rows [user_inds] of the interaction matrix, each times its multiplier. *)
Definition weighted_sum_rows (tm : spmatrix) (user_inds : list nat)
    (row_data : list Q) : list Q :=
  map (fun j =>
         sumQ (map (fun ur => snd ur * get tm (fst ur) j)
                   (combine user_inds
                      (row_multipliers (length user_inds) row_data))))
      (seq 0 (n_cols tm)).

(** Some seed is outside the rows of the matrix, or, when the seeds are to
    be zeroed, outside its columns. *)
Definition seed_out_of_range (sim : spmatrix) (item_inds : list nat)
    (remove_self : bool) : Prop :=
  exists i, In i item_inds /\
    ((n_rows sim <= i)%nat \/ (remove_self = true /\ (n_cols sim <= i)%nat)).

(** Parameters with a [prune_ratio] beyond 1, which numpy's percentile
    refuses once the expansion runs. *)
Definition params_bad_ratio : fit_params :=
  mkParams true 2 1 (3 # 2) (1 # 2) 1 "ones".

(** A stand-in for the similarity builder in closed examples: the pairs
    are already the entries of a 2 by 2 matrix. *)
Definition pairs_builder (d : list entry) : spmatrix := mkSp 2 2 d.

Definition simil_fitted : simil_recommender (list entry) :=
  mkSimil (mkRec params_default (Some obs_chain) (Some sim_pair))
    (Some pairs_builder).

(** No stored entry holds zero. *)
Definition no_stored_zero (m : spmatrix) : Prop :=
  forall e, In e (stored m) -> ~ e_val e == 0.

(** * Properties *)

(** ** The normalisation step of the builder *)

Lemma normalize_ok m r : normalize m = Ok r -> r = normalize_l1 m.
Proof.
  unfold normalize. destruct (_ || _); [discriminate|].
  intro H; inversion H; reflexivity.
Qed.

Lemma normalize_nonempty m :
  (0 < n_rows m)%nat -> (0 < n_cols m)%nat -> normalize m = Ok (normalize_l1 m).
Proof.
  intros Hr Hc. unfold normalize.
  destruct (n_rows m); [lia|]. destruct (n_cols m); [lia|]. reflexivity.
Qed.

Lemma normalize_step_ok (b : bool) m r :
  (if b then normalize m else Ok m) = Ok r ->
  Ok (if b then normalize_l1 m else m) = Ok r.
Proof.
  destruct b; [|exact (fun H => H)].
  intro H. apply normalize_ok in H. subst r. reflexivity.
Qed.

(** ** Booleans of [Q] *)

Lemma Qlt_bool_iff x y : Qlt_bool x y = true <-> x < y.
Proof.
  unfold Qlt_bool. rewrite negb_true_iff. split; intro H.
  - apply Qnot_le_lt. intro Hle. apply Qle_bool_iff in Hle. congruence.
  - destruct (Qle_bool y x) eqn:E; [|reflexivity].
    apply Qle_bool_iff in E. exfalso. apply (Qlt_not_le x y); assumption.
Qed.

Lemma Qlt_bool_false x y : Qlt_bool x y = false <-> y <= x.
Proof.
  unfold Qlt_bool. rewrite negb_false_iff. apply Qle_bool_iff.
Qed.

Lemma Qeq_bool_false x y : Qeq_bool x y = false <-> ~ x == y.
Proof.
  split; intro H.
  - intro E. apply Qeq_bool_iff in E. congruence.
  - destruct (Qeq_bool x y) eqn:E; [|reflexivity].
    apply Qeq_bool_iff in E. contradiction.
Qed.

Lemma set_val_same (f : Q -> Q) e : f (e_val e) = e_val e -> set_val f e = e.
Proof. destruct e as [r c v]; unfold set_val; simpl. intros ->. reflexivity. Qed.

Lemma sumQ_app l1 l2 : sumQ (l1 ++ l2) == sumQ l1 + sumQ l2.
Proof.
  induction l1 as [|x l1 IH]; simpl.
  - ring.
  - rewrite IH. ring.
Qed.

Lemma sumQ_nonneg l : Forall (fun v => 0 <= v) l -> 0 <= sumQ l.
Proof.
  induction 1 as [|x l Hx _ IH]; simpl.
  - apply Qle_refl.
  - lra.
Qed.

Lemma sumQ_map_scale (c : Q) l : sumQ (map (fun v => v * c) l) == sumQ l * c.
Proof.
  induction l as [|x l IH]; simpl.
  - ring.
  - rewrite IH. ring.
Qed.

Lemma sumQ_all_zero l : (forall v, In v l -> v == 0) -> sumQ l == 0.
Proof.
  induction l as [|x l IH]; simpl; intro H.
  - reflexivity.
  - rewrite IH by (intros v Hv; apply H; right; exact Hv).
    rewrite (H x) by (left; reflexivity). ring.
Qed.

(** ** Pruning *)

Lemma prune_stored_filter c l :
  filter (fun e => negb (Qeq_bool (e_val e) 0))
    (map (set_val (fun v => if Qlt_bool v c then v * 0 else v)) l)
  = filter (kept_by_cutoff c) l.
Proof.
  induction l as [|e l IH]; simpl; [reflexivity|].
  unfold kept_by_cutoff at 1.
  destruct (Qlt_bool (e_val e) c) eqn:Hlt.
  - assert (Hz : Qeq_bool (e_val e * 0) 0 = true)
      by (apply Qeq_bool_iff; ring).
    rewrite Hz. simpl.
    unfold Qlt_bool in Hlt. apply negb_true_iff in Hlt. rewrite Hlt. simpl.
    exact IH.
  - rewrite set_val_same by (rewrite Hlt; reflexivity).
    apply Qlt_bool_false in Hlt. apply Qle_bool_iff in Hlt. rewrite Hlt. simpl.
    rewrite IH. reflexivity.
Qed.

Lemma prune_mat_ratio0 choice m c :
  prune_mat choice m 0 c =
  if Qeq_bool c 0 || (length (data m) =? 0)%nat then Ok m
  else Ok (mkSp (n_rows m) (n_cols m) (filter (kept_by_cutoff c) (stored m))).
Proof.
  unfold prune_mat.
  change (Qeq_bool 0 0) with true. change (Qlt_bool 0 0) with false. simpl.
  destruct (Qeq_bool c 0 || (length (data m) =? 0)%nat); [reflexivity|].
  unfold eliminate_zeros, map_data. simpl.
  rewrite prune_stored_filter. reflexivity.
Qed.

Lemma data_nil_length m : data m = [] <-> (length (data m) =? 0)%nat = true.
Proof.
  rewrite Nat.eqb_eq. destruct (data m); simpl; split; congruence.
Qed.

(** C8.  [prune_mat] with [ratio = 0].  With [cutoff = 0], or on a matrix
    without stored entries, the matrix comes back as it is.  Otherwise the
    result has the same shape, and its stored entries are exactly the stored
    entries of the input that are at least [c] and not zero, in their order
    and with their values: every stored entry below [c] has left the storage,
    every nonzero entry that is at least [c] is still stored, and at every
    position the value of the result is the sum of the input's stored values
    there that are at least [c] (a stored zero keeps its value, zero); on a
    matrix that stores nothing but zeros the values are those of the input. *)
Theorem prune_mat_cutoff choice m c :
  (c == 0 \/ data m = [] -> prune_mat choice m 0 c = Ok m) /\
  (~ c == 0 -> data m <> [] ->
   exists m',
     prune_mat choice m 0 c = Ok m' /\
     n_rows m' = n_rows m /\ n_cols m' = n_cols m /\
     stored m' = filter (kept_by_cutoff c) (stored m) /\
     (forall e, In e (stored m) -> e_val e < c -> ~ In e (stored m')) /\
     (forall e, In e (stored m) -> c <= e_val e -> ~ e_val e == 0 ->
        In e (stored m')) /\
     (forall e, In e (stored m') ->
        In e (stored m) /\ c <= e_val e /\ ~ e_val e == 0) /\
     (forall i j,
        get m' i j ==
        sumQ (map e_val
                (filter (fun e => at_pos i j e && Qle_bool c (e_val e))
                        (stored m)))) /\
     ((forall v, In v (data m) -> v == 0) ->
      forall i j, get m' i j == get m i j)).
Proof.
  rewrite prune_mat_ratio0. split.
  - intros [Hc | Hd].
    + apply Qeq_bool_iff in Hc. rewrite Hc. reflexivity.
    + apply data_nil_length in Hd. rewrite Hd, orb_true_r. reflexivity.
  - intros Hc Hd.
    apply Qeq_bool_false in Hc. rewrite Hc.
    destruct (length (data m) =? 0)%nat eqn:E.
    { apply data_nil_length in E. contradiction. }
    simpl. eexists. split; [reflexivity|]. simpl.
    repeat split.
    + intros e _ Hlt Hin. apply filter_In in Hin. destruct Hin as [_ Hk].
      unfold kept_by_cutoff in Hk. apply andb_true_iff in Hk.
      destruct Hk as [Hk _]. apply Qle_bool_iff in Hk.
      apply (Qlt_not_le _ _ Hlt Hk).
    + intros e Hin Hle Hnz. apply filter_In. split; [exact Hin|].
      unfold kept_by_cutoff. apply andb_true_iff. split.
      * apply Qle_bool_iff; exact Hle.
      * apply negb_true_iff. apply Qeq_bool_false. exact Hnz.
    + apply filter_In in H. tauto.
    + apply filter_In in H. destruct H as [_ Hk].
      unfold kept_by_cutoff in Hk. apply andb_true_iff in Hk.
      destruct Hk as [Hk _]. apply Qle_bool_iff in Hk. exact Hk.
    + apply filter_In in H. destruct H as [_ Hk].
      unfold kept_by_cutoff in Hk. apply andb_true_iff in Hk.
      destruct Hk as [_ Hk]. apply negb_true_iff in Hk.
      apply Qeq_bool_false in Hk. exact Hk.
    + intros i j. unfold get. simpl.
      induction (stored m) as [|e l IH]; simpl; [reflexivity|].
      unfold kept_by_cutoff at 1.
      destruct (Qle_bool c (e_val e)) eqn:Hle; simpl.
      * destruct (Qeq_bool (e_val e) 0) eqn:Hz; simpl.
        -- rewrite andb_true_r.
           destruct (at_pos i j e); simpl; rewrite IH; [|reflexivity].
           apply Qeq_bool_iff in Hz. rewrite Hz. ring.
        -- rewrite andb_true_r.
           destruct (at_pos i j e); simpl; rewrite IH; reflexivity.
      * rewrite andb_false_r. exact IH.
    + intros Hz i j. unfold get. cbn [stored].
      assert (Hsub : forall (f : entry -> bool),
                sumQ (map e_val (filter f (stored m))) == 0).
      { intro f. apply sumQ_all_zero. intros v Hv.
        apply in_map_iff in Hv. destruct Hv as (e & <- & He).
        apply filter_In in He. apply Hz. unfold data. apply in_map. tauto. }
      rewrite (Hsub (at_pos i j)).
      apply sumQ_all_zero. intros v Hv.
      apply in_map_iff in Hv. destruct Hv as (e & <- & He).
      apply filter_In in He. destruct He as [He _].
      apply filter_In in He. apply Hz. unfold data. apply in_map. tauto.
Qed.

Lemma prune_mat_cutoff_witness :
  exists m',
    prune_mat choice_unused
      (mkSp 2 2 [mkEntry 0 1 3; mkEntry 1 0 1; mkEntry 1 1 0]) 0 2 = Ok m' /\
    stored m' = [mkEntry 0 1 3].
Proof.
  destruct (prune_mat_cutoff choice_unused
              (mkSp 2 2 [mkEntry 0 1 3; mkEntry 1 0 1; mkEntry 1 1 0]) 2)
    as [_ H].
  destruct H as (m' & Hm & _ & _ & Hs & _).
  - intro E. vm_compute in E. discriminate.
  - simpl. discriminate.
  - exists m'. split; [exact Hm|]. rewrite Hs. reflexivity.
Defined.

(** ** The transform name and the errors of the builder *)

Lemma valid_trans_func_eqb tf :
  valid_trans_func tf <->
  (String.eqb tf "ones" || String.eqb tf "log" || String.eqb tf "none") = true.
Proof.
  unfold valid_trans_func.
  rewrite !orb_true_iff, !String.eqb_eq. tauto.
Qed.

Lemma percentile_raises a q e :
  percentile a q = Raise e -> e = ValueError_percentile_range.
Proof.
  unfold percentile.
  destruct ((q <? 0) || (100 <? q))%Z; intro H; inversion H; reflexivity.
Qed.

Lemma prune_mat_raises choice m ratio cutoff e :
  prune_mat choice m ratio cutoff = Raise e -> e = ValueError_percentile_range.
Proof.
  unfold prune_mat.
  destruct (_ || _); [discriminate|].
  destruct (Qlt_bool 0 ratio).
  - destruct (percentile _ _) as [x|e'] eqn:E; simpl.
    + discriminate.
    + intro H. inversion H; subst. eapply percentile_raises; eassumption.
  - simpl. discriminate.
Qed.

Lemma first_degree_unknown log10 choice tf mat mc :
  ~ valid_trans_func tf ->
  first_degree_cooccurrence log10 choice tf mat mc
  = (mat, Raise (ValueError_unknown_trans_func tf)).
Proof.
  intro H. rewrite valid_trans_func_eqb in H.
  unfold first_degree_cooccurrence.
  destruct (String.eqb tf "ones"); [exfalso; apply H; reflexivity|].
  destruct (String.eqb tf "log"); [exfalso; apply H; reflexivity|].
  destruct (String.eqb tf "none"); [exfalso; apply H; reflexivity|].
  reflexivity.
Qed.

Lemma first_degree_valid_raises log10 choice tf mat mc e :
  valid_trans_func tf ->
  snd (first_degree_cooccurrence log10 choice tf mat mc) = Raise e ->
  e = ValueError_percentile_range.
Proof.
  intro H. rewrite valid_trans_func_eqb in H.
  unfold first_degree_cooccurrence.
  destruct (String.eqb tf "ones");
    [|destruct (String.eqb tf "log");
      [|destruct (String.eqb tf "none"); [|discriminate]]];
    simpl; (destruct (Qlt_bool 1 mc); [apply prune_mat_raises | discriminate]).
Qed.

Lemma builder_unknown log10 choice obs p :
  ~ valid_trans_func (trans_func p) ->
  interactions_mat_to_cooccurrence_mat log10 choice obs p
  = (obs, Raise (ValueError_unknown_trans_func (trans_func p))).
Proof.
  intro H. unfold interactions_mat_to_cooccurrence_mat.
  rewrite first_degree_unknown by exact H. reflexivity.
Qed.

Lemma builder_valid_raises log10 choice obs p e :
  valid_trans_func (trans_func p) ->
  snd (interactions_mat_to_cooccurrence_mat log10 choice obs p) = Raise e ->
  e = ValueError_percentile_range \/ e = ValueError_empty_array.
Proof.
  intros Hv. unfold interactions_mat_to_cooccurrence_mat.
  pose proof (first_degree_valid_raises log10 choice (trans_func p) obs
                (base_min_cooccurrence p)) as Hfd.
  destruct (first_degree_cooccurrence _ _ _ _ _) as [obs' r]. simpl in *.
  assert (Hfin : forall m,
            (if normalize_items p then normalize m else Ok m) = Raise e ->
            e = ValueError_empty_array).
  { intro m. unfold normalize. destruct (normalize_items p); [|discriminate].
    destruct (_ || _); [|discriminate]. intro H; inversion H; reflexivity. }
  destruct r as [base|e']; simpl.
  - destruct (1 <? degree p)%Z; simpl; [|intro H; right; eapply Hfin, H].
    unfold higher_degree, higher_deg_expanded.
    destruct (prune_mat choice base (prune_ratio p) (min_cooccurrence p))
      as [hd|e'] eqn:Ep; simpl; [intro H; right; eapply Hfin, H|].
    intro H; inversion H; subst. left. eapply prune_mat_raises; eassumption.
  - intro H; inversion H; subst. left. apply Hfd; [exact Hv | reflexivity].
Qed.

(** C9.  The builder raises the error of an unknown transform exactly when
    [trans_func] is none of "ones", "log", "none"; it does so before anything
    is computed, the argument untouched; and a [fit] that ends on this error
    leaves [similarity_mat] as it was, [None] on a new recommender. *)
Theorem unknown_trans_func_aborts_fit log10 choice obs p :
  ((exists name,
      snd (interactions_mat_to_cooccurrence_mat log10 choice obs p)
      = Raise (ValueError_unknown_trans_func name))
   <-> ~ valid_trans_func (trans_func p)) /\
  (~ valid_trans_func (trans_func p) ->
   interactions_mat_to_cooccurrence_mat log10 choice obs p
   = (obs, Raise (ValueError_unknown_trans_func (trans_func p))) /\
   forall self upd, upd (params self) = p ->
     exists self',
       ItemCoocRecommender_fit log10 choice obs upd self
       = (self', Raise (ValueError_unknown_trans_func (trans_func p))) /\
       similarity_mat self' = similarity_mat self /\
       (forall p0, self = init p0 -> similarity_mat self' = None)).
Proof.
  split.
  - split.
    + intros [name H] Hv.
      apply (builder_valid_raises log10 choice obs p _ Hv) in H.
      destruct H; discriminate.
    + intro Hv. exists (trans_func p). rewrite builder_unknown by exact Hv.
      reflexivity.
  - intro Hv. split; [apply builder_unknown; exact Hv|].
    intros self upd Hp.
    unfold ItemCoocRecommender_fit, bindM, _prep_for_fit, modify,
      build_on_train_mat. simpl.
    rewrite Hp, builder_unknown by exact Hv.
    eexists. split; [reflexivity|]. simpl. split; [reflexivity|].
    intros p0 ->. reflexivity.
Qed.

Lemma unknown_trans_func_aborts_fit_witness :
  exists self',
    ItemCoocRecommender_fit log10_unused choice_unused obs_chain
      (fun _ => params_bad_trans) (init params_default)
    = (self', Raise (ValueError_unknown_trans_func "sqrt")) /\
    similarity_mat self' = None.
Proof.
  destruct (unknown_trans_func_aborts_fit log10_unused choice_unused
              obs_chain params_bad_trans) as [_ H].
  destruct H as [_ H].
  - intro Hv. rewrite valid_trans_func_eqb in Hv. vm_compute in Hv.
    discriminate.
  - destruct (H (init params_default) (fun _ => params_bad_trans) eq_refl)
      as (self' & Hfit & _ & Hnone).
    exists self'. split; [exact Hfit|]. apply (Hnone params_default).
    reflexivity.
Defined.

(** C10.  With [degree] at most 1 the builder does not look at
    [prune_ratio], [decay] or [min_cooccurrence]: two parameter records that
    agree on everything else give the same returned matrix (or the same
    error) and the same final argument. *)
Theorem degree1_ignores_expansion_knobs log10 choice obs p q :
  agree_off_expansion_knobs p q ->
  (degree p <= 1)%Z ->
  interactions_mat_to_cooccurrence_mat log10 choice obs p
  = interactions_mat_to_cooccurrence_mat log10 choice obs q.
Proof.
  intros (Hn & Hd & Hb & Ht) Hle.
  unfold interactions_mat_to_cooccurrence_mat.
  rewrite <- Hn, <- Hd, <- Hb, <- Ht.
  assert (E : (1 <? degree p)%Z = false) by (apply Z.ltb_ge; exact Hle).
  rewrite E. reflexivity.
Qed.

Lemma degree1_ignores_expansion_knobs_witness :
  interactions_mat_to_cooccurrence_mat log10_unused choice_unused obs_chain
    params_default
  = interactions_mat_to_cooccurrence_mat log10_unused choice_unused obs_chain
      (mkParams true 1 1 (9 # 10) (1 # 7) 5 "ones").
Proof.
  apply (degree1_ignores_expansion_knobs log10_unused choice_unused obs_chain
           params_default (mkParams true 1 1 (9 # 10) (1 # 7) 5 "ones")).
  - repeat split.
  - simpl. lia.
Defined.

(** ** The no-negatives adjustment *)

Lemma fold_qmin_le l x : fold_left qmin l x <= x.
Proof.
  revert x. induction l as [|y l IH]; intro x; simpl.
  - apply Qle_refl.
  - eapply Qle_trans; [apply IH|].
    unfold qmin. destruct (Qle_bool x y) eqn:E.
    + apply Qle_refl.
    + apply Qlt_le_weak. apply Qlt_bool_iff. unfold Qlt_bool. rewrite E.
      reflexivity.
Qed.

Lemma fold_qmin_lower l x v : In v l -> fold_left qmin l x <= v.
Proof.
  revert x. induction l as [|y l IH]; intros x Hv; simpl; [destruct Hv|].
  destruct Hv as [Hv | Hv].
  - subst y. eapply Qle_trans; [apply fold_qmin_le|].
    unfold qmin. destruct (Qle_bool x v) eqn:E.
    + apply Qle_bool_iff; exact E.
    + apply Qle_refl.
  - apply IH; exact Hv.
Qed.

Lemma fold_qmin_in l x : fold_left qmin l x = x \/ In (fold_left qmin l x) l.
Proof.
  revert x. induction l as [|y l IH]; intro x; simpl.
  - left; reflexivity.
  - destruct (IH (qmin x y)) as [E | Hin].
    + rewrite E. unfold qmin. destruct (Qle_bool x y); auto.
    + right; right; exact Hin.
Qed.

Lemma np_min_lower l v : In v l -> np_min l <= v.
Proof.
  destruct l as [|x l]; simpl; [tauto|].
  intros [<- | Hv].
  - apply fold_qmin_le.
  - apply fold_qmin_lower; exact Hv.
Qed.

Lemma np_min_in l : l <> [] -> In (np_min l) l.
Proof.
  destruct l as [|x l]; [congruence|]. intros _. simpl.
  destruct (fold_qmin_in l x) as [E | Hin]; [left; symmetry; exact E | right; exact Hin].
Qed.

Lemma data_map_data f m : data (map_data f m) = map f (data m).
Proof.
  unfold data, map_data. simpl. rewrite !map_map. reflexivity.
Qed.

Lemma positions_map_data f m : positions (map_data f m) = positions m.
Proof.
  unfold positions, map_data. simpl. rewrite map_map. reflexivity.
Qed.

Lemma check_no_negatives_fixpoint s :
  (forall v, In v (data s) -> floor_value <= v) ->
  check_no_negatives_mat s = s.
Proof.
  intro H. unfold check_no_negatives_mat.
  destruct (length (data s) =? 0)%nat eqn:E; simpl; [reflexivity|].
  assert (Hm : floor_value <= np_min (data s)).
  { apply H. apply np_min_in. intro Hnil. rewrite Hnil in E. discriminate. }
  apply Qlt_bool_false in Hm. rewrite Hm. reflexivity.
Qed.

Lemma check_no_negatives_shifts s v :
  In v (data s) -> v < floor_value ->
  check_no_negatives_mat s
  = map_data (fun x => x + Qabs (np_min (data s) - floor_value)) s /\
  Qabs (np_min (data s) - floor_value) == floor_value - np_min (data s).
Proof.
  intros Hv Hlt.
  assert (Hne : data s <> []) by (intro E; rewrite E in Hv; exact Hv).
  assert (Hmin : np_min (data s) < floor_value).
  { eapply Qle_lt_trans; [apply np_min_lower; exact Hv | exact Hlt]. }
  split.
  - unfold check_no_negatives_mat.
    destruct (length (data s) =? 0)%nat eqn:E.
    + apply data_nil_length in E. contradiction.
    + simpl. apply Qlt_bool_iff in Hmin. rewrite Hmin. reflexivity.
  - rewrite Qabs_neg by lra. ring.
Qed.

Lemma check_no_negatives_above s v :
  In v (data s) -> v < floor_value ->
  forall w, In w (data (check_no_negatives_mat s)) -> floor_value <= w.
Proof.
  intros Hv Hlt w Hw.
  destruct (check_no_negatives_shifts s v Hv Hlt) as [Hunf Hshift].
  rewrite Hunf, data_map_data in Hw. apply in_map_iff in Hw.
  destruct Hw as (u & <- & Hu). rewrite Hshift.
  pose proof (np_min_lower _ _ Hu). lra.
Qed.

(** C5 (as the code has it).  When some stored value is below 0.01, every
    stored value is shifted by [|min - 0.01|], that is by [0.01 - min] (which
    is [|min| + 0.01] when [min <= 0]), [min] being the least stored value;
    positions and shape stay, so values that are not stored are not shifted.
    Without a stored value below 0.01 the matrix is left as it is.  (Whether
    the shifted minimum reaches 0.01, and whether a second call is then a
    no-op, depends on the rounding of the two additions and is not stated.) *)
Theorem check_no_negatives_shift s :
  ((exists v, In v (data s) /\ v < floor_value) ->
   let s' := check_no_negatives_mat s in
   let shift := Qabs (np_min (data s) - floor_value) in
   data s' = map (fun v => v + shift) (data s) /\
   shift == floor_value - np_min (data s) /\
   (np_min (data s) <= 0 -> shift == Qabs (np_min (data s)) + floor_value) /\
   positions s' = positions s /\
   n_rows s' = n_rows s /\ n_cols s' = n_cols s) /\
  ((forall v, In v (data s) -> floor_value <= v) ->
   check_no_negatives_mat s = s).
Proof.
  split; [|apply check_no_negatives_fixpoint].
  intros (v & Hv & Hlt). cbv zeta.
  destruct (check_no_negatives_shifts s v Hv Hlt) as [Hunf Hshift].
  rewrite Hunf.
  repeat split.
  - apply data_map_data.
  - exact Hshift.
  - intro Hle. rewrite Hshift. rewrite (Qabs_neg _ Hle). ring.
  - apply positions_map_data.
Qed.

Lemma check_no_negatives_shift_witness :
  data (check_no_negatives_mat sim_small)
  = map (fun v => v + Qabs (np_min (data sim_small) - floor_value))
        (data sim_small) /\
  positions (check_no_negatives_mat sim_small) = positions sim_small.
Proof.
  destruct (check_no_negatives_shift sim_small) as [H _].
  destruct H as (Hd & _ & _ & Hp & _).
  - exists (1 # 200). split; [simpl; left; reflexivity | reflexivity].
  - split; [exact Hd | exact Hp].
Defined.

(** C5, the statement of the specification refuted: on a matrix whose least
    stored value is 0.005 the code adds 0.005, not [|min| + 0.01 = 0.015]. *)
Lemma shift_is_not_abs_min_plus_floor :
  ~ shift_is_abs_min_plus_floor sim_small.
Proof.
  unfold shift_is_abs_min_plus_floor. intro H.
  destruct H as [H _].
  - simpl. discriminate.
  - exists (1 # 200). split; [simpl; left; reflexivity | reflexivity].
  - vm_compute in H. inversion H as [|x y l l' Hxy _]; subst.
    vm_compute in Hxy. discriminate.
Qed.

(** ** The rescaling of the higher-degree matrix *)

Lemma rescale_sum tw hd :
  ~ sumQ (data hd) + 1 == 0 ->
  sumQ (data (rescale tw hd)) == tw * (sumQ (data hd) / (sumQ (data hd) + 1)).
Proof.
  intro Hnz. unfold rescale. rewrite data_map_data, sumQ_map_scale.
  field. exact Hnz.
Qed.

(** C3 (as the code has it).  For any first-degree matrix [base], with
    [total_weight] the sum of its stored values and [hd] the higher-degree
    matrix when the loop is over: the rescaling multiplies the stored values
    of [hd] by [total_weight / (S + 1)], [S] being their sum, and, [S + 1]
    not being zero, they sum afterwards to [total_weight * S / (S + 1)]. *)
Theorem rescale_sum_is_scaled_weight choice p base hd :
  higher_deg_expanded choice p base = Ok hd ->
  ~ sumQ (data hd) + 1 == 0 ->
  higher_degree choice p base
    = Ok (add base (rescale (sumQ (data base)) hd)) /\
  data (rescale (sumQ (data base)) hd)
    = map (fun v => v * (sumQ (data base) / (sumQ (data hd) + 1))) (data hd) /\
  sumQ (data (rescale (sumQ (data base)) hd))
    == sumQ (data base) * (sumQ (data hd) / (sumQ (data hd) + 1)).
Proof.
  intros Hhd Hnz. split; [|split].
  - unfold higher_degree. rewrite Hhd. reflexivity.
  - unfold rescale. apply data_map_data.
  - apply rescale_sum. exact Hnz.
Qed.

Lemma rescale_sum_is_scaled_weight_witness :
  exists base hd,
    higher_degree choice_unused params_degree2 base
      = Ok (add base (rescale (sumQ (data base)) hd)) /\
    sumQ (data (rescale (sumQ (data base)) hd))
      == sumQ (data base) * (sumQ (data hd) / (sumQ (data hd) + 1)).
Proof.
  destruct (snd (first_degree_cooccurrence log10_unused choice_unused
                   (trans_func params_degree2) obs_chain
                   (base_min_cooccurrence params_degree2)))
    as [base|e] eqn:E1; [|vm_compute in E1; discriminate].
  destruct (higher_deg_expanded choice_unused params_degree2 base)
    as [hd|e] eqn:E2;
    [|vm_compute in E1; inversion E1; subst base; vm_compute in E2;
      discriminate].
  exists base, hd.
  destruct (rescale_sum_is_scaled_weight choice_unused params_degree2 base hd
              E2) as (H1 & _ & H2).
  - vm_compute in E1; inversion E1; subst base.
    vm_compute in E2; inversion E2; subst hd.
    intro H. vm_compute in H. discriminate.
  - split; [exact H1 | exact H2].
Defined.

(** C3, the statement of the specification refuted: on the chain example
    with [degree = 2] the first-degree values sum to 4, the rescaled
    higher-degree values to 10/3. *)
Lemma rescale_does_not_conserve_weight :
  ~ rescale_conserves_weight log10_unused choice_unused obs_chain
      params_degree2.
Proof.
  unfold rescale_conserves_weight. intro H.
  destruct (snd (first_degree_cooccurrence log10_unused choice_unused
                   (trans_func params_degree2) obs_chain
                   (base_min_cooccurrence params_degree2)))
    as [base|e] eqn:E1; [|vm_compute in E1; discriminate].
  destruct (higher_deg_expanded choice_unused params_degree2 base)
    as [hd|e] eqn:E2;
    [|vm_compute in E1; inversion E1; subst base; vm_compute in E2;
      discriminate].
  pose proof (H base hd eq_refl E2) as H1.
  vm_compute in E1; inversion E1; subst base.
  vm_compute in E2; inversion E2; subst hd.
  vm_compute in H1. discriminate.
Qed.

(** ** What [fit] does to the interaction matrix *)

(** Unfolds the monadic plumbing of a method. *)
Ltac run_M :=
  cbv [bindM ret raise lift modify read_similarity_mat
       subscript_similarity_mat read_train_mat _check_no_negatives].

Lemma builder_argument_after log10 choice obs p :
  fst (interactions_mat_to_cooccurrence_mat log10 choice obs p)
  = if String.eqb (trans_func p) "ones" then map_data (fun _ => 1) obs
    else if String.eqb (trans_func p) "log"
         then map_data (fun v => log10 (v + 1)) obs
         else obs.
Proof.
  unfold interactions_mat_to_cooccurrence_mat, first_degree_cooccurrence.
  destruct (String.eqb (trans_func p) "ones"); [reflexivity|].
  destruct (String.eqb (trans_func p) "log"); [reflexivity|].
  destruct (String.eqb (trans_func p) "none"); reflexivity.
Qed.

(** The sibling path: [UserCoocRecommender.fit] builds on [train_mat.T] and
    leaves [train_mat] as [_prep_for_fit] stored it. *)
Lemma UserCooc_fit_keeps_train_mat log10 choice obs upd self :
  train_mat (fst (UserCoocRecommender_fit log10 choice obs upd self))
  = Some obs.
Proof.
  unfold UserCoocRecommender_fit, bindM, _prep_for_fit, modify,
    build_on_train_mat_T. simpl.
  destruct (snd _); reflexivity.
Qed.

Lemma ItemCooc_fit_train_mat log10 choice obs upd self :
  train_mat (fst (ItemCoocRecommender_fit log10 choice obs upd self))
  = Some (fst (interactions_mat_to_cooccurrence_mat log10 choice obs
                 (upd (params self)))).
Proof.
  unfold ItemCoocRecommender_fit, bindM, _prep_for_fit, modify,
    build_on_train_mat, read_similarity_mat. simpl.
  destruct (interactions_mat_to_cooccurrence_mat _ _ _ _) as [tm' [s|e]];
    reflexivity.
Qed.

(** C4, the code at a failing input.  [ItemCoocRecommender.fit] with the
    default ["ones"] on an interaction matrix holding the weights 2, 1, 1, 3
    succeeds and leaves [train_mat] with the weights 1, 1, 1, 1: the
    builder has assigned to the [data] of the very object it was given. *)
Theorem ItemCooc_fit_overwrites_train_mat :
  let out := ItemCoocRecommender_fit log10_unused choice_unused obs_chain
               (fun p => p) (init params_default) in
  snd out = Ok tt /\
  train_mat (fst out) = Some (map_data (fun _ => 1) obs_chain) /\
  train_mat (fst out) <> Some obs_chain /\
  option_map data (train_mat (fst out)) = Some [1; 1; 1; 1] /\
  data obs_chain = [2; 1; 1; 3].
Proof.
  cbv zeta. split; [vm_compute; reflexivity|].
  rewrite ItemCooc_fit_train_mat, builder_argument_after.
  simpl. repeat split. discriminate.
Qed.

(** ** The adjustment before the query methods *)

Section QueryEffects.
Variable argpartition : list Q -> nat -> list nat.
Variable argsort : list Q -> list nat.
Variables ext_id best df : Type.
Variable iid_transform : list ext_id -> result (list nat).
Variable iid_inverse_transform : list nat -> list ext_id.
Variable top_N_sorted_on_sparse : list ext_id -> spmatrix -> nat -> result best.
Variable custom_row_func_on_sparse :
  (list nat -> list Q -> result (list nat * list Q)) ->
  list ext_id -> spmatrix -> result best.
Variable _format_results_df : list ext_id -> best -> string -> df.

(** The two methods that call [_check_no_negatives] leave the adjusted
    matrix in [self]. *)
Lemma get_similar_items_adjusts itemids N fmt self s :
  similarity_mat self = Some s ->
  similarity_mat
    (fst (get_similar_items ext_id best df top_N_sorted_on_sparse
            _format_results_df itemids N fmt self))
  = Some (check_no_negatives_mat s).
Proof.
  intro Hs.
  unfold get_similar_items. run_M. rewrite Hs. simpl.
  destruct (top_N_sorted_on_sparse _ _ _); reflexivity.
Qed.

Lemma get_recommendations_flat_unfilt_adjusts user_ids n self s :
  similarity_mat self = Some s ->
  similarity_mat
    (fst (_get_recommendations_flat_unfilt argpartition argsort ext_id best df
            custom_row_func_on_sparse _format_results_df user_ids n self))
  = Some (check_no_negatives_mat s).
Proof.
  intro Hs.
  unfold _get_recommendations_flat_unfilt. run_M. rewrite Hs. simpl.
  destruct (train_mat self); [|reflexivity].
  destruct (custom_row_func_on_sparse _ _ _); reflexivity.
Qed.

(** The two that do not: [self] is as before, and the ranking reads
    [similarity_mat] as it stands. *)
Lemma recommend_for_interaction_history_no_adjust ids n self :
  fst (recommend_for_interaction_history argpartition argsort ext_id
         iid_transform iid_inverse_transform ids n self) = self.
Proof.
  unfold recommend_for_interaction_history, _recommend_for_item_inds. run_M.
  destruct (iid_transform ids); [|reflexivity].
  destruct (similarity_mat self); [|reflexivity].
  destruct (recommend_for_item_inds _ _ _ _ _ _); reflexivity.
Qed.

Lemma UserCooc_get_recommendations_no_adjust user_ids n self :
  fst (UserCooc_get_recommendations_flat_unfilt argpartition argsort ext_id
         best df custom_row_func_on_sparse _format_results_df user_ids n self)
  = self.
Proof.
  unfold UserCooc_get_recommendations_flat_unfilt. run_M.
  destruct (train_mat self); [|reflexivity].
  destruct (similarity_mat self); [|reflexivity].
  destruct (custom_row_func_on_sparse _ _ _); reflexivity.
Qed.

End QueryEffects.

(** C2, the code at a failing input.  On a recommender whose similarity
    matrix stores 0.005, [recommend_for_interaction_history] ranks on the
    matrix as it is: the score returned for item 1 is 0.005, the matrix in
    [self] still stores 0.005, whereas after [_check_no_negatives] (as run by
    [get_similar_items]) no stored value is below 0.01 and item 1 would have
    scored 0.01. *)
Theorem recommend_for_interaction_history_skips_adjustment :
  let self := mkRec params_default None (Some sim_small) in
  let out := recommend_for_interaction_history argpartition_ins argsort_ins
               nat (fun ids => Ok ids) (fun inds => inds) [0%nat] 2 self in
  fst out = self /\
  snd out = Ok ([1%nat; 0%nat], [1 # 200; 0 * 0]) /\
  In (1 # 200) (data sim_small) /\ 1 # 200 < floor_value /\
  (forall v, In v (data (check_no_negatives_mat sim_small)) ->
     floor_value <= v) /\
  recommend_for_item_inds argpartition_ins argsort_ins
    (check_no_negatives_mat sim_small) [0%nat] 2 true
  = Ok ([1%nat; 0%nat], [40000 # 4000000; 0 * 0]).
Proof.
  cbv zeta. split; [apply recommend_for_interaction_history_no_adjust|].
  split; [vm_compute; reflexivity|].
  split; [simpl; left; reflexivity|].
  split; [reflexivity|].
  split; [|vm_compute; reflexivity].
  apply (check_no_negatives_above sim_small (1 # 200));
    [simpl; left; reflexivity | reflexivity].
Qed.

(** ** Values of the matrix operations *)

Lemma sum_at_app i j l1 l2 :
  sum_at i j (l1 ++ l2) == sum_at i j l1 + sum_at i j l2.
Proof.
  unfold sum_at. rewrite filter_app, map_app. apply sumQ_app.
Qed.

Lemma sumQ_map_ext {A : Type} (g h : A -> Q) l :
  (forall x, In x l -> g x == h x) -> sumQ (map g l) == sumQ (map h l).
Proof.
  induction l as [|x l IH]; simpl; intro H; [reflexivity|].
  rewrite (H x) by (left; reflexivity).
  rewrite IH by (intros y Hy; apply H; right; exact Hy). reflexivity.
Qed.

Lemma sum_at_flat_map {A : Type} i j (g : A -> list entry) l :
  sum_at i j (flat_map g l) == sumQ (map (fun x => sum_at i j (g x)) l).
Proof.
  induction l as [|x l IH]; simpl; [reflexivity|].
  rewrite sum_at_app, IH. reflexivity.
Qed.

Lemma sumQ_indicator k v a n :
  sumQ (map (fun x => if (x =? k)%nat then v else 0) (seq a n))
  == if ((a <=? k) && (k <? a + n))%nat then v else 0.
Proof.
  revert a. induction n as [|n IH]; intro a; simpl.
  - destruct (a <=? k)%nat eqn:E1; simpl; [|reflexivity].
    destruct (k <? a + 0)%nat eqn:E2; [|reflexivity].
    apply Nat.leb_le in E1. apply Nat.ltb_lt in E2. lia.
  - rewrite IH.
    destruct (a =? k)%nat eqn:E.
    + apply Nat.eqb_eq in E. subst a.
      replace (S k <=? k)%nat with false by (symmetry; apply Nat.leb_gt; lia).
      replace (k <=? k)%nat with true by (symmetry; apply Nat.leb_le; lia).
      replace (k <? k + S n)%nat with true by (symmetry; apply Nat.ltb_lt; lia).
      simpl. ring.
    + apply Nat.eqb_neq in E.
      destruct (S a <=? k)%nat eqn:E1.
      * apply Nat.leb_le in E1.
        replace (a <=? k)%nat with true by (symmetry; apply Nat.leb_le; lia).
        replace (k <? a + S n)%nat with (k <? S a + n)%nat
          by (f_equal; lia).
        simpl. ring.
      * apply Nat.leb_gt in E1.
        replace (a <=? k)%nat with false by (symmetry; apply Nat.leb_gt; lia).
        simpl. ring.
Qed.

Lemma sumQ_zeros {A : Type} (l : list A) : sumQ (map (fun _ => 0) l) == 0.
Proof. induction l; simpl; [reflexivity | rewrite IHl; ring]. Qed.

Lemma get_from_fun r c f i j :
  get (from_fun r c f) i j
  == if ((i <? r) && (j <? c))%nat then f i j else 0.
Proof.
  change (get (from_fun r c f) i j)
    with (sum_at i j (stored (from_fun r c f))).
  unfold from_fun, stored.
  rewrite sum_at_flat_map.
  rewrite (sumQ_map_ext _
             (fun i' => if (i' =? i)%nat
                        then (if (j <? c)%nat then f i j else 0) else 0)).
  - rewrite sumQ_indicator. simpl.
    destruct (i <? r)%nat; simpl; reflexivity.
  - intros i' _. rewrite sum_at_flat_map.
    destruct (i' =? i)%nat eqn:Ei.
    + apply Nat.eqb_eq in Ei. subst i'.
      rewrite (sumQ_map_ext _ (fun j' => if (j' =? j)%nat then f i j else 0)).
      * rewrite sumQ_indicator. simpl. reflexivity.
      * intros j' _. unfold sum_at.
        destruct (Qeq_bool (f i j') 0) eqn:Ez; simpl.
        -- destruct (j' =? j)%nat eqn:Ej; [|reflexivity].
           apply Nat.eqb_eq in Ej. subst j'.
           apply Qeq_bool_iff in Ez. rewrite Ez. reflexivity.
        -- unfold at_pos. simpl. rewrite Nat.eqb_refl. simpl.
           destruct (j' =? j)%nat eqn:Ej; simpl; [|reflexivity].
           apply Nat.eqb_eq in Ej. subst j'. ring.
    + rewrite (sumQ_map_ext _ (fun _ => 0)).
      * apply sumQ_zeros.
      * intros j' _. unfold sum_at.
        destruct (Qeq_bool (f i' j') 0); simpl; [reflexivity|].
        unfold at_pos. simpl. rewrite Ei. simpl. reflexivity.
Qed.

Lemma get_transpose m i j : get (transpose m) i j = get m j i.
Proof.
  unfold get, transpose, sumQ. cbn [stored].
  induction (stored m) as [|e l IH]; [reflexivity|].
  cbn [map filter].
  assert (E : at_pos i j (mkEntry (e_col e) (e_row e) (e_val e))
              = at_pos j i e) by (unfold at_pos; simpl; apply andb_comm).
  rewrite E. destruct (at_pos j i e); cbn [map fold_right e_val];
    rewrite IH; reflexivity.
Qed.

Lemma add_transpose_symmetric b i j :
  n_rows b = n_cols b ->
  get (add b (transpose b)) i j == get (add b (transpose b)) j i.
Proof.
  intro Hsq. unfold add. rewrite !get_from_fun, !get_transpose, Hsq.
  rewrite (andb_comm (j <? n_cols b)%nat).
  destruct ((i <? n_cols b) && (j <? n_cols b))%nat; [ring | reflexivity].
Qed.

(** ** Shapes *)

Lemma prune_mat_shape choice m ratio cutoff m' :
  prune_mat choice m ratio cutoff = Ok m' -> same_shape m' m.
Proof.
  unfold prune_mat, same_shape.
  destruct (_ || _).
  - intro H; inversion H; subst. split; reflexivity.
  - destruct (Qlt_bool 0 ratio).
    + destruct (percentile _ _); simpl; [|discriminate].
      intro H; inversion H; subst. split; reflexivity.
    + simpl. intro H; inversion H; subst. split; reflexivity.
Qed.

Lemma first_degree_shape log10 choice tf mat mc b :
  snd (first_degree_cooccurrence log10 choice tf mat mc) = Ok b ->
  n_rows b = n_cols mat /\ n_cols b = n_cols mat.
Proof.
  unfold first_degree_cooccurrence.
  assert (Hgen : forall mat', n_cols mat' = n_cols mat ->
            (if Qlt_bool 1 mc
             then prune_mat choice (setdiag0 (matmul (transpose mat') mat')) 0 mc
             else Ok (setdiag0 (matmul (transpose mat') mat'))) = Ok b ->
            n_rows b = n_cols mat /\ n_cols b = n_cols mat).
  { intros mat' Hc. destruct (Qlt_bool 1 mc).
    - intro H. apply prune_mat_shape in H. destruct H as [H1 H2].
      rewrite H1, H2. simpl. rewrite Hc. split; reflexivity.
    - intro H; inversion H; subst. simpl. rewrite Hc. split; reflexivity. }
  destruct (String.eqb tf "ones"); [apply Hgen; reflexivity|].
  destruct (String.eqb tf "log"); [apply Hgen; reflexivity|].
  destruct (String.eqb tf "none"); [apply Hgen; reflexivity|].
  discriminate.
Qed.

Lemma expand_loop_shape dec i n hd : same_shape (expand_loop dec i n hd) hd.
Proof.
  revert i hd. induction n as [|n IH]; intros i hd; simpl.
  - split; reflexivity.
  - destruct (IH (S i)
                (setdiag0 (add hd (matmul (scale (dec ^ Z.of_nat (i + 1)) hd) hd))))
      as [H1 H2].
    split; [rewrite H1 | rewrite H2]; reflexivity.
Qed.

Lemma builder_shape log10 choice obs p r :
  snd (interactions_mat_to_cooccurrence_mat log10 choice obs p) = Ok r ->
  n_rows r = n_cols obs /\ n_cols r = n_cols obs.
Proof.
  unfold interactions_mat_to_cooccurrence_mat.
  pose proof (first_degree_shape log10 choice (trans_func p) obs
                (base_min_cooccurrence p)) as Hfd.
  destruct (first_degree_cooccurrence _ _ _ _ _) as [obs' [base|e]];
    simpl in *; [|discriminate].
  destruct (Hfd base eq_refl) as [H1 H2].
  assert (Hfin : forall m, n_rows m = n_cols obs -> n_cols m = n_cols obs ->
            (if normalize_items p then normalize m else Ok m) = Ok r ->
            n_rows r = n_cols obs /\ n_cols r = n_cols obs).
  { intros m Hr Hc H. apply normalize_step_ok in H. inversion H; subst.
    destruct (normalize_items p); simpl; split; assumption. }
  destruct (1 <? degree p)%Z; simpl.
  - unfold higher_degree.
    destruct (higher_deg_expanded choice p base); simpl; [|discriminate].
    apply Hfin; simpl; assumption.
  - apply Hfin; assumption.
Qed.

(** ** Symmetry after [fit] *)

(** C6.  When the builder returns a matrix [b], [ItemCoocRecommender.fit]
    succeeds and stores [b + b.T], which has equal values at (i, j) and
    (j, i) for all i, j; [UserCoocRecommender.fit] succeeds and stores the
    matrix the builder returns on the transposed interaction matrix, nothing
    added. *)
Theorem fit_symmetrization log10 choice obs upd self :
  (forall b,
     snd (interactions_mat_to_cooccurrence_mat log10 choice obs
            (upd (params self))) = Ok b ->
     let out := ItemCoocRecommender_fit log10 choice obs upd self in
     snd out = Ok tt /\
     similarity_mat (fst out) = Some (add b (transpose b)) /\
     forall i j,
       get (add b (transpose b)) i j == get (add b (transpose b)) j i) /\
  (forall b,
     snd (interactions_mat_to_cooccurrence_mat log10 choice (transpose obs)
            (upd (params self))) = Ok b ->
     let out := UserCoocRecommender_fit log10 choice obs upd self in
     snd out = Ok tt /\
     similarity_mat (fst out) = Some b).
Proof.
  split; intros b Hb; cbv zeta.
  - pose proof (builder_shape _ _ _ _ _ Hb) as [Hr Hc].
    unfold ItemCoocRecommender_fit, _prep_for_fit, build_on_train_mat. run_M.
    cbn [train_mat params].
    destruct (interactions_mat_to_cooccurrence_mat log10 choice obs
                (upd (params self))) as [tm' r].
    simpl in Hb. subst r. simpl.
    repeat split.
    intros i j. apply add_transpose_symmetric. congruence.
  - unfold UserCoocRecommender_fit, _prep_for_fit, build_on_train_mat_T. run_M.
    cbn [train_mat params]. rewrite Hb. simpl. split; reflexivity.
Qed.

Lemma fit_symmetrization_witness :
  exists s,
    similarity_mat
      (fst (ItemCoocRecommender_fit log10_unused choice_unused obs_chain
              (fun p => p) (init params_default))) = Some s /\
    forall i j, get s i j == get s j i.
Proof.
  destruct (snd (interactions_mat_to_cooccurrence_mat log10_unused
                   choice_unused obs_chain params_default))
    as [b|e] eqn:E; [|vm_compute in E; discriminate].
  destruct (fit_symmetrization log10_unused choice_unused obs_chain
              (fun p => p) (init params_default)) as [H _].
  destruct (H b E) as (_ & Hs & Hsym).
  exists (add b (transpose b)). split; [exact Hs | exact Hsym].
Defined.

(** ** Row normalisation *)

Lemma row_vals_normalize m i :
  row_vals (normalize_l1 m) i
  = map (fun v => if Qeq_bool (row_abs_sum m i) 0 then v
                  else v / row_abs_sum m i)
        (row_vals m i).
Proof.
  unfold row_vals, normalize_l1. cbn [stored].
  generalize (row_abs_sum m). intro N.
  induction (stored m) as [|e l IH]; [reflexivity|].
  cbn [map filter].
  assert (Hrow : in_row i (if Qeq_bool (N (e_row e)) 0 then e
                           else set_val (fun v => v / N (e_row e)) e)
                 = in_row i e).
  { destruct (Qeq_bool (N (e_row e)) 0); reflexivity. }
  rewrite Hrow. destruct (in_row i e) eqn:Ei; [|exact IH].
  unfold in_row in Ei. apply Nat.eqb_eq in Ei.
  cbn [map]. rewrite IH. f_equal.
  rewrite Ei. destruct (Qeq_bool (N i) 0); reflexivity.
Qed.

Lemma sumQ_abs_nonneg l : 0 <= sumQ (map Qabs l).
Proof.
  apply sumQ_nonneg. apply Forall_forall. intros v Hv.
  apply in_map_iff in Hv. destruct Hv as (u & <- & _). apply Qabs_nonneg.
Qed.

Lemma sumQ_abs_zero l v : sumQ (map Qabs l) == 0 -> In v l -> v == 0.
Proof.
  induction l as [|x l IH]; simpl; intros Hs Hv; [destruct Hv|].
  pose proof (Qabs_nonneg x) as Hx. pose proof (sumQ_abs_nonneg l) as Hl.
  destruct Hv as [<- | Hv].
  - assert (Hz : Qabs x == 0) by lra.
    revert Hz. apply Qabs_case; intros; lra.
  - apply IH; [lra | exact Hv].
Qed.

Lemma sumQ_abs_of_nonneg l :
  (forall v, In v l -> 0 <= v) -> sumQ (map Qabs l) == sumQ l.
Proof.
  induction l as [|x l IH]; simpl; intro H; [reflexivity|].
  rewrite IH by (intros v Hv; apply H; right; exact Hv).
  rewrite Qabs_pos by (apply H; left; reflexivity). reflexivity.
Qed.

Lemma normalize_zero_row m i :
  row_all_zero m i -> row_vals (normalize_l1 m) i = row_vals m i.
Proof.
  intro Hz. rewrite row_vals_normalize.
  assert (E : Qeq_bool (row_abs_sum m i) 0 = true).
  { apply Qeq_bool_iff. unfold row_abs_sum. apply sumQ_all_zero.
    intros v Hv. apply in_map_iff in Hv. destruct Hv as (u & <- & Hu).
    rewrite (Hz u Hu). reflexivity. }
  rewrite E. apply map_id.
Qed.

Lemma normalize_nonzero_row m i :
  row_has_nonzero (normalize_l1 m) i -> ~ row_abs_sum m i == 0.
Proof.
  intros (v & Hv & Hnz) Hn. apply Hnz.
  rewrite row_vals_normalize in Hv.
  assert (E : Qeq_bool (row_abs_sum m i) 0 = true)
    by (apply Qeq_bool_iff; exact Hn).
  rewrite E, map_id in Hv.
  apply (sumQ_abs_zero (row_vals m i)); assumption.
Qed.

Lemma normalize_unit_norm m i :
  ~ row_abs_sum m i == 0 -> row_abs_sum (normalize_l1 m) i == 1.
Proof.
  intro Hn.
  assert (E : Qeq_bool (row_abs_sum m i) 0 = false)
    by (apply Qeq_bool_false; exact Hn).
  unfold row_abs_sum at 1. rewrite row_vals_normalize, E, map_map.
  rewrite (sumQ_map_ext _ (fun v => Qabs v * / row_abs_sum m i)).
  - rewrite <- (map_map Qabs (fun a => a * / row_abs_sum m i)).
    rewrite sumQ_map_scale. fold (row_abs_sum m i). field. exact Hn.
  - intros v _. unfold Qdiv. rewrite Qabs_Qmult, Qabs_Qinv.
    rewrite (Qabs_pos (row_abs_sum m i)) by apply sumQ_abs_nonneg.
    reflexivity.
Qed.

Lemma normalize_unit_sum m i :
  row_has_nonzero (normalize_l1 m) i ->
  (forall v, In v (row_vals (normalize_l1 m) i) -> 0 <= v) ->
  row_sum (normalize_l1 m) i == 1.
Proof.
  intros Hnz Hpos. unfold row_sum.
  rewrite <- sumQ_abs_of_nonneg by exact Hpos.
  apply normalize_unit_norm. apply normalize_nonzero_row. exact Hnz.
Qed.

(** ** Non-negative values through the builder *)

Lemma nonneg_map_data f m :
  (forall v, 0 <= v -> 0 <= f v) -> nonneg_data m -> nonneg_data (map_data f m).
Proof.
  unfold nonneg_data. intros Hf H. rewrite data_map_data.
  apply Forall_map. eapply Forall_impl; [|exact H]. exact Hf.
Qed.

Lemma nonneg_get m i j : nonneg_data m -> 0 <= get m i j.
Proof.
  unfold nonneg_data, data, get. intro H. apply sumQ_nonneg.
  apply Forall_forall. intros v Hv. apply in_map_iff in Hv.
  destruct Hv as (e & <- & He). apply filter_In in He. destruct He as [He _].
  rewrite Forall_forall in H. apply H. apply in_map. exact He.
Qed.

Lemma nonneg_from_fun r c f :
  (forall i j, 0 <= f i j) -> nonneg_data (from_fun r c f).
Proof.
  intro Hf. unfold nonneg_data, data, from_fun. cbn [stored].
  apply Forall_forall. intros v Hv. apply in_map_iff in Hv.
  destruct Hv as (e & <- & He).
  apply in_flat_map in He. destruct He as (i & _ & He).
  apply in_flat_map in He. destruct He as (j & _ & He).
  destruct (Qeq_bool (f i j) 0); [destruct He|].
  destruct He as [<- | []]. apply Hf.
Qed.

Lemma nonneg_transpose m : nonneg_data m -> nonneg_data (transpose m).
Proof.
  unfold nonneg_data, data, transpose. cbn [stored].
  rewrite map_map. cbn [e_val]. exact (fun H => H).
Qed.

Lemma nonneg_matmul a b :
  nonneg_data a -> nonneg_data b -> nonneg_data (matmul a b).
Proof.
  intros Ha Hb. apply nonneg_from_fun. intros i j.
  apply sumQ_nonneg. apply Forall_map. apply Forall_forall. intros k _.
  apply Qmult_le_0_compat; apply nonneg_get; assumption.
Qed.

Lemma nonneg_add a b : nonneg_data a -> nonneg_data b -> nonneg_data (add a b).
Proof.
  intros Ha Hb. apply nonneg_from_fun. intros i j.
  pose proof (nonneg_get a i j Ha). pose proof (nonneg_get b i j Hb). lra.
Qed.

Lemma nonneg_setdiag0 m : nonneg_data m -> nonneg_data (setdiag0 m).
Proof.
  unfold nonneg_data, data, setdiag0. cbn [stored]. intro H.
  rewrite map_app. apply Forall_app. split.
  - rewrite Forall_forall in *. intros v Hv. apply in_map_iff in Hv.
    destruct Hv as (e & <- & He). apply filter_In in He. destruct He as [He _].
    apply H. apply in_map. exact He.
  - rewrite map_map. cbn [e_val]. apply Forall_map. apply Forall_forall.
    intros _ _. apply Qle_refl.
Qed.

Lemma nonneg_eliminate_zeros m :
  nonneg_data m -> nonneg_data (eliminate_zeros m).
Proof.
  unfold nonneg_data, data, eliminate_zeros. cbn [stored]. intro H.
  rewrite Forall_forall in *. intros v Hv. apply in_map_iff in Hv.
  destruct Hv as (e & <- & He). apply filter_In in He. destruct He as [He _].
  apply H. apply in_map. exact He.
Qed.

Lemma nonneg_prune_mat choice m ratio cutoff m' :
  nonneg_data m -> prune_mat choice m ratio cutoff = Ok m' -> nonneg_data m'.
Proof.
  intro Hm. unfold prune_mat.
  assert (Hcut : forall c,
            nonneg_data (eliminate_zeros
              (map_data (fun v => if Qlt_bool v c then v * 0 else v) m))).
  { intro c. apply nonneg_eliminate_zeros. apply nonneg_map_data; [|exact Hm].
    intros v Hv. destruct (Qlt_bool v c); lra. }
  destruct (_ || _).
  - intro H; inversion H; subst. exact Hm.
  - destruct (Qlt_bool 0 ratio).
    + destruct (percentile _ _); simpl; [|discriminate].
      intro H; inversion H; subst. apply Hcut.
    + simpl. intro H; inversion H; subst. apply Hcut.
Qed.

Lemma nonneg_expand_loop dec i n hd :
  0 <= dec -> nonneg_data hd -> nonneg_data (expand_loop dec i n hd).
Proof.
  intro Hd. revert i hd. induction n as [|n IH]; intros i hd Hhd; simpl.
  - exact Hhd.
  - apply IH. apply nonneg_setdiag0. apply nonneg_add; [exact Hhd|].
    apply nonneg_matmul; [|exact Hhd].
    apply nonneg_map_data; [|exact Hhd].
    intros v Hv. apply Qmult_le_0_compat; [|exact Hv].
    apply Qpower_0_le. exact Hd.
Qed.

Lemma nonneg_rescale tw hd :
  0 <= tw -> nonneg_data hd -> nonneg_data (rescale tw hd).
Proof.
  intros Htw Hhd. apply nonneg_map_data; [|exact Hhd].
  intros v Hv. apply Qmult_le_0_compat; [exact Hv|].
  pose proof (sumQ_nonneg _ Hhd) as HS.
  apply Qle_shift_div_l; lra.
Qed.

Lemma nonneg_normalize m : nonneg_data m -> nonneg_data (normalize_l1 m).
Proof.
  unfold nonneg_data, data, normalize_l1. cbn [stored]. intro H.
  rewrite map_map. rewrite Forall_forall in *. intros v Hv.
  apply in_map_iff in Hv. destruct Hv as (e & <- & He).
  assert (He' : 0 <= e_val e) by (apply H; apply in_map; exact He).
  destruct (Qeq_bool (row_abs_sum m (e_row e)) 0) eqn:E; [exact He'|].
  cbn [set_val e_val].
  apply Qeq_bool_false in E.
  pose proof (sumQ_abs_nonneg (row_vals m (e_row e))) as Hn.
  fold (row_abs_sum m (e_row e)) in Hn.
  apply Qle_shift_div_l; lra.
Qed.

Lemma nonneg_first_degree log10 choice tf mat mc b :
  (forall v, 0 <= v -> 0 <= log10 (v + 1)) ->
  nonneg_data mat ->
  snd (first_degree_cooccurrence log10 choice tf mat mc) = Ok b ->
  nonneg_data b.
Proof.
  intros Hlog Hm. unfold first_degree_cooccurrence.
  assert (Hgen : forall mat', nonneg_data mat' ->
            (if Qlt_bool 1 mc
             then prune_mat choice (setdiag0 (matmul (transpose mat') mat')) 0 mc
             else Ok (setdiag0 (matmul (transpose mat') mat'))) = Ok b ->
            nonneg_data b).
  { intros mat' Hm'.
    assert (Hc : nonneg_data (setdiag0 (matmul (transpose mat') mat'))).
    { apply nonneg_setdiag0, nonneg_matmul; [apply nonneg_transpose|];
        exact Hm'. }
    destruct (Qlt_bool 1 mc).
    - apply nonneg_prune_mat. exact Hc.
    - intro H; inversion H; subst. exact Hc. }
  destruct (String.eqb tf "ones").
  { apply Hgen. apply nonneg_map_data; [intros; lra | exact Hm]. }
  destruct (String.eqb tf "log").
  { apply Hgen. apply nonneg_map_data; [exact Hlog | exact Hm]. }
  destruct (String.eqb tf "none"); [apply Hgen; exact Hm | discriminate].
Qed.

Lemma nonneg_builder log10 choice obs p r :
  (forall v, 0 <= v -> 0 <= log10 (v + 1)) ->
  nonneg_data obs -> 0 <= decay p ->
  snd (interactions_mat_to_cooccurrence_mat log10 choice obs p) = Ok r ->
  nonneg_data r.
Proof.
  intros Hlog Hobs Hdec. unfold interactions_mat_to_cooccurrence_mat.
  pose proof (nonneg_first_degree log10 choice (trans_func p) obs
                (base_min_cooccurrence p)) as Hfd.
  destruct (first_degree_cooccurrence _ _ _ _ _) as [obs' [base|e]];
    simpl in *; [|discriminate].
  pose proof (Hfd base Hlog Hobs eq_refl) as Hbase.
  assert (Hfin : forall m, nonneg_data m ->
            (if normalize_items p then normalize m else Ok m) = Ok r ->
            nonneg_data r).
  { intros m Hm H. apply normalize_step_ok in H. inversion H; subst.
    destruct (normalize_items p); [apply nonneg_normalize|]; exact Hm. }
  destruct (1 <? degree p)%Z; simpl; [|apply Hfin; exact Hbase].
  unfold higher_degree, higher_deg_expanded.
  destruct (prune_mat choice base (prune_ratio p) (min_cooccurrence p))
    as [hd|e] eqn:Ep; simpl; [|discriminate].
  apply Hfin. apply nonneg_add; [exact Hbase|].
  apply nonneg_rescale; [apply sumQ_nonneg; exact Hbase|].
  apply nonneg_expand_loop; [exact Hdec|].
  eapply nonneg_prune_mat; eassumption.
Qed.

(** ** Normalised rows *)

Lemma builder_normalize log10 choice obs p :
  normalize_items p = true ->
  snd (interactions_mat_to_cooccurrence_mat log10 choice obs p)
  = (pre <- snd (interactions_mat_to_cooccurrence_mat log10 choice obs
                   (set_normalize_items false p)) ;;
     normalize pre).
Proof.
  intro Hn. unfold interactions_mat_to_cooccurrence_mat, higher_degree,
    higher_deg_expanded. cbn [set_normalize_items trans_func
    base_min_cooccurrence degree normalize_items prune_ratio
    min_cooccurrence decay]. rewrite Hn.
  destruct (first_degree_cooccurrence _ _ _ _ _) as [obs' [base|e]];
    cbn [snd bind]; [|reflexivity].
  destruct (1 <? degree p)%Z; cbn [bind]; [|reflexivity].
  destruct (prune_mat _ _ _ _); reflexivity.
Qed.

Lemma row_all_zero_eq m m' i :
  row_vals m' i = row_vals m i -> row_all_zero m i -> row_all_zero m' i.
Proof. unfold row_all_zero. intros ->. exact (fun H => H). Qed.

Lemma nonneg_row_vals m i :
  nonneg_data m -> forall v, In v (row_vals m i) -> 0 <= v.
Proof.
  unfold nonneg_data, data. rewrite Forall_forall. intros H v Hv.
  apply H. unfold row_vals in Hv. apply in_map_iff in Hv.
  destruct Hv as (e & <- & He). apply filter_In in He.
  apply in_map. tauto.
Qed.



(** The condition on [decay] is needed: with [decay = -1] and [degree = 2]
    on the chain example (non-negative weights) row 0 of the normalised
    result is 0, 7/11, -4/11, which sums to 3/11. *)
Lemma negative_decay_row_not_summing_to_one :
  ~ normalized_rows_sum_to_one log10_unused choice_unused obs_chain
      params_negative_decay.
Proof.
  unfold normalized_rows_sum_to_one. intro H.
  destruct (snd (interactions_mat_to_cooccurrence_mat log10_unused
                   choice_unused obs_chain params_negative_decay))
    as [r|e] eqn:E; [|vm_compute in E; discriminate].
  pose proof (H eq_refl r eq_refl O) as H0.
  vm_compute in E. inversion E; subst r.
  match type of H0 with
  | row_has_nonzero ?m _ -> _ =>
      assert (Hn : row_has_nonzero m 0)
  end.
  { eexists. split; [vm_compute; left; reflexivity|].
    intro Hq. vm_compute in Hq. discriminate. }
  specialize (H0 Hn). vm_compute in H0. apply H0. reflexivity.
Qed.

(** ** Insertion sort *)

Section InsertionSortFacts.
Context {A : Type} (leb : A -> A -> bool).
Hypothesis leb_total : forall x y, leb x y = true \/ leb y x = true.
Hypothesis leb_trans :
  forall x y z, leb x y = true -> leb y z = true -> leb x z = true.

Lemma insert_by_perm x l : Permutation (insert_by leb x l) (x :: l).
Proof.
  induction l as [|y l IH]; simpl; [apply Permutation_refl|].
  destruct (leb x y); [apply Permutation_refl|].
  eapply Permutation_trans; [apply perm_skip; exact IH | apply perm_swap].
Qed.

Lemma sort_by_perm l : Permutation (sort_by leb l) l.
Proof.
  induction l as [|x l IH]; simpl; [apply Permutation_refl|].
  eapply Permutation_trans; [apply insert_by_perm | apply perm_skip; exact IH].
Qed.

Lemma insert_by_sorted x l :
  StronglySorted (fun a b => leb a b = true) l ->
  StronglySorted (fun a b => leb a b = true) (insert_by leb x l).
Proof.
  induction 1 as [|y l Hs IH Hy]; simpl.
  - constructor; constructor.
  - destruct (leb x y) eqn:E.
    + constructor; [constructor; assumption|].
      constructor; [exact E|].
      eapply Forall_impl; [|exact Hy]. intros z Hz.
      eapply leb_trans; eassumption.
    + constructor; [exact IH|].
      assert (Hyx : leb y x = true).
      { destruct (leb_total x y) as [H | H]; [congruence | exact H]. }
      apply Forall_forall. intros z Hz.
      apply (Permutation_in _ (insert_by_perm x l)) in Hz.
      destruct Hz as [<- | Hz]; [exact Hyx|].
      rewrite Forall_forall in Hy. apply Hy. exact Hz.
Qed.

Lemma sort_by_sorted l :
  StronglySorted (fun a b => leb a b = true) (sort_by leb l).
Proof.
  induction l as [|x l IH]; simpl; [constructor|].
  apply insert_by_sorted. exact IH.
Qed.
End InsertionSortFacts.

Lemma StronglySorted_impl {A : Type} (R R' : A -> A -> Prop) l :
  (forall x y, In x l -> In y l -> R x y -> R' x y) ->
  StronglySorted R l -> StronglySorted R' l.
Proof.
  intros HR H. induction H as [|x l Hs IH Hx]; [constructor|].
  constructor.
  - apply IH. intros a b Ha Hb. apply HR; right; assumption.
  - rewrite Forall_forall in *. intros y Hy.
    apply HR; [left; reflexivity | right; exact Hy | apply Hx; exact Hy].
Qed.

Lemma StronglySorted_map {A B : Type} (R : A -> A -> Prop)
    (R' : B -> B -> Prop) (g : A -> B) l :
  (forall x y, In x l -> In y l -> R x y -> R' (g x) (g y)) ->
  StronglySorted R l -> StronglySorted R' (map g l).
Proof.
  intros HR H. induction H as [|x l Hs IH Hx]; simpl; [constructor|].
  constructor.
  - apply IH. intros a b Ha Hb. apply HR; right; assumption.
  - apply Forall_map. rewrite Forall_forall in *. intros y Hy.
    apply HR; [left; reflexivity | right; exact Hy | apply Hx; exact Hy].
Qed.

Lemma StronglySorted_app {A : Type} (R : A -> A -> Prop) l1 l2 :
  StronglySorted R l1 -> StronglySorted R l2 ->
  (forall x y, In x l1 -> In y l2 -> R x y) ->
  StronglySorted R (l1 ++ l2).
Proof.
  intros H1 H2 H. induction H1 as [|x l1 Hs IH Hx]; simpl; [exact H2|].
  constructor.
  - apply IH. intros a b Ha Hb. apply H; [right; exact Ha | exact Hb].
  - apply Forall_app. split; [exact Hx|].
    apply Forall_forall. intros y Hy. apply H; [left; reflexivity | exact Hy].
Qed.

Lemma sort_desc_descending l : descending (sort_desc l).
Proof.
  unfold descending, sort_desc.
  eapply StronglySorted_impl;
    [|apply (sort_by_sorted (fun x y => Qle_bool y x))].
  - intros x y _ _ H. apply Qle_bool_iff. exact H.
  - intros x y. destruct (Qlt_le_dec x y) as [H | H].
    + right. apply Qle_bool_iff. apply Qlt_le_weak. exact H.
    + left. apply Qle_bool_iff. exact H.
  - intros x y z Hxy Hyz. apply Qle_bool_iff.
    apply Qle_bool_iff in Hxy. apply Qle_bool_iff in Hyz.
    eapply Qle_trans; eassumption.
Qed.

Lemma sort_desc_perm l : Permutation (sort_desc l) l.
Proof. apply sort_by_perm. Qed.

Lemma argsort_ins_spec : argsort_spec argsort_ins.
Proof.
  intro a. unfold argsort_ins. split; [apply sort_by_perm|].
  eapply StronglySorted_impl; [|apply sort_by_sorted].
  - intros x y _ _ H. apply Qle_bool_iff. exact H.
  - intros x y. destruct (Qlt_le_dec (nth x a 0) (nth y a 0)) as [H | H].
    + left. apply Qle_bool_iff. apply Qlt_le_weak. exact H.
    + right. apply Qle_bool_iff. exact H.
  - intros x y z Hxy Hyz. apply Qle_bool_iff.
    apply Qle_bool_iff in Hxy. apply Qle_bool_iff in Hyz.
    eapply Qle_trans; eassumption.
Qed.

Lemma StronglySorted_nth {A : Type} (R : A -> A -> Prop) l d :
  StronglySorted R l ->
  forall p q, (p < q)%nat -> (q < length l)%nat -> R (nth p l d) (nth q l d).
Proof.
  induction 1 as [|x l Hs IH Hx]; intros p q Hpq Hq; simpl in Hq; [lia|].
  destruct q as [|q]; [lia|]. destruct p as [|p]; simpl.
  - rewrite Forall_forall in Hx. apply Hx. apply nth_In. lia.
  - apply IH; lia.
Qed.

Lemma argpartition_ins_spec : argpartition_spec argpartition_ins.
Proof.
  intros a kth _. unfold argpartition_ins.
  destruct (argsort_ins_spec a) as [Hp Hs]. split; [exact Hp|].
  intros p q Hpk Hkq Hq.
  apply (StronglySorted_nth (fun i j => nth i a 0 <= nth j a 0));
    [exact Hs | lia |].
  rewrite (Permutation_length Hp), length_seq. exact Hq.
Qed.

(** ** Lists of indices *)

Lemma map_nth_seq {A : Type} (l : list A) d :
  map (fun p => nth p l d) (seq 0 (length l)) = l.
Proof.
  induction l as [|x l IH]; simpl; [reflexivity|].
  f_equal. rewrite <- seq_shift, map_map. exact IH.
Qed.

Lemma In_firstn_nth {A : Type} (l : list A) m x d :
  In x (firstn m l) ->
  exists p, (p < m)%nat /\ (p < length l)%nat /\ nth p l d = x.
Proof.
  revert m. induction l as [|y l IH]; intros m Hx.
  - rewrite firstn_nil in Hx. destruct Hx.
  - destruct m as [|m]; [destruct Hx|]. simpl in Hx.
    destruct Hx as [<- | Hx].
    + exists O. simpl. repeat split; lia.
    + destruct (IH m Hx) as (p & Hp & Hl & Hn).
      exists (S p). simpl. repeat split; [lia | lia | exact Hn].
Qed.

Lemma In_skipn_nth {A : Type} (l : list A) m x d :
  In x (skipn m l) ->
  exists q, (m <= q)%nat /\ (q < length l)%nat /\ nth q l d = x.
Proof.
  intro Hx. destruct (In_nth _ _ d Hx) as (i & Hi & Hn).
  rewrite length_skipn in Hi. rewrite nth_skipn in Hn.
  exists (m + i)%nat. repeat split; [lia | lia | exact Hn].
Qed.

Lemma NoDup_app_disjoint {A : Type} (l1 l2 : list A) x :
  NoDup (l1 ++ l2) -> In x l1 -> In x l2 -> False.
Proof.
  induction l1 as [|y l1 IH]; simpl; intros Hnd H1 H2; [exact H1|].
  inversion Hnd as [|? ? Hy Hnd']; subst.
  destruct H1 as [-> | H1].
  - apply Hy. apply in_or_app. right. exact H2.
  - apply IH; assumption.
Qed.

Lemma take_app s l1 l2 : take s (l1 ++ l2) = take s l1 ++ take s l2.
Proof. apply map_app. Qed.

Lemma take_seq s : take s (seq 0 (length s)) = s.
Proof. apply map_nth_seq. Qed.

(** ** Descending lists with the same elements *)

Lemma count_ge_perm x l1 l2 :
  Permutation l1 l2 -> count_ge x l1 = count_ge x l2.
Proof.
  unfold count_ge. induction 1 as [|y l l' _ IH|y z l|l l' l'' _ IH1 _ IH2];
    simpl.
  - reflexivity.
  - destruct (Qle_bool x y); simpl; congruence.
  - destruct (Qle_bool x y), (Qle_bool x z); reflexivity.
  - congruence.
Qed.

Lemma count_ge_pos x l :
  (0 < count_ge x l)%nat -> exists y, In y l /\ x <= y.
Proof.
  unfold count_ge. induction l as [|y l IH]; simpl; [lia|].
  destruct (Qle_bool x y) eqn:E.
  - intros _. exists y. split; [left; reflexivity | apply Qle_bool_iff; exact E].
  - intro H. destruct (IH H) as (z & Hz & Hle).
    exists z. split; [right; exact Hz | exact Hle].
Qed.

Lemma descending_head_max a l y : descending (a :: l) -> In y (a :: l) -> y <= a.
Proof.
  intros H Hy. apply StronglySorted_inv in H. destruct H as [_ H].
  destruct Hy as [<- | Hy]; [apply Qle_refl|].
  rewrite Forall_forall in H. apply H. exact Hy.
Qed.

Lemma count_ge_head a l : (0 < count_ge a (a :: l))%nat.
Proof.
  unfold count_ge. simpl.
  assert (E : Qle_bool a a = true) by (apply Qle_bool_iff; apply Qle_refl).
  rewrite E. simpl. lia.
Qed.

Lemma descending_unique l1 l2 :
  descending l1 -> descending l2 ->
  (forall x, count_ge x l1 = count_ge x l2) ->
  Forall2 Qeq l1 l2.
Proof.
  revert l2. induction l1 as [|a l1 IH]; intros l2 H1 H2 Hc.
  - destruct l2 as [|b l2]; [constructor|].
    pose proof (count_ge_head b l2) as Hb. rewrite <- Hc in Hb.
    unfold count_ge in Hb. simpl in Hb. lia.
  - destruct l2 as [|b l2].
    + pose proof (count_ge_head a l1) as Ha. rewrite Hc in Ha.
      unfold count_ge in Ha. simpl in Ha. lia.
    + assert (Hab : a <= b).
      { pose proof (count_ge_head a l1) as Ha. rewrite Hc in Ha.
        destruct (count_ge_pos _ _ Ha) as (y & Hy & Hle).
        eapply Qle_trans; [exact Hle|].
        eapply descending_head_max; eassumption. }
      assert (Hba : b <= a).
      { pose proof (count_ge_head b l2) as Hb. rewrite <- Hc in Hb.
        destruct (count_ge_pos _ _ Hb) as (y & Hy & Hle).
        eapply Qle_trans; [exact Hle|].
        eapply descending_head_max; eassumption. }
      assert (Heq : a == b) by (apply Qle_antisym; assumption).
      constructor; [exact Heq|].
      apply IH.
      * apply StronglySorted_inv in H1. tauto.
      * apply StronglySorted_inv in H2. tauto.
      * intro x. specialize (Hc x). unfold count_ge in *. simpl in Hc.
        assert (E : Qle_bool x a = Qle_bool x b).
        { destruct (Qle_bool x a) eqn:Ea, (Qle_bool x b) eqn:Eb;
            try reflexivity.
          - apply Qle_bool_iff in Ea.
            assert (Hxb : x <= b) by (rewrite <- Heq; exact Ea).
            apply Qle_bool_iff in Hxb. congruence.
          - apply Qle_bool_iff in Eb.
            assert (Hxa : x <= a) by (rewrite Heq; exact Eb).
            apply Qle_bool_iff in Hxa. congruence. }
        rewrite E in Hc. destruct (Qle_bool x b); simpl in Hc; lia.
Qed.

Lemma Forall2_firstn {A B : Type} (R : A -> B -> Prop) n l1 l2 :
  Forall2 R l1 l2 -> Forall2 R (firstn n l1) (firstn n l2).
Proof.
  intro H. revert n. induction H as [|x y l1 l2 Hxy _ IH]; intro n.
  - rewrite !firstn_nil. constructor.
  - destruct n as [|n]; simpl; constructor; [exact Hxy | apply IH].
Qed.

(** ** The selection of the top scores *)

Lemma is_top_k_nil s k :
  Nat.min k (length s) = O -> is_top_k s k ([], []).
Proof.
  intro Hm. unfold is_top_k. rewrite Hm. simpl.
  repeat split; try constructor.
  intros i j Hi. destruct Hi.
Qed.

Section TopSorted.
Variable argpartition : list Q -> nat -> list nat.
Variable argsort : list Q -> list nat.
Hypothesis argpartition_ok : argpartition_spec argpartition.
Hypothesis argsort_ok : argsort_spec argsort.

Lemma top_sorted_is_top_k s k :
  is_top_k s k (top_sorted argpartition argsort s (Nat.min k (length s))).
Proof.
  set (n := length s). set (m := Nat.min k n).
  destruct (Nat.eq_dec m 0) as [Hm0 | Hm0].
  { unfold top_sorted. rewrite Hm0. simpl. apply is_top_k_nil. exact Hm0. }
  assert (Hmn : (m <= n)%nat) by (unfold m; lia).
  assert (Hkth : (n - m < length s)%nat) by (fold n; lia).
  destruct (argpartition_ok s (n - m)%nat (or_introl Hkth)) as [HP Hord].
  set (P := argpartition s (n - m)%nat) in *.
  assert (HlenP : length P = n)
    by (rewrite (Permutation_length HP), length_seq; reflexivity).
  set (i_part := skipn (n - m) P).
  set (rest := firstn (n - m) P).
  assert (HPsplit : P = rest ++ i_part)
    by (symmetry; apply firstn_skipn).
  assert (Hlen_part : length i_part = m)
    by (unfold i_part; rewrite length_skipn; lia).
  set (v := map Qopp (take s i_part)).
  assert (Hlen_v : length v = m)
    by (unfold v, take; rewrite !length_map; exact Hlen_part).
  destruct (argsort_ok v) as [HA HAs].
  set (A := argsort v) in *.
  assert (HlenA : length A = m)
    by (rewrite (Permutation_length HA), length_seq; exact Hlen_v).
  set (i_sort := gather i_part A).
  assert (Heq : top_sorted argpartition argsort s m
                = (i_sort, take s i_sort)).
  { unfold top_sorted, last_n.
    destruct (m =? 0)%nat eqn:E; [apply Nat.eqb_eq in E; contradiction|].
    fold n. fold P. rewrite HlenP. fold i_part. fold v. fold A.
    rewrite firstn_all2 by lia. reflexivity. }
  rewrite Heq.
  assert (Hperm : Permutation i_sort i_part).
  { unfold i_sort, gather.
    apply Permutation_trans
      with (map (fun p => nth p i_part O) (seq 0 (length i_part)));
      [|rewrite map_nth_seq; apply Permutation_refl].
    apply Permutation_map. rewrite Hlen_part, <- Hlen_v. exact HA. }
  assert (HndP : NoDup P)
    by (apply (Permutation_NoDup (Permutation_sym HP)); apply seq_NoDup).
  assert (Hin_part : forall i, In i i_part ->
            exists q, (n - m <= q)%nat /\ (q < n)%nat /\ nth q P O = i).
  { intros i Hi. destruct (In_skipn_nth P (n - m) i O Hi) as (q & H1 & H2 & H3).
    exists q. repeat split; [exact H1 | lia | exact H3]. }
  assert (Hin_rest : forall j, (j < n)%nat -> ~ In j i_part ->
            exists p, (p < n - m)%nat /\ nth p P O = j).
  { intros j Hj Hnot.
    assert (HjP : In j P).
    { apply (Permutation_in _ (Permutation_sym HP)). apply in_seq. fold n. lia. }
    rewrite HPsplit in HjP. apply in_app_or in HjP.
    destruct HjP as [HjP | HjP]; [|contradiction].
    destruct (In_firstn_nth P (n - m) j O HjP) as (p & H1 & _ & H3).
    exists p. split; assumption. }
  assert (Htop : forall i j, In i i_part -> (j < n)%nat -> ~ In j i_part ->
            nth j s 0 <= nth i s 0).
  { intros i j Hi Hj Hnot.
    destruct (Hin_part i Hi) as (q & Hq1 & Hq2 & <-).
    destruct (Hin_rest j Hj Hnot) as (p & Hp1 & <-).
    apply Hord; assumption. }
  assert (Hdesc : descending (take s i_sort)).
  { unfold descending, take, i_sort, gather. rewrite map_map.
    apply (StronglySorted_map (fun a b => nth a v 0 <= nth b v 0));
      [|exact HAs].
    intros a b Ha Hb Hab.
    assert (Hbound : forall c, In c A -> (c < length (take s i_part))%nat).
    { intros c Hc. apply (Permutation_in _ HA) in Hc. apply in_seq in Hc.
      unfold take. rewrite length_map. lia. }
    assert (Hv : forall c, In c A ->
              nth c v 0 = - nth (nth c i_part O) s 0).
    { intros c Hc. unfold v.
      change 0 with (Qopp 0) at 1. rewrite map_nth.
      unfold take.
      rewrite (nth_indep _ 0 ((fun i => nth i s 0) O)) by
        (apply Hbound in Hc; unfold take in Hc; exact Hc).
      rewrite (map_nth (fun i => nth i s 0)). reflexivity. }
    rewrite (Hv a Ha), (Hv b Hb) in Hab. lra. }
  unfold is_top_k. fold n. fold m. cbn [fst snd].
  split; [unfold i_sort, gather; rewrite length_map; exact HlenA|].
  split; [unfold take, i_sort, gather; rewrite !length_map; exact HlenA|].
  split; [reflexivity|].
  split; [apply (Permutation_NoDup (Permutation_sym Hperm));
          rewrite HPsplit in HndP; apply NoDup_app_remove_l in HndP;
          exact HndP|].
  split.
  { apply Forall_forall. intros i Hi. apply (Permutation_in _ Hperm) in Hi.
    assert (HiP : In i P) by (rewrite HPsplit; apply in_or_app; right; exact Hi).
    apply (Permutation_in _ HP) in HiP. apply in_seq in HiP. lia. }
  split; [exact Hdesc|].
  split.
  { intros i j Hi Hj Hnot. apply Htop.
    - apply (Permutation_in _ Hperm). exact Hi.
    - exact Hj.
    - intro Hc. apply Hnot.
      apply (Permutation_in _ (Permutation_sym Hperm)). exact Hc. }
  (* the brute-force sort *)
  set (R := sort_desc (take s rest)).
  assert (HdescL : descending (take s i_sort ++ R)).
  { apply StronglySorted_app; [exact Hdesc | apply sort_desc_descending|].
    intros x y Hx Hy. unfold take in Hx. apply in_map_iff in Hx.
    destruct Hx as (i & <- & Hi).
    apply (Permutation_in _ (sort_desc_perm _)) in Hy.
    unfold take in Hy. apply in_map_iff in Hy. destruct Hy as (j & <- & Hj).
    assert (HjP : In j P) by (rewrite HPsplit; apply in_or_app; left; exact Hj).
    apply Htop.
    - apply (Permutation_in _ Hperm). exact Hi.
    - apply (Permutation_in _ HP) in HjP. apply in_seq in HjP. fold n in HjP. lia.
    - intro Hc. rewrite HPsplit in HndP.
      apply (NoDup_app_disjoint _ _ j HndP); assumption. }
  assert (HpermL : Permutation (take s i_sort ++ R) (sort_desc s)).
  { eapply Permutation_trans; [|apply Permutation_sym, sort_desc_perm].
    apply Permutation_trans with (take s i_part ++ take s rest).
    { apply Permutation_app; [apply Permutation_map; exact Hperm
                             | apply sort_desc_perm]. }
    apply Permutation_trans with (take s rest ++ take s i_part);
      [apply Permutation_app_comm|].
    rewrite <- take_app, <- HPsplit.
    apply Permutation_trans with (take s (seq 0 (length s)));
      [|rewrite take_seq; apply Permutation_refl].
    apply Permutation_map. exact HP. }
  assert (HF : Forall2 Qeq (take s i_sort ++ R) (sort_desc s)).
  { apply descending_unique; [exact HdescL | apply sort_desc_descending|].
    intro x. apply count_ge_perm. exact HpermL. }
  apply (Forall2_firstn _ m) in HF.
  rewrite firstn_app in HF.
  assert (Hl : length (take s i_sort) = m)
    by (unfold take, i_sort, gather; rewrite !length_map; exact HlenA).
  rewrite Hl, Nat.sub_diag, firstn_O, app_nil_r in HF.
  rewrite firstn_all2 in HF by lia. exact HF.
Qed.

End TopSorted.

(** ** The score vector *)

Lemma length_sum_rows sim inds : length (sum_rows sim inds) = n_cols sim.
Proof. unfold sum_rows. rewrite length_map, length_seq. reflexivity. Qed.

Lemma length_zero_at inds s : length (zero_at inds s) = length s.
Proof.
  unfold zero_at. rewrite length_map, length_combine, length_seq.
  apply Nat.min_id.
Qed.

Lemma nth_sum_rows sim inds j :
  (j < n_cols sim)%nat ->
  nth j (sum_rows sim inds) 0 = sumQ (map (fun i => get sim i j) inds).
Proof.
  intro Hj. unfold sum_rows.
  rewrite (nth_indep _ 0
             ((fun j => sumQ (map (fun i => get sim i j) inds)) O))
    by (rewrite length_map, length_seq; exact Hj).
  rewrite (map_nth (fun j => sumQ (map (fun i => get sim i j) inds))).
  rewrite seq_nth by exact Hj. reflexivity.
Qed.

Lemma nth_zero_at inds s j :
  (j < length s)%nat ->
  nth j (zero_at inds s) 0
  = if existsb (Nat.eqb j) inds then nth j s 0 * 0 else nth j s 0.
Proof.
  intro Hj. unfold zero_at.
  set (g := fun jv : nat * Q =>
              if existsb (Nat.eqb (fst jv)) inds then snd jv * 0 else snd jv).
  rewrite (nth_indep _ 0 (g (O, 0)))
    by (rewrite length_map, length_combine, length_seq, Nat.min_id; exact Hj).
  rewrite (map_nth g).
  rewrite combine_nth by (rewrite length_seq; reflexivity).
  rewrite seq_nth by exact Hj. reflexivity.
Qed.

(** C1 (as the code has it).  For seed indices within the matrix the
    ranking succeeds; it ranks the score vector that holds, for each column,
    the sum of the seed rows and, under [remove_self] (the default), zero at
    the seed positions; and what it returns is a top-[k] of that vector:
    [min(k, number of columns)] distinct indices with their scores, in
    descending order, none left out that scores more, the scores equal to the
    first ones of the brute-force descending sort. *)
Theorem recommend_for_item_inds_top_k argpartition argsort sim item_inds k
    remove_self :
  argpartition_spec argpartition ->
  argsort_spec argsort ->
  all_below (n_rows sim) item_inds = true ->
  (remove_self = true -> all_below (n_cols sim) item_inds = true) ->
  let scores :=
    if remove_self then zero_at item_inds (sum_rows sim item_inds)
    else sum_rows sim item_inds in
  length scores = n_cols sim /\
  (forall j, (j < n_cols sim)%nat ->
     nth j scores 0 ==
     if remove_self && existsb (Nat.eqb j) item_inds then 0
     else sumQ (map (fun i => get sim i j) item_inds)) /\
  exists out,
    recommend_for_item_inds argpartition argsort sim item_inds k remove_self
      = Ok out /\
    is_top_k scores k out.
Proof.
  intros Hp Hs Hrows Hcols. cbv zeta.
  split; [|split].
  - destruct remove_self; [rewrite length_zero_at|]; apply length_sum_rows.
  - intros j Hj. destruct remove_self; simpl.
    + rewrite nth_zero_at by (rewrite length_sum_rows; exact Hj).
      rewrite nth_sum_rows by exact Hj.
      destruct (existsb (Nat.eqb j) item_inds); [ring | reflexivity].
    + rewrite nth_sum_rows by exact Hj. reflexivity.
  - unfold recommend_for_item_inds, scores_for. rewrite Hrows. simpl.
    destruct remove_self.
    + rewrite length_sum_rows, (Hcols eq_refl). simpl.
      eexists. split; [reflexivity|].
      apply top_sorted_is_top_k; assumption.
    + simpl. eexists. split; [reflexivity|].
      apply top_sorted_is_top_k; assumption.
Qed.

Lemma recommend_for_item_inds_top_k_witness :
  exists out,
    recommend_for_item_inds argpartition_ins argsort_ins sim_pair
      [0%nat; 1%nat] 2 true = Ok out /\
    is_top_k (zero_at [0%nat; 1%nat] (sum_rows sim_pair [0%nat; 1%nat])) 2 out.
Proof.
  destruct (recommend_for_item_inds_top_k argpartition_ins argsort_ins
              sim_pair [0%nat; 1%nat] 2 true
              argpartition_ins_spec argsort_ins_spec)
    as (_ & _ & H).
  - reflexivity.
  - intros _. reflexivity.
  - exact H.
Defined.

(** C1, the statement of the specification refuted: with both items of
    [sim_pair] as seeds (and the default [remove_self]) the column sums are
    1 and 1, the scores returned 0 and 0. *)
Lemma ranking_not_on_column_sums :
  ~ ranking_on_column_sums argpartition_ins argsort_ins sim_pair
      [0%nat; 1%nat] 2 true.
Proof.
  unfold ranking_on_column_sums. intro H.
  specialize (H _ eq_refl).
  destruct H as (_ & _ & Hscores & _).
  vm_compute in Hscores. discriminate.
Qed.

(** ** Two worked examples *)

(** The example of the specification: the first-degree co-occurrence of
    [obs_spec_example] with ["ones"] has the value 1 at (0,1), (1,0), (1,2),
    (2,1), (2,3), (3,2), zero elsewhere, and a zero diagonal. *)
Example spec_example_cooccurrence :
  exists b,
    snd (interactions_mat_to_cooccurrence_mat log10_unused choice_unused
           obs_spec_example params_plain) = Ok b /\
    map (fun i => map (fun j => Qred (get b i j)) (seq 0 4)) (seq 0 4)
    = [[0; 1; 0; 0]; [1; 0; 1; 0]; [0; 1; 0; 1]; [0; 0; 1; 0]].
Proof.
  eexists. split; vm_compute; reflexivity.
Qed.

(** Without the symmetrisation the user-mode similarity need not be
    symmetric: on [obs_users] user 1 is 1 for user 0 and user 0 is 1/2 for
    user 1. *)
Example UserCooc_similarity_not_symmetric :
  exists s,
    similarity_mat
      (fst (UserCoocRecommender_fit log10_unused choice_unused obs_users
              (fun p => p) (init params_default))) = Some s /\
    get s 0 1 == 1 /\ get s 1 0 == 1 # 2.
Proof.
  eexists. split; [vm_compute; reflexivity|].
  split; vm_compute; reflexivity.
Qed.

(** * Further properties of the code *)

(** ** Pruning with a ratio *)

Lemma prune_mat_eq choice m ratio cutoff :
  prune_mat choice m ratio cutoff =
  if prune_is_noop m ratio cutoff then Ok m
  else
    t <- prune_threshold choice m ratio cutoff ;;
    Ok (mkSp (n_rows m) (n_cols m) (filter (kept_by_cutoff t) (stored m))).
Proof.
  unfold prune_mat, prune_is_noop, prune_threshold.
  destruct (_ || _); [reflexivity|].
  destruct (Qlt_bool 0 ratio).
  - destruct (percentile _ _) as [x|e]; [|reflexivity].
    cbn [bind]. unfold eliminate_zeros, map_data. cbn [stored n_rows n_cols].
    rewrite prune_stored_filter. reflexivity.
  - cbn [bind]. unfold eliminate_zeros, map_data. cbn [stored n_rows n_cols].
    rewrite prune_stored_filter. reflexivity.
Qed.

Lemma py_max_ge a b : a <= py_max a b.
Proof.
  unfold py_max. destruct (Qlt_bool a b) eqn:E.
  - apply Qlt_le_weak. apply Qlt_bool_iff. exact E.
  - apply Qle_refl.
Qed.

Lemma prune_threshold_ge choice m ratio cutoff t :
  prune_threshold choice m ratio cutoff = Ok t -> cutoff <= t.
Proof.
  unfold prune_threshold. destruct (Qlt_bool 0 ratio).
  - destruct (percentile _ _) as [x|e]; cbn [bind]; [|discriminate].
    intro H. inversion H; subst. apply py_max_ge.
  - intro H. inversion H; subst. apply Qle_refl.
Qed.

Lemma py_int_nonneg x : 0 < x -> (0 <= py_int x)%Z.
Proof.
  intro H. unfold py_int. apply Z.quot_pos; [|apply Pos2Z.is_pos].
  unfold Qlt in H. simpl in H. lia.
Qed.

Lemma prune_is_noop_false m ratio cutoff :
  prune_is_noop m ratio cutoff = false <->
  ~ (ratio == 0 /\ cutoff == 0) /\ data m <> [].
Proof.
  unfold prune_is_noop. rewrite orb_false_iff, andb_false_iff.
  rewrite !Qeq_bool_false. split.
  - intros [H1 H2]. split; [tauto|].
    intro E. apply data_nil_length in E. congruence.
  - intros [H1 H2]. split.
    + destruct (Qeq_bool ratio 0) eqn:E1.
      * right. intro Hc. apply H1. split; [apply Qeq_bool_iff; exact E1 | exact Hc].
      * left. apply Qeq_bool_false. exact E1.
    + destruct (length (data m) =? 0)%nat eqn:E; [|reflexivity].
      apply data_nil_length in E. contradiction.
Qed.

(** X1.  [prune_mat] fails in one case only: a positive [ratio] on a
    matrix with stored values when [int(100 * ratio)] exceeds 100, and then
    with numpy's range error of [np.percentile]. *)
Theorem prune_mat_raises_iff choice m ratio cutoff e :
  prune_mat choice m ratio cutoff = Raise e <->
  e = ValueError_percentile_range /\ 0 < ratio /\ data m <> [] /\
  (100 < py_int (100 * ratio))%Z.
Proof.
  rewrite prune_mat_eq. split.
  - destruct (prune_is_noop m ratio cutoff) eqn:En; [discriminate|].
    apply prune_is_noop_false in En. destruct En as [_ Hne].
    unfold prune_threshold.
    destruct (Qlt_bool 0 ratio) eqn:Er; [|discriminate].
    apply Qlt_bool_iff in Er.
    unfold percentile.
    destruct ((py_int (100 * ratio) <? 0) || (100 <? py_int (100 * ratio)))%Z
      eqn:Eq; cbn [bind]; [|discriminate].
    intro H. inversion H; subst.
    repeat split; try assumption.
    apply orb_true_iff in Eq. destruct Eq as [Eq | Eq].
    + apply Z.ltb_lt in Eq.
      assert (0 <= py_int (100 * ratio))%Z by (apply py_int_nonneg; lra). lia.
    + apply Z.ltb_lt. exact Eq.
  - intros (-> & Hr & Hne & Hq).
    assert (En : prune_is_noop m ratio cutoff = false).
    { apply prune_is_noop_false. split; [|exact Hne].
      intros [Hz _]. rewrite Hz in Hr. apply (Qlt_irrefl 0). exact Hr. }
    rewrite En. unfold prune_threshold.
    apply Qlt_bool_iff in Hr. rewrite Hr. unfold percentile.
    apply Z.ltb_lt in Hq. rewrite Hq, orb_true_r. reflexivity.
Qed.

Lemma prune_mat_raises_iff_witness :
  prune_mat choice_unused (mkSp 1 2 [mkEntry 0 1 3]) (3 # 2) 0
  = Raise ValueError_percentile_range.
Proof.
  apply (prune_mat_raises_iff choice_unused (mkSp 1 2 [mkEntry 0 1 3])
           (3 # 2) 0 ValueError_percentile_range).
  repeat split.
  - simpl. discriminate.
Defined.

(** X2.  Whatever the ratio, a successful [prune_mat] keeps the shape,
    stores only entries the input stored, with their values, and, unless
    both [ratio] and [cutoff] are zero, every value it keeps is at least
    [cutoff] and not zero. *)
Theorem prune_mat_keeps_only_large choice m ratio cutoff m' :
  prune_mat choice m ratio cutoff = Ok m' ->
  same_shape m' m /\
  (forall e, In e (stored m') -> In e (stored m)) /\
  (~ (ratio == 0 /\ cutoff == 0) ->
   forall e, In e (stored m') -> cutoff <= e_val e /\ ~ e_val e == 0).
Proof.
  intro H. split; [eapply prune_mat_shape; exact H|].
  rewrite prune_mat_eq in H.
  destruct (prune_is_noop m ratio cutoff) eqn:En.
  - inversion H; subst m'. split; [tauto|].
    intros Hnz e He. exfalso.
    unfold prune_is_noop in En. apply orb_true_iff in En.
    destruct En as [En | En].
    + apply andb_true_iff in En. rewrite !Qeq_bool_iff in En. tauto.
    + apply data_nil_length in En. unfold data in En.
      destruct (stored m); [destruct He | discriminate].
  - destruct (prune_threshold choice m ratio cutoff) as [t|e'] eqn:Et;
      cbn [bind] in H; [|discriminate].
    inversion H; subst m'. cbn [stored].
    split.
    + intros e He. apply filter_In in He. tauto.
    + intros _ e He. apply filter_In in He. destruct He as [_ Hk].
      unfold kept_by_cutoff in Hk. apply andb_true_iff in Hk.
      destruct Hk as [Hle Hnz]. apply Qle_bool_iff in Hle.
      apply negb_true_iff in Hnz. apply Qeq_bool_false in Hnz.
      split; [|exact Hnz].
      eapply Qle_trans; [eapply prune_threshold_ge; exact Et | exact Hle].
Qed.

Lemma prune_mat_keeps_only_large_witness :
  exists m',
    prune_mat choice_unused
      (mkSp 2 2 [mkEntry 0 1 1; mkEntry 1 0 2; mkEntry 1 1 4]) (1 # 2) 0
    = Ok m' /\
    forall e, In e (stored m') -> 0 <= e_val e /\ ~ e_val e == 0.
Proof.
  destruct (prune_mat choice_unused
              (mkSp 2 2 [mkEntry 0 1 1; mkEntry 1 0 2; mkEntry 1 1 4])
              (1 # 2) 0) as [m'|e] eqn:E; [|vm_compute in E; discriminate].
  exists m'. split; [reflexivity|].
  destruct (prune_mat_keeps_only_large _ _ _ _ _ E) as (_ & _ & H).
  apply H. intros [Hr _]. vm_compute in Hr. discriminate.
Defined.

Lemma filter_idem {A : Type} (f : A -> bool) l :
  filter f (filter f l) = filter f l.
Proof.
  induction l as [|x l IH]; simpl; [reflexivity|].
  destruct (f x) eqn:E; simpl; [rewrite E, IH; reflexivity | exact IH].
Qed.

(** X3.  Without a ratio, pruning twice with the same cutoff is pruning
    once: the second call returns the matrix it is given. *)
Theorem prune_mat_cutoff_idempotent choice m ratio cutoff m' :
  ratio <= 0 ->
  prune_mat choice m ratio cutoff = Ok m' ->
  prune_mat choice m' ratio cutoff = Ok m'.
Proof.
  intros Hr H.
  assert (Et : forall x, prune_threshold choice x ratio cutoff = Ok cutoff).
  { intro x. unfold prune_threshold.
    apply Qlt_bool_false in Hr. rewrite Hr. reflexivity. }
  rewrite prune_mat_eq, Et in H. cbn [bind] in H.
  destruct (prune_is_noop m ratio cutoff) eqn:En.
  - inversion H; subst m'. rewrite prune_mat_eq, En. reflexivity.
  - inversion H; subst m'. clear H.
    rewrite prune_mat_eq, Et. cbn [bind]. clear En.
    match goal with
    | |- (if ?b then _ else _) = _ => destruct b; [reflexivity|]
    end.
    cbn [stored n_rows n_cols]. rewrite filter_idem. reflexivity.
Qed.

Lemma prune_mat_cutoff_idempotent_witness :
  exists m',
    prune_mat choice_unused
      (mkSp 2 2 [mkEntry 0 1 3; mkEntry 1 0 1; mkEntry 1 1 0]) 0 2 = Ok m' /\
    prune_mat choice_unused m' 0 2 = Ok m'.
Proof.
  destruct (prune_mat choice_unused
              (mkSp 2 2 [mkEntry 0 1 3; mkEntry 1 0 1; mkEntry 1 1 0]) 0 2)
    as [m'|e] eqn:E; [|vm_compute in E; discriminate].
  exists m'. split; [reflexivity|].
  apply (prune_mat_cutoff_idempotent choice_unused
           (mkSp 2 2 [mkEntry 0 1 3; mkEntry 1 0 1; mkEntry 1 1 0]) 0 2 m').
  - apply Qle_refl.
  - exact E.
Defined.

Lemma prune_threshold_choice c1 c2 m ratio cutoff :
  ratio <= 0 \/ (Z.of_nat (length (data m)) <= 50000)%Z ->
  prune_threshold c1 m ratio cutoff = prune_threshold c2 m ratio cutoff.
Proof.
  intro H. unfold prune_threshold.
  destruct (Qlt_bool 0 ratio) eqn:Er; [|reflexivity].
  destruct H as [H | H].
  - apply Qlt_bool_iff in Er. exfalso. apply (Qlt_not_le _ _ Er H).
  - assert (E : (50000 <? Z.of_nat (length (data m)))%Z = false)
      by (apply Z.ltb_ge; exact H).
    rewrite E. reflexivity.
Qed.

Lemma prune_mat_choice c1 c2 m ratio cutoff :
  ratio <= 0 \/ (Z.of_nat (length (data m)) <= 50000)%Z ->
  prune_mat c1 m ratio cutoff = prune_mat c2 m ratio cutoff.
Proof.
  intro H. rewrite !prune_mat_eq.
  rewrite (prune_threshold_choice c1 c2) by exact H. reflexivity.
Qed.

Lemma builder_choice log10 c1 c2 obs p :
  (degree p <= 1)%Z \/ prune_ratio p <= 0 ->
  interactions_mat_to_cooccurrence_mat log10 c1 obs p
  = interactions_mat_to_cooccurrence_mat log10 c2 obs p.
Proof.
  intro H.
  assert (Hfd : first_degree_cooccurrence log10 c1 (trans_func p) obs
                  (base_min_cooccurrence p)
                = first_degree_cooccurrence log10 c2 (trans_func p) obs
                    (base_min_cooccurrence p)).
  { unfold first_degree_cooccurrence.
    destruct (if String.eqb (trans_func p) "ones" then _ else _);
      [|reflexivity].
    rewrite (prune_mat_choice c1 c2) by (left; apply Qle_refl).
    reflexivity. }
  unfold interactions_mat_to_cooccurrence_mat. rewrite Hfd.
  destruct (first_degree_cooccurrence log10 c2 _ _ _) as [obs' [base|e]];
    [|reflexivity].
  cbn [bind].
  destruct (1 <? degree p)%Z eqn:Ed; [|reflexivity].
  destruct H as [H | H]; [apply Z.ltb_lt in Ed; lia|].
  unfold higher_degree, higher_deg_expanded.
  rewrite (prune_mat_choice c1 c2) by (left; exact H).
  reflexivity.
Qed.

(** X4.  The random draw of [prune_mat] is reached only with a positive
    ratio on more than 50000 stored values: otherwise the result does not
    depend on [np.random.choice]. *)
Theorem prune_mat_deterministic_when_small c1 c2 m ratio cutoff :
  ratio <= 0 \/ (Z.of_nat (length (data m)) <= 50000)%Z ->
  prune_mat c1 m ratio cutoff = prune_mat c2 m ratio cutoff.
Proof. apply prune_mat_choice. Qed.

Lemma prune_mat_deterministic_when_small_witness :
  prune_mat choice_unused
    (mkSp 2 2 [mkEntry 0 1 1; mkEntry 1 0 2; mkEntry 1 1 4]) (1 # 2) 0
  = prune_mat (fun _ _ => [])
      (mkSp 2 2 [mkEntry 0 1 1; mkEntry 1 0 2; mkEntry 1 1 4]) (1 # 2) 0.
Proof.
  apply (prune_mat_deterministic_when_small choice_unused (fun _ _ => [])).
  right. simpl. lia.
Defined.

(** X5.  The builder reaches the random draw only through the expansion:
    with [degree <= 1], or with [prune_ratio <= 0], its result and its
    effect on the argument do not depend on [np.random.choice]. *)
Theorem builder_deterministic log10 c1 c2 obs p :
  (degree p <= 1)%Z \/ prune_ratio p <= 0 ->
  interactions_mat_to_cooccurrence_mat log10 c1 obs p
  = interactions_mat_to_cooccurrence_mat log10 c2 obs p.
Proof. apply builder_choice. Qed.

Lemma builder_deterministic_witness :
  interactions_mat_to_cooccurrence_mat log10_unused choice_unused obs_chain
    params_degree2
  = interactions_mat_to_cooccurrence_mat log10_unused (fun _ _ => [])
      obs_chain params_degree2.
Proof.
  apply (builder_deterministic log10_unused choice_unused (fun _ _ => [])
           obs_chain params_degree2).
  right. apply Qle_refl.
Defined.

(** ** The diagonal of the co-occurrence matrix *)

Lemma prune_mat_sub choice m ratio cutoff m' :
  prune_mat choice m ratio cutoff = Ok m' ->
  forall e, In e (stored m') -> In e (stored m).
Proof.
  rewrite prune_mat_eq.
  destruct (prune_is_noop m ratio cutoff).
  - intro H; inversion H; subst. tauto.
  - destruct (prune_threshold choice m ratio cutoff); cbn [bind];
      [|discriminate].
    intro H; inversion H; subst. cbn [stored].
    intros e He. apply filter_In in He. tauto.
Qed.

Lemma diag_zero_get m i : diag_stored_zero m -> get m i i == 0.
Proof.
  intro H. unfold get. apply sumQ_all_zero. intros v Hv.
  apply in_map_iff in Hv. destruct Hv as (e & <- & He).
  apply filter_In in He. destruct He as [He Hp].
  unfold at_pos in Hp. apply andb_true_iff in Hp.
  rewrite !Nat.eqb_eq in Hp. apply H; [exact He | lia].
Qed.

Lemma diag_zero_setdiag0 m : diag_stored_zero (setdiag0 m).
Proof.
  unfold diag_stored_zero, setdiag0. cbn [stored]. intros e He Hd.
  apply in_app_or in He. destruct He as [He | He].
  - apply filter_In in He. destruct He as [_ Hn].
    apply negb_true_iff in Hn. apply Nat.eqb_neq in Hn. contradiction.
  - apply in_map_iff in He. destruct He as (k & <- & _). reflexivity.
Qed.

Lemma diag_zero_sub m m' :
  (forall e, In e (stored m') -> In e (stored m)) ->
  diag_stored_zero m -> diag_stored_zero m'.
Proof. intros Hs H e He. apply H. apply Hs. exact He. Qed.

Lemma diag_zero_map_data f m :
  (forall v, v == 0 -> f v == 0) ->
  diag_stored_zero m -> diag_stored_zero (map_data f m).
Proof.
  intros Hf H e He Hd. unfold map_data in He. cbn [stored] in He.
  apply in_map_iff in He. destruct He as (e0 & <- & He0).
  cbn [set_val e_val e_row e_col] in *. apply Hf. apply H; assumption.
Qed.

Lemma in_from_fun r c f e :
  In e (stored (from_fun r c f)) ->
  e_val e = f (e_row e) (e_col e) /\ ~ f (e_row e) (e_col e) == 0 /\
  (e_row e < r)%nat /\ (e_col e < c)%nat.
Proof.
  unfold from_fun. cbn [stored]. intro He.
  apply in_flat_map in He. destruct He as (i & Hi & He).
  apply in_flat_map in He. destruct He as (j & Hj & He).
  apply in_seq in Hi. apply in_seq in Hj.
  destruct (Qeq_bool (f i j) 0) eqn:E; [destruct He|].
  destruct He as [<- | []]. cbn [e_val e_row e_col].
  apply Qeq_bool_false in E. repeat split; try assumption; lia.
Qed.

Lemma diag_zero_from_fun r c f :
  (forall i, f i i == 0) -> diag_stored_zero (from_fun r c f).
Proof.
  intros Hf e He Hd. apply in_from_fun in He.
  destruct He as (_ & Hnz & _). exfalso. apply Hnz. rewrite <- Hd. apply Hf.
Qed.

Lemma diag_zero_add a b :
  diag_stored_zero a -> diag_stored_zero b -> diag_stored_zero (add a b).
Proof.
  intros Ha Hb. apply diag_zero_from_fun. intro i.
  rewrite (diag_zero_get a i Ha), (diag_zero_get b i Hb). ring.
Qed.

Lemma diag_zero_normalize m :
  diag_stored_zero m -> diag_stored_zero (normalize_l1 m).
Proof.
  intros H e He Hd. unfold normalize_l1 in He. cbn [stored] in He.
  apply in_map_iff in He. destruct He as (e0 & <- & He0).
  destruct (Qeq_bool (row_abs_sum m (e_row e0)) 0).
  - apply H; assumption.
  - cbn [set_val e_val e_row e_col] in *.
    rewrite (H e0 He0 Hd). unfold Qdiv. ring.
Qed.

Lemma diag_zero_expand_loop dec i n hd :
  diag_stored_zero hd -> diag_stored_zero (expand_loop dec i n hd).
Proof.
  revert i hd. induction n as [|n IH]; intros i hd H; simpl; [exact H|].
  apply IH. apply diag_zero_setdiag0.
Qed.

Lemma diag_zero_first_degree log10 choice tf mat mc b :
  snd (first_degree_cooccurrence log10 choice tf mat mc) = Ok b ->
  diag_stored_zero b.
Proof.
  unfold first_degree_cooccurrence.
  destruct (if String.eqb tf "ones" then _ else _) as [mat'|e];
    cbn [snd]; [|discriminate].
  destruct (Qlt_bool 1 mc).
  - intro H. eapply diag_zero_sub;
      [eapply prune_mat_sub; exact H | apply diag_zero_setdiag0].
  - intro H; inversion H; subst. apply diag_zero_setdiag0.
Qed.

Lemma diag_zero_builder log10 choice obs p r :
  snd (interactions_mat_to_cooccurrence_mat log10 choice obs p) = Ok r ->
  diag_stored_zero r.
Proof.
  unfold interactions_mat_to_cooccurrence_mat.
  pose proof (diag_zero_first_degree log10 choice (trans_func p) obs
                (base_min_cooccurrence p)) as Hfd.
  destruct (first_degree_cooccurrence _ _ _ _ _) as [obs' [base|e]];
    cbn [snd bind] in *; [|discriminate].
  pose proof (Hfd base eq_refl) as Hbase.
  assert (Hfin : forall m, diag_stored_zero m ->
            (if normalize_items p then normalize m else Ok m) = Ok r ->
            diag_stored_zero r).
  { intros m Hm H. apply normalize_step_ok in H. inversion H; subst.
    destruct (normalize_items p); [apply diag_zero_normalize|]; exact Hm. }
  destruct (1 <? degree p)%Z; cbn [bind]; [|apply Hfin; exact Hbase].
  unfold higher_degree, higher_deg_expanded.
  destruct (prune_mat choice base (prune_ratio p) (min_cooccurrence p))
    as [hd|e] eqn:Ep; cbn [bind]; [|discriminate].
  apply Hfin. apply diag_zero_add; [exact Hbase|].
  unfold rescale. apply diag_zero_map_data.
  { intros v Hv. rewrite Hv. ring. }
  apply diag_zero_expand_loop.
  eapply diag_zero_sub; [eapply prune_mat_sub; exact Ep | exact Hbase].
Qed.



(** ** Entries per position *)

Lemma filter_flat_map {A B : Type} (p : B -> bool) (g : A -> list B) l :
  filter p (flat_map g l) = flat_map (fun x => filter p (g x)) l.
Proof.
  induction l as [|x l IH]; simpl; [reflexivity|].
  rewrite filter_app, IH. reflexivity.
Qed.

Lemma flat_map_indicator {B : Type} (k : nat) (g : list B) a n :
  flat_map (fun x => if (x =? k)%nat then g else []) (seq a n)
  = if ((a <=? k) && (k <? a + n))%nat then g else [].
Proof.
  revert a. induction n as [|n IH]; intro a; simpl.
  - destruct (a <=? k)%nat eqn:E1; simpl; [|reflexivity].
    destruct (k <? a + 0)%nat eqn:E2; [|reflexivity].
    apply Nat.leb_le in E1. apply Nat.ltb_lt in E2. lia.
  - rewrite IH.
    destruct (a =? k)%nat eqn:E.
    + apply Nat.eqb_eq in E. subst a.
      replace (S k <=? k)%nat with false by (symmetry; apply Nat.leb_gt; lia).
      replace (k <=? k)%nat with true by (symmetry; apply Nat.leb_le; lia).
      replace (k <? k + S n)%nat with true by (symmetry; apply Nat.ltb_lt; lia).
      simpl. apply app_nil_r.
    + apply Nat.eqb_neq in E.
      destruct (S a <=? k)%nat eqn:E1.
      * apply Nat.leb_le in E1.
        replace (a <=? k)%nat with true by (symmetry; apply Nat.leb_le; lia).
        replace (k <? a + S n)%nat with (k <? S a + n)%nat
          by (f_equal; lia).
        reflexivity.
      * apply Nat.leb_gt in E1.
        replace (a <=? k)%nat with false by (symmetry; apply Nat.leb_gt; lia).
        reflexivity.
Qed.

Lemma entries_from_fun r c f i j :
  filter (at_pos i j) (stored (from_fun r c f))
  = if ((i <? r) && (j <? c))%nat && negb (Qeq_bool (f i j) 0)
    then [mkEntry i j (f i j)] else [].
Proof.
  unfold from_fun. cbn [stored]. rewrite filter_flat_map.
  rewrite (flat_map_ext _
             (fun i' => if (i' =? i)%nat
                        then (if (j <? c)%nat && negb (Qeq_bool (f i j) 0)
                              then [mkEntry i j (f i j)] else [])
                        else [])).
  - rewrite flat_map_indicator. simpl.
    destruct (i <? r)%nat; reflexivity.
  - intro i'. rewrite filter_flat_map.
    destruct (i' =? i)%nat eqn:Ei.
    + apply Nat.eqb_eq in Ei. subst i'.
      rewrite (flat_map_ext _
                 (fun j' => if (j' =? j)%nat
                            then (if negb (Qeq_bool (f i j) 0)
                                  then [mkEntry i j (f i j)] else [])
                            else [])).
      * rewrite flat_map_indicator. simpl.
        destruct (j <? c)%nat; reflexivity.
      * intro j'. destruct (Qeq_bool (f i j') 0) eqn:Ez.
        -- simpl. destruct (j' =? j)%nat eqn:Ej; [|reflexivity].
           apply Nat.eqb_eq in Ej. subst j'. rewrite Ez. reflexivity.
        -- simpl. unfold at_pos. cbn [e_row e_col]. rewrite Nat.eqb_refl.
           simpl. destruct (j' =? j)%nat eqn:Ej; [|reflexivity].
           apply Nat.eqb_eq in Ej. subst j'. rewrite Ez. reflexivity.
    + rewrite (flat_map_ext _ (fun _ => [])).
      * induction (seq 0 c); simpl; auto.
      * intro j'. destruct (Qeq_bool (f i' j') 0); simpl; [reflexivity|].
        unfold at_pos. cbn [e_row e_col]. rewrite Ei. reflexivity.
Qed.

Lemma single_valued_from_fun r c f : single_valued (from_fun r c f).
Proof.
  intros i j. rewrite entries_from_fun.
  destruct (_ && _); simpl; lia.
Qed.

Lemma filter_swap {A : Type} (f g : A -> bool) l :
  filter f (filter g l) = filter g (filter f l).
Proof.
  induction l as [|x l IH]; simpl; [reflexivity|].
  destruct (f x) eqn:Ef, (g x) eqn:Eg; simpl;
    rewrite ?Ef, ?Eg, IH; reflexivity.
Qed.

Lemma filter_length_le' {A : Type} (f : A -> bool) l :
  (length (filter f l) <= length l)%nat.
Proof.
  induction l as [|x l IH]; simpl; [lia|].
  destruct (f x); simpl; lia.
Qed.

Lemma single_valued_filter m (g : entry -> bool) :
  single_valued m ->
  single_valued (mkSp (n_rows m) (n_cols m) (filter g (stored m))).
Proof.
  intros H i j. cbn [stored]. rewrite filter_swap.
  eapply Nat.le_trans; [apply filter_length_le' | apply H].
Qed.

Lemma entries_map_data f m i j :
  filter (at_pos i j) (stored (map_data f m))
  = map (set_val f) (filter (at_pos i j) (stored m)).
Proof.
  unfold map_data. cbn [stored].
  induction (stored m) as [|e l IH]; simpl; [reflexivity|].
  change (at_pos i j (set_val f e)) with (at_pos i j e).
  destruct (at_pos i j e); simpl; rewrite IH; reflexivity.
Qed.

Lemma single_valued_map_data f m :
  single_valued m -> single_valued (map_data f m).
Proof.
  intros H i j. rewrite entries_map_data, length_map. apply H.
Qed.

Lemma map_as_flat_map {A B : Type} (f : A -> B) l :
  map f l = flat_map (fun x => [f x]) l.
Proof. induction l as [|x l IH]; simpl; [|rewrite IH]; reflexivity. Qed.

Lemma entries_diag_zeros n i j :
  filter (at_pos i j) (map (fun k => mkEntry k k 0) (seq 0 n))
  = if ((i =? j) && (i <? n))%nat then [mkEntry i i 0] else [].
Proof.
  rewrite map_as_flat_map, filter_flat_map.
  rewrite (flat_map_ext _
             (fun k => if (k =? i)%nat
                       then (if (i =? j)%nat then [mkEntry i i 0] else [])
                       else [])).
  - rewrite flat_map_indicator. simpl.
    destruct (i =? j)%nat, (i <? n)%nat; reflexivity.
  - intro k. simpl. unfold at_pos. cbn [e_row e_col].
    destruct (k =? i)%nat eqn:Ek; simpl; [|reflexivity].
    apply Nat.eqb_eq in Ek. subst k. destruct (i =? j)%nat; reflexivity.
Qed.

Lemma entries_setdiag0 m i j :
  filter (at_pos i j) (stored (setdiag0 m))
  = if (i =? j)%nat
    then (if (i <? Nat.min (n_rows m) (n_cols m))%nat
          then [mkEntry i i 0] else [])
    else filter (at_pos i j) (stored m).
Proof.
  unfold setdiag0. cbn [stored]. rewrite filter_app, entries_diag_zeros.
  destruct (i =? j)%nat eqn:E; simpl.
  - apply Nat.eqb_eq in E. subst j.
    assert (Hnil : filter (at_pos i i)
                     (filter (fun e => negb (e_row e =? e_col e)%nat) (stored m))
                   = []).
    { induction (stored m) as [|e l IH]; simpl; [reflexivity|].
      destruct (e_row e =? e_col e)%nat eqn:Ed; simpl; [exact IH|].
      unfold at_pos at 1.
      destruct (e_row e =? i)%nat eqn:E1, (e_col e =? i)%nat eqn:E2; simpl;
        try exact IH.
      apply Nat.eqb_eq in E1. apply Nat.eqb_eq in E2.
      apply Nat.eqb_neq in Ed. lia. }
    rewrite Hnil. reflexivity.
  - rewrite app_nil_r. rewrite filter_swap.
    induction (stored m) as [|e l IH]; simpl; [reflexivity|].
    destruct (at_pos i j e) eqn:Ep; simpl; [|exact IH].
    unfold at_pos in Ep. apply andb_true_iff in Ep.
    rewrite !Nat.eqb_eq in Ep. apply Nat.eqb_neq in E.
    assert (Ed : (e_row e =? e_col e)%nat = false)
      by (apply Nat.eqb_neq; lia).
    rewrite Ed. simpl. rewrite IH. reflexivity.
Qed.

Lemma single_valued_setdiag0 m : single_valued m -> single_valued (setdiag0 m).
Proof.
  intros H i j. rewrite entries_setdiag0.
  destruct (i =? j)%nat; [|apply H].
  destruct (i <? _)%nat; simpl; lia.
Qed.

Lemma get_setdiag0 m i j :
  get (setdiag0 m) i j == if (i =? j)%nat then 0 else get m i j.
Proof.
  unfold get. rewrite entries_setdiag0.
  destruct (i =? j)%nat; [|reflexivity].
  destruct (i <? _)%nat; simpl; [ring | reflexivity].
Qed.

(** ** Symmetry of the co-occurrence matrix *)

Lemma get_filter_kept m t i j :
  single_valued m ->
  get (mkSp (n_rows m) (n_cols m) (filter (kept_by_cutoff t) (stored m))) i j
  == if Qle_bool t (get m i j) then get m i j else 0.
Proof.
  intro H. unfold get. cbn [stored]. rewrite filter_swap.
  specialize (H i j).
  destruct (filter (at_pos i j) (stored m)) as [|e [|e' l]]; simpl in *.
  - destruct (Qle_bool t 0); reflexivity.
  - assert (Ev : e_val e + 0 == e_val e) by ring.
    rewrite (Qleb_comp t t (Qeq_refl t) _ _ Ev).
    unfold kept_by_cutoff.
    destruct (Qle_bool t (e_val e)); simpl; [|reflexivity].
    destruct (Qeq_bool (e_val e) 0) eqn:Ez; simpl; [|reflexivity].
    apply Qeq_bool_iff in Ez. rewrite Ez. ring.
  - lia.
Qed.

Lemma symmetric_filter_kept m t :
  single_valued m -> symmetric_values m ->
  symmetric_values
    (mkSp (n_rows m) (n_cols m) (filter (kept_by_cutoff t) (stored m))).
Proof.
  intros Hs Hsym i j. rewrite !get_filter_kept by exact Hs.
  rewrite (Qleb_comp t t (Qeq_refl t) _ _ (Hsym i j)).
  destruct (Qle_bool t (get m j i)); [apply Hsym | reflexivity].
Qed.

Lemma prune_mat_symmetric choice m ratio cutoff m' :
  single_valued m -> symmetric_values m ->
  prune_mat choice m ratio cutoff = Ok m' ->
  single_valued m' /\ symmetric_values m'.
Proof.
  intros Hs Hsym. rewrite prune_mat_eq.
  destruct (prune_is_noop m ratio cutoff).
  - intro H; inversion H; subst. split; assumption.
  - destruct (prune_threshold choice m ratio cutoff) as [t|e];
      cbn [bind]; [|discriminate].
    intro H; inversion H; subst. split.
    + apply single_valued_filter. exact Hs.
    + apply symmetric_filter_kept; assumption.
Qed.

Lemma get_map_data_scale c m i j :
  get (map_data (fun v => v * c) m) i j == get m i j * c.
Proof.
  unfold get. rewrite entries_map_data, map_map.
  cbn [set_val e_val].
  rewrite <- (map_map e_val (fun v => v * c)). apply sumQ_map_scale.
Qed.

Lemma get_scale c m i j : get (scale c m) i j == c * get m i j.
Proof.
  unfold scale, get. rewrite entries_map_data, map_map.
  cbn [set_val e_val].
  rewrite (sumQ_map_ext _ (fun e => e_val e * c)) by (intros; ring).
  rewrite <- (map_map e_val (fun v => v * c)), sumQ_map_scale. ring.
Qed.

Lemma symmetric_setdiag0 m : symmetric_values m -> symmetric_values (setdiag0 m).
Proof.
  intros H i j. rewrite !get_setdiag0. rewrite (Nat.eqb_sym j i).
  destruct (i =? j)%nat; [reflexivity | apply H].
Qed.

Lemma symmetric_add a b :
  n_rows a = n_cols a ->
  symmetric_values a -> symmetric_values b -> symmetric_values (add a b).
Proof.
  intros Hsq Ha Hb i j. unfold add. rewrite !get_from_fun, Hsq.
  rewrite (andb_comm (j <? n_cols a)%nat).
  destruct ((i <? n_cols a) && (j <? n_cols a))%nat; [|reflexivity].
  rewrite (Ha i j), (Hb i j). reflexivity.
Qed.

Lemma symmetric_gram m : symmetric_values (matmul (transpose m) m).
Proof.
  intros i j. unfold matmul. rewrite !get_from_fun.
  cbn [transpose n_rows n_cols].
  rewrite (andb_comm (j <? n_cols m)%nat).
  destruct ((i <? n_cols m) && (j <? n_cols m))%nat; [|reflexivity].
  apply sumQ_map_ext. intros k _. rewrite !get_transpose. ring.
Qed.

Lemma symmetric_scaled_square d hd :
  n_rows hd = n_cols hd -> symmetric_values hd ->
  symmetric_values (matmul (scale d hd) hd).
Proof.
  intros Hsq H i j. unfold matmul. rewrite !get_from_fun.
  change (n_rows (scale d hd)) with (n_rows hd).
  change (n_cols (scale d hd)) with (n_cols hd). rewrite Hsq.
  rewrite (andb_comm (j <? n_cols hd)%nat).
  destruct ((i <? n_cols hd) && (j <? n_cols hd))%nat; [|reflexivity].
  apply sumQ_map_ext. intros k _.
  rewrite !get_scale. rewrite (H i k), (H k j). ring.
Qed.

Lemma expand_loop_symmetric dec i n hd :
  n_rows hd = n_cols hd -> single_valued hd -> symmetric_values hd ->
  single_valued (expand_loop dec i n hd) /\
  symmetric_values (expand_loop dec i n hd).
Proof.
  revert i hd. induction n as [|n IH]; intros i hd Hsq Hs Hsym; simpl.
  - split; assumption.
  - apply IH.
    + exact Hsq.
    + apply single_valued_setdiag0. apply single_valued_from_fun.
    + apply symmetric_setdiag0. apply symmetric_add; [exact Hsq | exact Hsym|].
      apply symmetric_scaled_square; assumption.
Qed.

Lemma first_degree_eq log10 choice tf mat mc :
  valid_trans_func tf ->
  first_degree_cooccurrence log10 choice tf mat mc
  = (transform_data log10 tf mat,
     if Qlt_bool 1 mc
     then prune_mat choice
            (setdiag0 (matmul (transpose (transform_data log10 tf mat))
                              (transform_data log10 tf mat))) 0 mc
     else Ok (setdiag0 (matmul (transpose (transform_data log10 tf mat))
                               (transform_data log10 tf mat)))).
Proof.
  intro Hv. apply valid_trans_func_eqb in Hv.
  unfold first_degree_cooccurrence, transform_data.
  destruct (String.eqb tf "ones"); [reflexivity|].
  destruct (String.eqb tf "log"); [reflexivity|].
  destruct (String.eqb tf "none"); [reflexivity | discriminate].
Qed.

Lemma first_degree_symmetric log10 choice tf mat mc b :
  snd (first_degree_cooccurrence log10 choice tf mat mc) = Ok b ->
  single_valued b /\ symmetric_values b.
Proof.
  unfold first_degree_cooccurrence.
  destruct (if String.eqb tf "ones" then _ else _) as [mat'|e];
    cbn [snd]; [|discriminate].
  assert (Hs : single_valued (setdiag0 (matmul (transpose mat') mat')))
    by (apply single_valued_setdiag0, single_valued_from_fun).
  assert (Hsym : symmetric_values (setdiag0 (matmul (transpose mat') mat')))
    by (apply symmetric_setdiag0, symmetric_gram).
  destruct (Qlt_bool 1 mc).
  - apply prune_mat_symmetric; assumption.
  - intro H; inversion H; subst. split; assumption.
Qed.

(** X7.  Without [normalize_items] the matrix the builder returns is
    symmetric, whatever the degree, the pruning and the decay: equal values
    at (i, j) and (j, i), with at most one stored entry per position.  (So
    the user-mode similarity, which is not symmetrised, is symmetric exactly
    as far as the normalisation leaves it so.) *)
Theorem builder_symmetric_without_normalization log10 choice obs p r :
  normalize_items p = false ->
  snd (interactions_mat_to_cooccurrence_mat log10 choice obs p) = Ok r ->
  single_valued r /\ symmetric_values r.
Proof.
  intros Hn. unfold interactions_mat_to_cooccurrence_mat. rewrite Hn.
  pose proof (first_degree_symmetric log10 choice (trans_func p) obs
                (base_min_cooccurrence p)) as Hfd.
  pose proof (first_degree_shape log10 choice (trans_func p) obs
                (base_min_cooccurrence p)) as Hsh.
  destruct (first_degree_cooccurrence _ _ _ _ _) as [obs' [base|e]];
    cbn [snd bind] in *; [|discriminate].
  destruct (Hfd base eq_refl) as [Hs Hsym].
  destruct (Hsh base eq_refl) as [Hr Hc].
  assert (Hsq : n_rows base = n_cols base) by congruence.
  destruct (1 <? degree p)%Z; cbn [bind].
  - unfold higher_degree, higher_deg_expanded.
    destruct (prune_mat choice base (prune_ratio p) (min_cooccurrence p))
      as [hd|e] eqn:Ep; cbn [bind]; [|discriminate].
    intro H; inversion H; subst r.
    destruct (prune_mat_symmetric _ _ _ _ _ Hs Hsym Ep) as [Hs' Hsym'].
    destruct (prune_mat_shape _ _ _ _ _ Ep) as [Hr' Hc'].
    destruct (expand_loop_symmetric (decay p) 0 (Z.to_nat (degree p - 1)) hd)
      as [_ Hsym'']; [congruence | exact Hs' | exact Hsym' |].
    split; [apply single_valued_from_fun|].
    apply symmetric_add; [exact Hsq | exact Hsym|].
    intros i j. unfold rescale. rewrite !get_map_data_scale.
    rewrite (Hsym'' i j). reflexivity.
  - intro H; inversion H; subst r. split; assumption.
Qed.

Lemma builder_symmetric_without_normalization_witness :
  exists r,
    snd (interactions_mat_to_cooccurrence_mat log10_unused choice_unused
           obs_chain params_degree2) = Ok r /\
    symmetric_values r.
Proof.
  destruct (snd (interactions_mat_to_cooccurrence_mat log10_unused
                   choice_unused obs_chain params_degree2))
    as [r|e] eqn:E; [|vm_compute in E; discriminate].
  exists r. split; [reflexivity|].
  apply (builder_symmetric_without_normalization log10_unused choice_unused
           obs_chain params_degree2 r); [reflexivity | exact E].
Defined.

(** X8.  The first-degree co-occurrence is the product of the transformed
    interaction matrix with itself, off the diagonal: with a known
    [trans_func], [base_min_cooccurrence <= 1], [degree <= 1] and no
    normalisation the builder succeeds, and the value at (i, j), i <> j,
    both items of the matrix, is the sum over the users u of w(u,i) * w(u,j),
    w the transformed weight; it is zero on the diagonal and outside. *)
Theorem first_degree_counts_common_users log10 choice obs p :
  valid_trans_func (trans_func p) ->
  base_min_cooccurrence p <= 1 ->
  (degree p <= 1)%Z ->
  normalize_items p = false ->
  let w := transform_data log10 (trans_func p) obs in
  exists r,
    interactions_mat_to_cooccurrence_mat log10 choice obs p = (w, Ok r) /\
    forall i j,
      get r i j ==
      if (i =? j)%nat then 0
      else if ((i <? n_cols obs) && (j <? n_cols obs))%nat
           then sumQ (map (fun u => get w u i * get w u j)
                          (seq 0 (n_rows obs)))
           else 0.
Proof.
  intros Hv Hb Hd Hn. cbv zeta.
  unfold interactions_mat_to_cooccurrence_mat.
  rewrite first_degree_eq by exact Hv.
  apply Qlt_bool_false in Hb. rewrite Hb. cbn [bind].
  assert (Ed : (1 <? degree p)%Z = false) by (apply Z.ltb_ge; exact Hd).
  rewrite Ed, Hn. cbn [bind].
  eexists. split; [reflexivity|].
  intros i j. rewrite get_setdiag0.
  destruct (i =? j)%nat; [reflexivity|].
  unfold matmul. rewrite get_from_fun.
  assert (Hshape : n_rows (transform_data log10 (trans_func p) obs) = n_rows obs
                   /\ n_cols (transform_data log10 (trans_func p) obs)
                      = n_cols obs).
  { unfold transform_data.
    destruct (String.eqb _ "ones"); [split; reflexivity|].
    destruct (String.eqb _ "log"); split; reflexivity. }
  destruct Hshape as [Hr Hc].
  cbn [transpose n_rows n_cols]. rewrite Hr, Hc.
  destruct ((i <? n_cols obs) && (j <? n_cols obs))%nat; [|reflexivity].
  apply sumQ_map_ext. intros u _. rewrite get_transpose. reflexivity.
Qed.

Lemma first_degree_counts_common_users_witness :
  exists r,
    interactions_mat_to_cooccurrence_mat log10_unused choice_unused
      obs_spec_example params_plain
    = (transform_data log10_unused "ones" obs_spec_example, Ok r) /\
    get r 1 2 == 1.
Proof.
  destruct (first_degree_counts_common_users log10_unused choice_unused
              obs_spec_example params_plain) as (r & Hr & Hg).
  - left. reflexivity.
  - vm_compute. discriminate.
  - simpl. lia.
  - reflexivity.
  - exists r. split; [exact Hr|]. rewrite Hg. vm_compute. reflexivity.
Defined.

Lemma binarize_same_positions m1 m2 :
  n_rows m1 = n_rows m2 -> n_cols m1 = n_cols m2 ->
  positions m1 = positions m2 ->
  map_data (fun _ => 1) m1 = map_data (fun _ => 1) m2.
Proof.
  intros Hr Hc Hp. unfold map_data. rewrite Hr, Hc. f_equal.
  unfold positions in Hp. revert Hp.
  generalize (stored m2). induction (stored m1) as [|e l IH];
    intros [|e' l'] Hp; simpl in *; try discriminate; [reflexivity|].
  inversion Hp as [[H1 H2 H3]]. rewrite (IH l' H3).
  unfold set_val. rewrite H1, H2. reflexivity.
Qed.

(** X9.  With [trans_func = "ones"], and [degree <= 1] or
    [prune_ratio <= 0] (so that no random draw is made), the interaction
    weights play no part: two interaction matrices of the same shape that
    store entries at the same positions give the same returned matrix,
    whatever [np.random.choice] would draw in either run, and are both left
    binarised. *)
Theorem ones_ignores_weights log10 c1 c2 obs1 obs2 p :
  trans_func p = "ones"%string ->
  (degree p <= 1)%Z \/ prune_ratio p <= 0 ->
  n_rows obs1 = n_rows obs2 -> n_cols obs1 = n_cols obs2 ->
  positions obs1 = positions obs2 ->
  interactions_mat_to_cooccurrence_mat log10 c1 obs1 p
  = interactions_mat_to_cooccurrence_mat log10 c2 obs2 p /\
  fst (interactions_mat_to_cooccurrence_mat log10 c1 obs1 p)
  = map_data (fun _ => 1) obs1.
Proof.
  intros Ht Hd Hr Hc Hp.
  rewrite (builder_choice log10 c1 c2 obs1 p Hd).
  unfold interactions_mat_to_cooccurrence_mat, first_degree_cooccurrence.
  rewrite Ht. cbn [String.eqb Ascii.eqb Bool.eqb].
  rewrite (binarize_same_positions obs1 obs2 Hr Hc Hp).
  split; reflexivity.
Qed.

Lemma ones_ignores_weights_witness :
  interactions_mat_to_cooccurrence_mat log10_unused choice_unused obs_chain
    params_degree2
  = interactions_mat_to_cooccurrence_mat log10_unused (fun _ _ => [])
      (mkSp 2 3 [mkEntry 0 0 1; mkEntry 0 1 7; mkEntry 1 1 (1 # 3);
                 mkEntry 1 2 1])
      params_degree2.
Proof.
  apply (ones_ignores_weights log10_unused choice_unused (fun _ _ => [])
           obs_chain
           (mkSp 2 3 [mkEntry 0 0 1; mkEntry 0 1 7; mkEntry 1 1 (1 # 3);
                      mkEntry 1 2 1])
           params_degree2); try reflexivity.
  right. vm_compute. discriminate.
Defined.

(** ** Ranking: errors and edge cases *)

Lemma all_below_false n l :
  all_below n l = false <-> exists i, In i l /\ (n <= i)%nat.
Proof.
  unfold all_below. split.
  - induction l as [|x l IH]; simpl; [discriminate|].
    destruct (x <? n)%nat eqn:E; simpl.
    + intro H. destruct (IH H) as (i & Hi & Hle). exists i. tauto.
    + intros _. exists x. apply Nat.ltb_ge in E. tauto.
  - intros (i & Hi & Hle).
    destruct (forallb (fun i => (i <? n)%nat) l) eqn:E; [|reflexivity].
    rewrite forallb_forall in E. specialize (E i Hi).
    apply Nat.ltb_lt in E. lia.
Qed.

(** X10.  The ranking fails on an index error only, and exactly when a
    seed lies outside the rows of the similarity matrix or, with
    [remove_self], outside its columns; the requested count never makes it
    fail. *)
Theorem recommend_for_item_inds_raises_iff argpartition argsort sim item_inds
    k remove_self e :
  recommend_for_item_inds argpartition argsort sim item_inds k remove_self
    = Raise e
  <-> e = IndexError /\ seed_out_of_range sim item_inds remove_self.
Proof.
  unfold recommend_for_item_inds, scores_for, seed_out_of_range.
  rewrite length_sum_rows.
  destruct (all_below (n_rows sim) item_inds) eqn:Er; cbn [negb].
  - destruct remove_self.
    + destruct (all_below (n_cols sim) item_inds) eqn:Ec; cbn [negb bind].
      * split; [discriminate|].
        intros (_ & i & Hi & [Hle | [_ Hle]]).
        -- assert (F : all_below (n_rows sim) item_inds = false)
             by (apply all_below_false; exists i; tauto).
           congruence.
        -- assert (F : all_below (n_cols sim) item_inds = false)
             by (apply all_below_false; exists i; tauto).
           congruence.
      * split.
        -- intro H; inversion H; subst. split; [reflexivity|].
           apply all_below_false in Ec. destruct Ec as (i & Hi & Hle).
           exists i. tauto.
        -- intros [-> _]. reflexivity.
    + cbn [bind]. split; [discriminate|].
      intros (_ & i & Hi & [Hle | [Hf _]]); [|discriminate].
      assert (F : all_below (n_rows sim) item_inds = false)
        by (apply all_below_false; exists i; tauto).
      congruence.
  - cbn [bind]. split.
    + intro H; inversion H; subst. split; [reflexivity|].
      apply all_below_false in Er. destruct Er as (i & Hi & Hle).
      exists i. tauto.
    + intros [-> _]. reflexivity.
Qed.

Lemma recommend_for_item_inds_raises_iff_witness :
  recommend_for_item_inds argpartition_ins argsort_ins sim_pair [5%nat] 1
    false = Raise IndexError.
Proof.
  apply (recommend_for_item_inds_raises_iff argpartition_ins argsort_ins
           sim_pair [5%nat] 1 false IndexError).
  split; [reflexivity|].
  exists 5%nat. split; [left; reflexivity|]. left. simpl. lia.
Defined.

Lemma top_sorted_scores argpartition argsort s n :
  snd (top_sorted argpartition argsort s n)
  = take s (fst (top_sorted argpartition argsort s n)).
Proof. reflexivity. Qed.

(** X11.  Under [remove_self] a seed is never returned with a score other
    than zero: in the result, whatever the selection functions do, every
    index that is a seed is paired with the score 0. *)
Theorem seeds_score_zero argpartition argsort sim item_inds k out :
  recommend_for_item_inds argpartition argsort sim item_inds k true = Ok out ->
  length (snd out) = length (fst out) /\
  forall pos, (pos < length (fst out))%nat ->
    In (nth pos (fst out) O) item_inds ->
    nth pos (snd out) 0 == 0.
Proof.
  unfold recommend_for_item_inds, scores_for.
  destruct (negb (all_below (n_rows sim) item_inds)); [discriminate|].
  destruct (negb (all_below (length (sum_rows sim item_inds)) item_inds));
    [discriminate|].
  cbn [bind]. intro H. inversion H; subst out. clear H.
  rewrite top_sorted_scores.
  set (s := zero_at item_inds (sum_rows sim item_inds)).
  set (idx := fst (top_sorted argpartition argsort s
                     (Nat.min k (length s)))).
  split; [unfold take; apply length_map|].
  intros pos Hpos Hin. unfold take.
  rewrite (nth_indep _ 0 ((fun i => nth i s 0) O))
    by (rewrite length_map; exact Hpos).
  rewrite (map_nth (fun i => nth i s 0)).
  set (i := nth pos idx O) in *.
  destruct (Nat.lt_ge_cases i (length (sum_rows sim item_inds))) as [Hi | Hi].
  - unfold s. rewrite nth_zero_at by exact Hi.
    assert (E : existsb (Nat.eqb i) item_inds = true).
    { apply existsb_exists. exists i. split; [exact Hin | apply Nat.eqb_refl]. }
    rewrite E. ring.
  - rewrite nth_overflow; [reflexivity|].
    unfold s. rewrite length_zero_at. exact Hi.
Qed.

Lemma seeds_score_zero_witness :
  exists out,
    recommend_for_item_inds argpartition_ins argsort_ins sim_small [0%nat] 2
      true = Ok out /\
    nth 1 (fst out) O = 0%nat /\ nth 1 (snd out) 0 == 0.
Proof.
  destruct (recommend_for_item_inds argpartition_ins argsort_ins sim_small
              [0%nat] 2 true) as [out|e] eqn:E;
    [|vm_compute in E; discriminate].
  exists out. split; [reflexivity|].
  destruct (seeds_score_zero _ _ _ _ _ _ E) as [_ H].
  vm_compute in E. inversion E; subst out.
  split; [reflexivity|].
  apply H; [simpl; lia | simpl; left; reflexivity].
Defined.

Lemma sum_rows_nil sim j : nth j (sum_rows sim []) 0 == 0.
Proof.
  destruct (Nat.lt_ge_cases j (n_cols sim)) as [Hj | Hj].
  - rewrite nth_sum_rows by exact Hj. reflexivity.
  - rewrite nth_overflow; [reflexivity | rewrite length_sum_rows; exact Hj].
Qed.

Lemma zero_at_nil s : zero_at [] s = s.
Proof.
  unfold zero_at. simpl. generalize O.
  induction s as [|x l IH]; intro a; simpl; [reflexivity|].
  rewrite IH. reflexivity.
Qed.

(** X12.  With no seed at all the ranking still answers: it returns
    [min(k, number of columns)] distinct indices, each with the score 0. *)
Theorem empty_seeds_all_zero argpartition argsort sim k remove_self :
  argpartition_spec argpartition ->
  argsort_spec argsort ->
  exists out,
    recommend_for_item_inds argpartition argsort sim [] k remove_self = Ok out /\
    length (fst out) = Nat.min k (n_cols sim) /\
    NoDup (fst out) /\
    Forall (fun i => (i < n_cols sim)%nat) (fst out) /\
    Forall (fun v => v == 0) (snd out).
Proof.
  intros Hp Hs.
  assert (Hz : zero_at [] (sum_rows sim []) = sum_rows sim []).
  { apply zero_at_nil. }
  assert (Heq : recommend_for_item_inds argpartition argsort sim [] k
                  remove_self
                = Ok (top_sorted argpartition argsort (sum_rows sim [])
                        (Nat.min k (length (sum_rows sim []))))).
  { unfold recommend_for_item_inds, scores_for. cbn [all_below forallb negb].
    destruct remove_self; cbn [bind]; [rewrite Hz|]; reflexivity. }
  rewrite Heq. eexists. split; [reflexivity|].
  destruct (top_sorted_is_top_k argpartition argsort Hp Hs (sum_rows sim []) k)
    as (Hl & _ & Hsc & Hnd & Hr & _).
  rewrite length_sum_rows in *.
  repeat split; try assumption.
  rewrite Hsc. unfold take. apply Forall_map. apply Forall_forall.
  intros i _. apply sum_rows_nil.
Qed.

Lemma empty_seeds_all_zero_witness :
  exists out,
    recommend_for_item_inds argpartition_ins argsort_ins sim_pair [] 5 true
      = Ok out /\
    length (fst out) = 2%nat /\ Forall (fun v => v == 0) (snd out).
Proof.
  destruct (empty_seeds_all_zero argpartition_ins argsort_ins sim_pair 5 true
              argpartition_ins_spec argsort_ins_spec)
    as (out & H & Hl & _ & _ & Hz).
  exists out. split; [exact H|]. split; [exact Hl | exact Hz].
Defined.

(** ** Why the floor of 0.01: a stored similarity outranks an absent one *)

Lemma sumQ_ge_member l x :
  Forall (fun v => 0 <= v) l -> In x l -> x <= sumQ l.
Proof.
  induction 1 as [|y l Hy Hl IH]; intro Hx; [destruct Hx|]. simpl.
  pose proof (sumQ_nonneg l Hl) as Hs.
  destruct Hx as [<- | Hx]; [lra|].
  specialize (IH Hx). lra.
Qed.

Lemma get_ge_entry m e :
  nonneg_data m -> In e (stored m) -> e_val e <= get m (e_row e) (e_col e).
Proof.
  intros Hm He. unfold get. apply sumQ_ge_member.
  - apply Forall_forall. intros v Hv. apply in_map_iff in Hv.
    destruct Hv as (e' & <- & He'). apply filter_In in He'.
    unfold nonneg_data, data in Hm. rewrite Forall_forall in Hm.
    apply Hm. apply in_map. tauto.
  - apply in_map. apply filter_In. split; [exact He|].
    unfold at_pos. rewrite !Nat.eqb_refl. reflexivity.
Qed.

Lemma get_no_entry m i j :
  (forall e, In e (stored m) -> e_row e = i -> e_col e <> j) ->
  get m i j == 0.
Proof.
  intro H. unfold get.
  assert (E : filter (at_pos i j) (stored m) = []).
  { induction (stored m) as [|e l IH]; [reflexivity|]. simpl.
    destruct (at_pos i j e) eqn:Ep.
    - unfold at_pos in Ep. apply andb_true_iff in Ep.
      rewrite !Nat.eqb_eq in Ep. exfalso.
      apply (H e); [left; reflexivity | tauto | tauto].
    - apply IH. intros e' He'. apply H. right. exact He'. }
  rewrite E. reflexivity.
Qed.

(** X13.  On a similarity matrix whose stored values are all at least some
    [c > 0], the summed score of a column is at least [c] as soon as one
    seed row stores an entry in it, and zero when no seed row does: a stored
    similarity always ranks above an absent one. *)
Theorem stored_similarity_outranks_absent sim item_inds j c :
  0 < c ->
  (forall v, In v (data sim) -> c <= v) ->
  (j < n_cols sim)%nat ->
  ((exists e, In e (stored sim) /\ In (e_row e) item_inds /\ e_col e = j) ->
   c <= nth j (sum_rows sim item_inds) 0) /\
  ((forall e, In e (stored sim) -> In (e_row e) item_inds -> e_col e <> j) ->
   nth j (sum_rows sim item_inds) 0 == 0).
Proof.
  intros Hc Hfloor Hj. rewrite nth_sum_rows by exact Hj.
  assert (Hnn : nonneg_data sim).
  { unfold nonneg_data. apply Forall_forall. intros v Hv.
    specialize (Hfloor v Hv). lra. }
  split.
  - intros (e & He & Hrow & Hcol). subst j.
    eapply Qle_trans; [apply Hfloor; unfold data; apply in_map; exact He|].
    eapply Qle_trans; [apply (get_ge_entry sim e Hnn He)|].
    apply (sumQ_ge_member
             (map (fun i => get sim i (e_col e)) item_inds)).
    + apply Forall_map. apply Forall_forall. intros i _.
      apply nonneg_get. exact Hnn.
    + apply (in_map (fun i => get sim i (e_col e))). exact Hrow.
  - intro Hnone. apply sumQ_all_zero. intros v Hv.
    apply in_map_iff in Hv. destruct Hv as (i & <- & Hi).
    apply get_no_entry. intros e He Hr. apply Hnone; [exact He|].
    rewrite Hr. exact Hi.
Qed.

Lemma stored_similarity_outranks_absent_witness :
  1 <= nth 1 (sum_rows sim_pair [0%nat]) 0
  /\ nth 0 (sum_rows sim_pair [0%nat]) 0 == 0.
Proof.
  assert (Hc : 0 < 1) by reflexivity.
  assert (Hfloor : forall v, In v (data sim_pair) -> 1 <= v).
  { intros v Hv. simpl in Hv. destruct Hv as [<- | [<- | []]];
      apply Qle_refl. }
  split.
  - apply (stored_similarity_outranks_absent sim_pair [0%nat] 1 1 Hc Hfloor).
    + simpl. lia.
    + exists (mkEntry 0 1 1). split; [simpl; left; reflexivity|].
      split; [simpl; left; reflexivity | reflexivity].
  - apply (stored_similarity_outranks_absent sim_pair [0%nat] 0 1 Hc Hfloor).
    + simpl. lia.
    + intros e He Hr. simpl in He.
      destruct He as [<- | [<- | []]]; simpl in *.
      * discriminate.
      * destruct Hr as [Hr | []]. discriminate.
Defined.

(** ** The user-mode row function *)

Lemma length_weighted_sum_rows tm ui rd :
  length (weighted_sum_rows tm ui rd) = n_cols tm.
Proof. unfold weighted_sum_rows. rewrite length_map, length_seq. reflexivity. Qed.

Lemma UserCooc_row_func_eq argpartition argsort tm n ui rd :
  UserCooc_row_func argpartition argsort tm n ui rd =
  if negb (all_below (n_rows tm) ui) then Raise IndexError
  else if (length ui <? length rd)%nat then Raise IndexError
  else if negb (n_cols tm =? 0)%nat && (n_cols tm <? n)%nat
       then Raise ValueError_kth_out_of_bounds
       else Ok (top_sorted argpartition argsort (weighted_sum_rows tm ui rd) n).
Proof.
  unfold UserCooc_row_func.
  change (map (fun j => sumQ (map (fun ur => snd ur * get tm (fst ur) j)
                                  (combine ui
                                     (row_multipliers (length ui) rd))))
              (seq 0 (n_cols tm)))
    with (weighted_sum_rows tm ui rd).
  rewrite length_weighted_sum_rows. reflexivity.
Qed.

Lemma row_multipliers_full n rd : length rd = n -> row_multipliers n rd = rd.
Proof.
  intros <-. unfold row_multipliers. rewrite Nat.sub_diag. apply app_nil_r.
Qed.

(** X14.  The row function of the user mode does not cap the requested
    count.  Given no more multipliers than users, on users within the
    interaction matrix it returns a top-[n] of the weighted column sums when
    [n] is at most the number of items, and fails with numpy's [kth] error
    when [n] exceeds a positive number of items; with one multiplier per
    user the weighted sum of a column is the sum over the users of
    multiplier times interaction.  A user outside the matrix is an index
    error, and so are more multipliers than users. *)
Theorem UserCooc_row_func_uncapped argpartition argsort tm n user_inds row_data :
  argpartition_spec argpartition ->
  argsort_spec argsort ->
  (all_below (n_rows tm) user_inds = false ->
   UserCooc_row_func argpartition argsort tm n user_inds row_data
   = Raise IndexError) /\
  ((length user_inds < length row_data)%nat ->
   UserCooc_row_func argpartition argsort tm n user_inds row_data
   = Raise IndexError) /\
  (all_below (n_rows tm) user_inds = true ->
   (length row_data <= length user_inds)%nat ->
   (0 < n_cols tm < n)%nat ->
   UserCooc_row_func argpartition argsort tm n user_inds row_data
   = Raise ValueError_kth_out_of_bounds) /\
  (all_below (n_rows tm) user_inds = true ->
   (length row_data <= length user_inds)%nat ->
   (n <= n_cols tm)%nat ->
   exists out,
     UserCooc_row_func argpartition argsort tm n user_inds row_data = Ok out /\
     length (fst out) = n /\
     is_top_k (weighted_sum_rows tm user_inds row_data) n out) /\
  (length row_data = length user_inds ->
   forall j, (j < n_cols tm)%nat ->
     nth j (weighted_sum_rows tm user_inds row_data) 0
     = sumQ (map (fun ur => snd ur * get tm (fst ur) j)
                 (combine user_inds row_data))).
Proof.
  intros Hp Hs. rewrite UserCooc_row_func_eq. split; [|split; [|split; [|split]]].
  - intros ->. reflexivity.
  - intro Hl. apply Nat.ltb_lt in Hl. rewrite Hl.
    destruct (negb _); reflexivity.
  - intros -> Hl [H0 Hn]. cbn [negb].
    replace (length user_inds <? length row_data)%nat with false
      by (symmetry; apply Nat.ltb_ge; exact Hl).
    replace (n_cols tm =? 0)%nat with false
      by (symmetry; apply Nat.eqb_neq; lia).
    replace (n_cols tm <? n)%nat with true
      by (symmetry; apply Nat.ltb_lt; lia).
    reflexivity.
  - intros -> Hl Hn. cbn [negb].
    replace (length user_inds <? length row_data)%nat with false
      by (symmetry; apply Nat.ltb_ge; exact Hl).
    replace (n_cols tm <? n)%nat with false
      by (symmetry; apply Nat.ltb_ge; lia).
    rewrite andb_false_r.
    eexists. split; [reflexivity|].
    pose proof (top_sorted_is_top_k argpartition argsort Hp Hs
                  (weighted_sum_rows tm user_inds row_data) n) as Htop.
    rewrite length_weighted_sum_rows in Htop.
    rewrite (Nat.min_l n (n_cols tm) Hn) in Htop.
    split; [|exact Htop].
    destruct Htop as [Hl' _]. rewrite length_weighted_sum_rows in Hl'.
    rewrite Hl'. apply Nat.min_l. exact Hn.
  - intros Hl j Hj. unfold weighted_sum_rows.
    rewrite (row_multipliers_full _ _ Hl).
    set (f := fun j0 : nat =>
                sumQ (map (fun ur => snd ur * get tm (fst ur) j0)
                          (combine user_inds row_data))).
    change (nth j (map f (seq 0 (n_cols tm))) 0 = f j).
    rewrite (nth_indep _ 0 (f O))
      by (rewrite length_map, length_seq; exact Hj).
    rewrite map_nth. rewrite seq_nth by exact Hj. reflexivity.
Qed.

Lemma UserCooc_row_func_uncapped_witness :
  UserCooc_row_func argpartition_ins argsort_ins obs_users 3 [1%nat] [1 # 2]
  = Raise ValueError_kth_out_of_bounds /\
  UserCooc_row_func argpartition_ins argsort_ins obs_users 2 [1%nat]
    [1 # 2; 1 # 3]
  = Raise IndexError /\
  exists out,
    UserCooc_row_func argpartition_ins argsort_ins obs_users 2 [1%nat] [1 # 2]
    = Ok out /\ length (fst out) = 2%nat.
Proof.
  split; [|split].
  - apply (UserCooc_row_func_uncapped argpartition_ins argsort_ins obs_users 3
             [1%nat] [1 # 2] argpartition_ins_spec argsort_ins_spec).
    + reflexivity.
    + simpl. lia.
    + simpl. lia.
  - apply (UserCooc_row_func_uncapped argpartition_ins argsort_ins obs_users 2
             [1%nat] [1 # 2; 1 # 3] argpartition_ins_spec argsort_ins_spec).
    simpl. lia.
  - destruct (UserCooc_row_func_uncapped argpartition_ins argsort_ins obs_users
                2 [1%nat] [1 # 2] argpartition_ins_spec argsort_ins_spec)
      as (_ & _ & _ & H & _).
    destruct H as (out & Ho & Hl & _); [reflexivity | simpl; lia | simpl; lia|].
    exists out. split; [exact Ho | exact Hl].
Defined.

(** ** The order of the seeds *)

Lemma sumQ_perm l l' : Permutation l l' -> sumQ l == sumQ l'.
Proof.
  induction 1 as [|x l l' _ IH|x y l|l l' l'' _ IH1 _ IH2]; simpl.
  - reflexivity.
  - rewrite IH. reflexivity.
  - ring.
  - rewrite IH1. exact IH2.
Qed.

Lemma existsb_perm {A : Type} (f : A -> bool) l l' :
  Permutation l l' -> existsb f l = existsb f l'.
Proof.
  induction 1 as [|x l l' _ IH|x y l|l l' l'' _ IH1 _ IH2]; simpl.
  - reflexivity.
  - rewrite IH. reflexivity.
  - destruct (f x), (f y); reflexivity.
  - congruence.
Qed.

Lemma forallb_perm {A : Type} (f : A -> bool) l l' :
  Permutation l l' -> forallb f l = forallb f l'.
Proof.
  induction 1 as [|x l l' _ IH|x y l|l l' l'' _ IH1 _ IH2]; simpl.
  - reflexivity.
  - rewrite IH. reflexivity.
  - destruct (f x), (f y); reflexivity.
  - congruence.
Qed.

Lemma Forall2_Qeq_refl l : Forall2 Qeq l l.
Proof. induction l; constructor; [reflexivity | assumption]. Qed.

Lemma Forall2_Qeq_sym l l' : Forall2 Qeq l l' -> Forall2 Qeq l' l.
Proof. induction 1; constructor; [symmetry|]; assumption. Qed.

Lemma Forall2_Qeq_trans l1 l2 l3 :
  Forall2 Qeq l1 l2 -> Forall2 Qeq l2 l3 -> Forall2 Qeq l1 l3.
Proof.
  intro H. revert l3. induction H as [|x y l1 l2 Hxy _ IH]; intros l3 H23;
    inversion H23; subst; constructor.
  - etransitivity; eassumption.
  - apply IH. assumption.
Qed.

Lemma Forall2_map_same {A : Type} (f g : A -> Q) l :
  (forall x, In x l -> f x == g x) -> Forall2 Qeq (map f l) (map g l).
Proof.
  induction l as [|x l IH]; simpl; intro H; constructor.
  - apply H. left. reflexivity.
  - apply IH. intros y Hy. apply H. right. exact Hy.
Qed.

Lemma sum_rows_perm sim l l' :
  Permutation l l' -> Forall2 Qeq (sum_rows sim l) (sum_rows sim l').
Proof.
  intro H. unfold sum_rows. apply Forall2_map_same. intros j _.
  apply sumQ_perm. apply Permutation_map. exact H.
Qed.

Lemma zero_at_perm l l' s s' :
  Permutation l l' -> Forall2 Qeq s s' ->
  Forall2 Qeq (zero_at l s) (zero_at l' s').
Proof.
  intros Hp H. unfold zero_at. generalize O.
  induction H as [|x y s s' Hxy _ IH]; intro a; simpl; constructor.
  - rewrite (existsb_perm _ _ _ Hp).
    destruct (existsb (Nat.eqb a) l'); rewrite Hxy; reflexivity.
  - apply IH.
Qed.

Lemma count_ge_Forall2 x s s' :
  Forall2 Qeq s s' -> count_ge x s = count_ge x s'.
Proof.
  unfold count_ge. induction 1 as [|a b s s' Hab _ IH]; simpl; [reflexivity|].
  rewrite (Qleb_comp x x (Qeq_refl x) a b Hab).
  destruct (Qle_bool x b); simpl; congruence.
Qed.

Lemma sort_desc_Forall2 s s' :
  Forall2 Qeq s s' -> Forall2 Qeq (sort_desc s) (sort_desc s').
Proof.
  intro H. apply descending_unique; try apply sort_desc_descending.
  intro x.
  rewrite (count_ge_perm x _ _ (sort_desc_perm s)).
  rewrite (count_ge_perm x _ _ (sort_desc_perm s')).
  apply count_ge_Forall2. exact H.
Qed.

Lemma scores_for_perm sim l l' rs s :
  Permutation l l' ->
  scores_for sim l rs = Ok s ->
  exists s', scores_for sim l' rs = Ok s' /\ Forall2 Qeq s s'.
Proof.
  intros Hp. unfold scores_for, all_below.
  rewrite !length_sum_rows.
  rewrite <- !(forallb_perm _ _ _ Hp).
  destruct (negb (forallb (fun i => (i <? n_rows sim)%nat) l));
    [discriminate|].
  destruct rs.
  - destruct (negb (forallb (fun i => (i <? n_cols sim)%nat) l));
      [discriminate|].
    intro H; inversion H; subst. eexists. split; [reflexivity|].
    apply zero_at_perm; [exact Hp | apply sum_rows_perm; exact Hp].
  - intro H; inversion H; subst. eexists. split; [reflexivity|].
    apply sum_rows_perm. exact Hp.
Qed.

(** X15.  The order in which the seeds are given does not matter to the
    scores: for two seed lists that are permutations of each other the
    ranking succeeds on both or on neither, and returns equal score lists
    (the indices may differ where scores tie). *)
Theorem seed_order_irrelevant argpartition argsort sim l l' k remove_self out :
  argpartition_spec argpartition ->
  argsort_spec argsort ->
  Permutation l l' ->
  recommend_for_item_inds argpartition argsort sim l k remove_self = Ok out ->
  exists out',
    recommend_for_item_inds argpartition argsort sim l' k remove_self
      = Ok out' /\
    Forall2 Qeq (snd out) (snd out').
Proof.
  intros Hp Hs Hperm. unfold recommend_for_item_inds.
  destruct (scores_for sim l remove_self) as [s|e] eqn:E; cbn [bind];
    [|discriminate].
  destruct (scores_for_perm sim l l' remove_self s Hperm E) as (s' & E' & HF).
  rewrite E'. cbn [bind].
  intro H; inversion H; subst out. eexists. split; [reflexivity|].
  destruct (top_sorted_is_top_k argpartition argsort Hp Hs s k)
    as (_ & _ & _ & _ & _ & _ & _ & H1).
  destruct (top_sorted_is_top_k argpartition argsort Hp Hs s' k)
    as (_ & _ & _ & _ & _ & _ & _ & H2).
  eapply Forall2_Qeq_trans; [exact H1|].
  eapply Forall2_Qeq_trans; [|apply Forall2_Qeq_sym; exact H2].
  rewrite <- (Forall2_length HF).
  apply Forall2_firstn. apply sort_desc_Forall2. exact HF.
Qed.

Lemma seed_order_irrelevant_witness :
  exists out out',
    recommend_for_item_inds argpartition_ins argsort_ins sim_small
      [0%nat; 1%nat] 2 false = Ok out /\
    recommend_for_item_inds argpartition_ins argsort_ins sim_small
      [1%nat; 0%nat] 2 false = Ok out' /\
    Forall2 Qeq (snd out) (snd out').
Proof.
  destruct (recommend_for_item_inds argpartition_ins argsort_ins sim_small
              [0%nat; 1%nat] 2 false) as [out|e] eqn:E;
    [|vm_compute in E; discriminate].
  destruct (seed_order_irrelevant argpartition_ins argsort_ins sim_small
              [0%nat; 1%nat] [1%nat; 0%nat] 2 false out
              argpartition_ins_spec argsort_ins_spec (perm_swap _ _ _) E)
    as (out' & E' & HF).
  exists out, out'. split; [reflexivity|]. split; [exact E' | exact HF].
Defined.

(** ** The state a query or a failed fit leaves behind *)

Section QueryState.
Variable argpartition : list Q -> nat -> list nat.
Variable argsort : list Q -> list nat.
Variables ext_id best df : Type.
Variable top_N_sorted_on_sparse : list ext_id -> spmatrix -> nat -> result best.
Variable custom_row_func_on_sparse :
  (list nat -> list Q -> result (list nat * list Q)) ->
  list ext_id -> spmatrix -> result best.
Variable _format_results_df : list ext_id -> best -> string -> df.

(** X16.  [get_similar_items] and the item-mode
    [_get_recommendations_flat_unfilt] change the recommender they are
    called on: whether or not the query itself succeeds, [similarity_mat] is
    afterwards the adjusted matrix and the other attributes are untouched;
    on a recommender without a similarity matrix both fail and change
    nothing. *)
Theorem query_methods_adjust_in_place itemids N fmt user_ids n self :
  let after_similar :=
    fst (get_similar_items ext_id best df top_N_sorted_on_sparse
           _format_results_df itemids N fmt self) in
  let after_recs :=
    fst (_get_recommendations_flat_unfilt argpartition argsort ext_id best df
           custom_row_func_on_sparse _format_results_df user_ids n self) in
  after_similar
    = mkRec (params self) (train_mat self)
        (option_map check_no_negatives_mat (similarity_mat self)) /\
  after_recs = after_similar /\
  (similarity_mat self = None ->
   snd (get_similar_items ext_id best df top_N_sorted_on_sparse
          _format_results_df itemids N fmt self) = Raise AttributeError_none /\
   snd (_get_recommendations_flat_unfilt argpartition argsort ext_id best df
          custom_row_func_on_sparse _format_results_df user_ids n self)
   = Raise AttributeError_none).
Proof.
  cbv zeta.
  assert (H1 : forall self0,
            fst (get_similar_items ext_id best df top_N_sorted_on_sparse
                   _format_results_df itemids N fmt self0)
            = mkRec (params self0) (train_mat self0)
                (option_map check_no_negatives_mat (similarity_mat self0))).
  { intro self0. unfold get_similar_items. run_M.
    destruct self0 as [p tm [s|]]; cbn [similarity_mat params train_mat
      option_map set_similarity_mat]; [|reflexivity].
    destruct (top_N_sorted_on_sparse _ _ _); reflexivity. }
  assert (H2 : fst (_get_recommendations_flat_unfilt argpartition argsort
                      ext_id best df custom_row_func_on_sparse
                      _format_results_df user_ids n self)
               = mkRec (params self) (train_mat self)
                   (option_map check_no_negatives_mat (similarity_mat self))).
  { unfold _get_recommendations_flat_unfilt. run_M.
    destruct self as [p tm [s|]]; cbn [similarity_mat params train_mat
      option_map set_similarity_mat]; [|reflexivity].
    destruct tm as [tm|]; [|reflexivity].
    destruct (custom_row_func_on_sparse _ _ _); reflexivity. }
  split; [apply H1|]. split; [rewrite H1; exact H2|].
  intro Hn. unfold get_similar_items, _get_recommendations_flat_unfilt.
  run_M. rewrite Hn. split; reflexivity.
Qed.

End QueryState.

Lemma query_methods_adjust_in_place_witness :
  snd (get_similar_items nat unit unit (fun _ _ _ => Ok tt) (fun _ _ _ => tt)
         [] 1 "lists" (init params_default))
  = Raise AttributeError_none /\
  fst (get_similar_items nat unit unit (fun _ _ _ => Ok tt) (fun _ _ _ => tt)
         [] 1 "lists" (mkRec params_default None (Some sim_small)))
  = mkRec params_default None (Some (check_no_negatives_mat sim_small)) /\
  check_no_negatives_mat sim_small <> sim_small.
Proof.
  split; [|split].
  - destruct (query_methods_adjust_in_place argpartition_ins argsort_ins
                nat unit unit (fun _ _ _ => Ok tt) (fun _ _ _ => Ok tt)
                (fun _ _ _ => tt) [] 1 "lists" [] 1 (init params_default))
      as (_ & _ & H).
    destruct (H eq_refl) as [H1 _]. exact H1.
  - destruct (query_methods_adjust_in_place argpartition_ins argsort_ins
                nat unit unit (fun _ _ _ => Ok tt) (fun _ _ _ => Ok tt)
                (fun _ _ _ => tt) [] 1 "lists" [] 1
                (mkRec params_default None (Some sim_small)))
      as (H & _ & _).
    exact H.
  - intro H. vm_compute in H. discriminate.
Defined.

Section FitState.
Variable log10 : Q -> Q.
Variable np_random_choice : list Q -> Z -> list Q.

(** X17.  A fit whose build fails, for any reason, is not undone: the
    error comes back, [similarity_mat] is as before, but [fit_params] is
    already updated and [train_mat] replaced, in the item mode by the
    matrix as the builder left it, in the user mode by the new matrix. *)
Theorem failed_fit_keeps_old_similarity obs upd self e :
  (snd (interactions_mat_to_cooccurrence_mat log10 np_random_choice obs
          (upd (params self))) = Raise e ->
   ItemCoocRecommender_fit log10 np_random_choice obs upd self
   = (mkRec (upd (params self))
        (Some (fst (interactions_mat_to_cooccurrence_mat log10
                      np_random_choice obs (upd (params self)))))
        (similarity_mat self),
      Raise e)) /\
  (snd (interactions_mat_to_cooccurrence_mat log10 np_random_choice
          (transpose obs) (upd (params self))) = Raise e ->
   UserCoocRecommender_fit log10 np_random_choice obs upd self
   = (mkRec (upd (params self)) (Some obs) (similarity_mat self), Raise e)).
Proof.
  split; intro H.
  - unfold ItemCoocRecommender_fit, _prep_for_fit, build_on_train_mat. run_M.
    cbn [train_mat params similarity_mat].
    destruct (interactions_mat_to_cooccurrence_mat log10 np_random_choice obs
                (upd (params self))) as [tm' r].
    cbn [snd fst] in *. subst r. reflexivity.
  - unfold UserCoocRecommender_fit, _prep_for_fit, build_on_train_mat_T. run_M.
    cbn [train_mat params similarity_mat]. rewrite H. reflexivity.
Qed.

End FitState.

Lemma failed_fit_keeps_old_similarity_witness :
  ItemCoocRecommender_fit log10_unused choice_unused obs_chain
    (fun _ => params_bad_ratio) (mkRec params_default None (Some sim_pair))
  = (mkRec params_bad_ratio (Some (map_data (fun _ => 1) obs_chain))
       (Some sim_pair),
     Raise ValueError_percentile_range).
Proof.
  destruct (failed_fit_keeps_old_similarity log10_unused choice_unused
              obs_chain (fun _ => params_bad_ratio)
              (mkRec params_default None (Some sim_pair))
              ValueError_percentile_range) as [H _].
  rewrite H; [reflexivity | vm_compute; reflexivity].
Defined.

(** ** Similarity from pairs: fit and continue_fit *)

Lemma get_add a b i j :
  get (add a b) i j
  == if ((i <? n_rows a) && (j <? n_cols a))%nat
     then get a i j + get b i j else 0.
Proof. unfold add. apply get_from_fun. Qed.

Lemma get_add_in a b i j :
  ((i <? n_rows a) && (j <? n_cols a))%nat = true ->
  get (add a b) i j == get a i j + get b i j.
Proof. intro H. rewrite get_add, H. reflexivity. Qed.

Section SimilarityDFFacts.
Variable simil_df : Type.
Variable b : simil_df -> spmatrix.

(** X18.  [continue_fit] adds the new pairs, both ways round, to what is
    there: on a fitted recommender whose similarity matrix and new partial
    matrix are both n by n it succeeds, the value at (i, j) becomes
    [S(i,j) + P(i,j) + P(j,i)], the shape and the other attributes stay, and
    a symmetric matrix stays symmetric. *)
Theorem continue_fit_accumulates d (self : simil_recommender simil_df) S n :
  similarity_mat_builder self = Some b ->
  similarity_mat (sd_base self) = Some S ->
  n_rows S = n -> n_cols S = n ->
  n_rows (b d) = n -> n_cols (b d) = n ->
  exists S',
    SimilarityDFRecommender_continue_fit d self
    = (mkSimil (set_similarity_mat S' (sd_base self)) (Some b), inl tt) /\
    n_rows S' = n /\ n_cols S' = n /\
    (forall i j,
       get S' i j ==
       if ((i <? n) && (j <? n))%nat
       then get S i j + get (b d) i j + get (b d) j i else 0) /\
    (symmetric_values S -> symmetric_values S').
Proof.
  intros Hb HS Hr Hc Hpr Hpc.
  unfold SimilarityDFRecommender_continue_fit. rewrite Hb, HS.
  eexists. split; [reflexivity|].
  assert (Hval : forall i j,
            get (add S (add (b d) (transpose (b d)))) i j ==
            if ((i <? n) && (j <? n))%nat
            then get S i j + get (b d) i j + get (b d) j i else 0).
  { intros i j. destruct ((i <? n) && (j <? n))%nat eqn:E.
    - rewrite (get_add_in S) by (rewrite Hr, Hc; exact E).
      rewrite (get_add_in (b d)) by (rewrite Hpr, Hpc; exact E).
      rewrite get_transpose. ring.
    - rewrite get_add, Hr, Hc, E. reflexivity. }
  split; [exact Hr|]. split; [exact Hc|]. split; [exact Hval|].
  intros Hsym i j. rewrite !Hval. rewrite (andb_comm (j <? n)%nat).
  destruct ((i <? n) && (j <? n))%nat; [|reflexivity].
  rewrite (Hsym i j). ring.
Qed.

(** X19.  Two batches of pairs can be added in either order: the values of
    the resulting similarity matrices agree at every position. *)
Theorem continue_fit_order_irrelevant d1 d2 (self : simil_recommender simil_df)
    S n :
  similarity_mat_builder self = Some b ->
  similarity_mat (sd_base self) = Some S ->
  n_rows S = n -> n_cols S = n ->
  n_rows (b d1) = n -> n_cols (b d1) = n ->
  n_rows (b d2) = n -> n_cols (b d2) = n ->
  exists S12 S21,
    similarity_mat
      (sd_base (fst (SimilarityDFRecommender_continue_fit d2
                       (fst (SimilarityDFRecommender_continue_fit d1 self)))))
    = Some S12 /\
    similarity_mat
      (sd_base (fst (SimilarityDFRecommender_continue_fit d1
                       (fst (SimilarityDFRecommender_continue_fit d2 self)))))
    = Some S21 /\
    forall i j, get S12 i j == get S21 i j.
Proof.
  intros Hb HS Hr Hc H1r H1c H2r H2c.
  assert (Hstep : forall d (s0 : simil_recommender simil_df) S0,
            similarity_mat_builder s0 = Some b ->
            similarity_mat (sd_base s0) = Some S0 ->
            fst (SimilarityDFRecommender_continue_fit d s0)
            = mkSimil
                (set_similarity_mat
                   (add S0 (add (b d) (transpose (b d)))) (sd_base s0))
                (Some b)).
  { intros d s0 S0 Hb0 HS0. unfold SimilarityDFRecommender_continue_fit.
    rewrite Hb0, HS0. reflexivity. }
  rewrite (Hstep d1 self S Hb HS), (Hstep d2 self S Hb HS).
  rewrite (Hstep d2 _ (add S (add (b d1) (transpose (b d1)))))
    by reflexivity.
  rewrite (Hstep d1 _ (add S (add (b d2) (transpose (b d2)))))
    by reflexivity.
  eexists. eexists. split; [reflexivity|]. split; [reflexivity|].
  intros i j.
  assert (Hin : forall P Q' : spmatrix,
            n_rows P = n -> n_cols P = n -> n_rows Q' = n -> n_cols Q' = n ->
            get (add (add S (add P (transpose P)))
                     (add Q' (transpose Q'))) i j ==
            if ((i <? n) && (j <? n))%nat
            then get S i j + (get P i j + get P j i)
                 + (get Q' i j + get Q' j i)
            else 0).
  { intros P Q' HPr HPc HQr HQc.
    destruct ((i <? n) && (j <? n))%nat eqn:E.
    - rewrite get_add_in
        by (change (n_rows (add S (add P (transpose P)))) with (n_rows S);
            change (n_cols (add S (add P (transpose P)))) with (n_cols S);
            rewrite Hr, Hc; exact E).
      rewrite (get_add_in S) by (rewrite Hr, Hc; exact E).
      rewrite (get_add_in P) by (rewrite HPr, HPc; exact E).
      rewrite (get_add_in Q') by (rewrite HQr, HQc; exact E).
      rewrite !get_transpose. reflexivity.
    - rewrite get_add.
      change (n_rows (add S (add P (transpose P)))) with (n_rows S).
      change (n_cols (add S (add P (transpose P)))) with (n_cols S).
      rewrite Hr, Hc, E. reflexivity. }
  rewrite (Hin (b d1) (b d2)) by assumption.
  rewrite (Hin (b d2) (b d1)) by assumption.
  destruct ((i <? n) && (j <? n))%nat; [ring | reflexivity].
Qed.

(** X20.  After [fit] the similarity matrix is the built matrix plus its
    transpose, symmetric when the built matrix is square, and the builder
    is kept, so that [continue_fit] then succeeds; on a recommender that was
    never fitted [continue_fit] fails for the missing builder and changes
    nothing. *)
Theorem SimilarityDF_fit_then_continue train_obs d d' upd
    (self : simil_recommender simil_df) :
  let fitted := SimilarityDFRecommender_fit train_obs b d upd self in
  similarity_mat (sd_base fitted) = Some (add (b d) (transpose (b d))) /\
  train_mat (sd_base fitted) = Some train_obs /\
  params (sd_base fitted) = upd (params (sd_base self)) /\
  (n_rows (b d) = n_cols (b d) ->
   symmetric_values (add (b d) (transpose (b d)))) /\
  snd (SimilarityDFRecommender_continue_fit d' fitted) = inl tt /\
  (similarity_mat_builder self = None ->
   SimilarityDFRecommender_continue_fit d' self
   = (self, inr AttributeError_no_similarity_builder)).
Proof.
  cbv zeta. repeat split.
  - intros Hsq i j. apply add_transpose_symmetric. exact Hsq.
  - intro Hn. unfold SimilarityDFRecommender_continue_fit. rewrite Hn.
    reflexivity.
Qed.

End SimilarityDFFacts.

Lemma continue_fit_accumulates_witness :
  exists S',
    SimilarityDFRecommender_continue_fit [mkEntry 0 1 (1 # 2)] simil_fitted
    = (mkSimil (set_similarity_mat S' (sd_base simil_fitted))
         (Some pairs_builder), inl tt) /\
    get S' 1 0 == 3 # 2.
Proof.
  destruct (continue_fit_accumulates (list entry) pairs_builder
              [mkEntry 0 1 (1 # 2)] simil_fitted sim_pair 2
              eq_refl eq_refl eq_refl eq_refl eq_refl eq_refl)
    as (S' & Hf & _ & _ & Hv & _).
  exists S'. split; [exact Hf|]. rewrite Hv. vm_compute. reflexivity.
Defined.

Lemma continue_fit_order_irrelevant_witness :
  exists S12 S21,
    similarity_mat
      (sd_base (fst (SimilarityDFRecommender_continue_fit [mkEntry 1 0 3]
                       (fst (SimilarityDFRecommender_continue_fit
                               [mkEntry 0 1 (1 # 2)] simil_fitted)))))
    = Some S12 /\
    similarity_mat
      (sd_base (fst (SimilarityDFRecommender_continue_fit [mkEntry 0 1 (1 # 2)]
                       (fst (SimilarityDFRecommender_continue_fit
                               [mkEntry 1 0 3] simil_fitted)))))
    = Some S21 /\
    get S12 0 1 == get S21 0 1.
Proof.
  destruct (continue_fit_order_irrelevant (list entry) pairs_builder
              [mkEntry 0 1 (1 # 2)] [mkEntry 1 0 3] simil_fitted sim_pair 2
              eq_refl eq_refl eq_refl eq_refl eq_refl eq_refl eq_refl eq_refl)
    as (S12 & S21 & H1 & H2 & Hv).
  exists S12, S21. split; [exact H1|]. split; [exact H2 | apply Hv].
Defined.

Lemma SimilarityDF_fit_then_continue_witness :
  symmetric_values
    (add (pairs_builder [mkEntry 0 1 (1 # 2)])
         (transpose (pairs_builder [mkEntry 0 1 (1 # 2)]))) /\
  SimilarityDFRecommender_continue_fit [mkEntry 1 0 3]
    (mkSimil (init params_default) None)
  = (mkSimil (init params_default) None,
     inr AttributeError_no_similarity_builder).
Proof.
  destruct (SimilarityDF_fit_then_continue (list entry) pairs_builder
              obs_chain [mkEntry 0 1 (1 # 2)] [mkEntry 1 0 3] (fun p => p)
              (mkSimil (init params_default) None))
    as (_ & _ & _ & Hsym & _ & Herr).
  split; [apply Hsym; reflexivity | apply Herr; reflexivity].
Defined.

(** ** Fitting one sub-model of the ensemble *)

Lemma list_update_length {A : Type} i (x : A) l :
  length (list_update i x l) = length l.
Proof.
  revert i. induction l as [|y l IH]; intros [|i]; simpl; try reflexivity.
  rewrite IH. reflexivity.
Qed.

Lemma list_update_same {A : Type} i (x : A) l :
  (i < length l)%nat -> nth_error (list_update i x l) i = Some x.
Proof.
  revert i. induction l as [|y l IH]; intros [|i] H; simpl in *; try lia.
  - reflexivity.
  - apply IH. lia.
Qed.

Lemma list_update_other {A : Type} i j (x : A) l :
  i <> j -> nth_error (list_update i x l) j = nth_error l j.
Proof.
  revert i j. induction l as [|y l IH]; intros [|i] [|j] H; simpl;
    try reflexivity; try congruence.
  apply IH. congruence.
Qed.

Section CoocEnsembleFacts.
Variables sub_model train_data kwargs : Type.
Variable sub_model_fit :
  train_data -> kwargs -> sub_model -> sub_model * result unit.


End CoocEnsembleFacts.


(** ** The fitted similarity matrix, and its symmetry under the adjustment *)

Lemma no_stored_zero_from_fun r c f : no_stored_zero (from_fun r c f).
Proof.
  intros e He. apply in_from_fun in He. destruct He as (Hv & Hnz & _).
  rewrite Hv. exact Hnz.
Qed.

Lemma entry_iff_nonzero m i j :
  single_valued m -> no_stored_zero m ->
  (filter (at_pos i j) (stored m) = [] <-> get m i j == 0).
Proof.
  intros Hs Hnz. unfold get. specialize (Hs i j).
  assert (Hsub : forall e, In e (filter (at_pos i j) (stored m)) ->
                   ~ e_val e == 0).
  { intros e He. apply filter_In in He. apply Hnz. tauto. }
  destruct (filter (at_pos i j) (stored m)) as [|e [|e' l]]; simpl in *.
  - split; reflexivity.
  - split; [discriminate|]. intro H. exfalso.
    apply (Hsub e); [left; reflexivity|]. lra.
  - lia.
Qed.

Lemma get_shift d m i j :
  single_valued m ->
  get (map_data (fun v => v + d) m) i j
  == match filter (at_pos i j) (stored m) with
     | [] => 0
     | _ => get m i j + d
     end.
Proof.
  intro Hs. unfold get. rewrite entries_map_data. specialize (Hs i j).
  destruct (filter (at_pos i j) (stored m)) as [|e [|e' l]]; simpl in *.
  - reflexivity.
  - ring.
  - lia.
Qed.

Lemma shift_symmetric d m :
  single_valued m -> no_stored_zero m -> symmetric_values m ->
  symmetric_values (map_data (fun v => v + d) m).
Proof.
  intros Hs Hnz Hsym i j. rewrite !get_shift by exact Hs.
  pose proof (entry_iff_nonzero m i j Hs Hnz) as Hij.
  pose proof (entry_iff_nonzero m j i Hs Hnz) as Hji.
  destruct (filter (at_pos i j) (stored m)) as [|e l] eqn:Eij;
    destruct (filter (at_pos j i) (stored m)) as [|e' l'] eqn:Eji.
  - reflexivity.
  - exfalso. assert (H0 : get m j i == 0)
      by (rewrite <- (Hsym i j); apply Hij; reflexivity).
    apply Hji in H0. discriminate.
  - exfalso. assert (H0 : get m i j == 0)
      by (rewrite (Hsym i j); apply Hji; reflexivity).
    apply Hij in H0. discriminate.
  - rewrite (Hsym i j). reflexivity.
Qed.

Lemma check_no_negatives_symmetric m :
  single_valued m -> no_stored_zero m -> symmetric_values m ->
  symmetric_values (check_no_negatives_mat m).
Proof.
  intros Hs Hnz Hsym. unfold check_no_negatives_mat.
  destruct (_ && _); [|exact Hsym].
  apply shift_symmetric; assumption.
Qed.

(** X22.  The adjustment does not break the symmetry the item-mode fit
    has made: for every matrix [b] the builder returns, the similarity
    matrix [b + b.T] is still symmetric after [_check_no_negatives] (only
    stored values are shifted, and [b + b.T] stores a value at (i, j)
    exactly when it stores one at (j, i)). *)
Theorem adjusted_similarity_stays_symmetric log10 choice obs p b :
  snd (interactions_mat_to_cooccurrence_mat log10 choice obs p) = Ok b ->
  symmetric_values (check_no_negatives_mat (add b (transpose b))).
Proof.
  intro H. destruct (builder_shape _ _ _ _ _ H) as [Hr Hc].
  apply check_no_negatives_symmetric.
  - apply single_valued_from_fun.
  - apply no_stored_zero_from_fun.
  - intros i j. apply add_transpose_symmetric. congruence.
Qed.

Lemma adjusted_similarity_stays_symmetric_witness :
  exists b,
    snd (interactions_mat_to_cooccurrence_mat log10_unused choice_unused
           obs_chain params_default) = Ok b /\
    symmetric_values (check_no_negatives_mat (add b (transpose b))).
Proof.
  destruct (snd (interactions_mat_to_cooccurrence_mat log10_unused
                   choice_unused obs_chain params_default))
    as [b|e] eqn:E; [|vm_compute in E; discriminate].
  exists b. split; [reflexivity|].
  apply (adjusted_similarity_stays_symmetric log10_unused choice_unused
           obs_chain params_default b E).
Defined.

Section FittedShape.
Variable log10 : Q -> Q.
Variable np_random_choice : list Q -> Z -> list Q.


End FittedShape.


(** ** The floor on first-degree co-occurrences *)

(** X24.  [base_min_cooccurrence] above 1 is a floor: with [degree <= 1]
    and no normalisation every value the returned matrix stores is at least
    [base_min_cooccurrence]. *)
Theorem base_min_cooccurrence_is_floor log10 choice obs p r :
  1 < base_min_cooccurrence p ->
  (degree p <= 1)%Z ->
  normalize_items p = false ->
  snd (interactions_mat_to_cooccurrence_mat log10 choice obs p) = Ok r ->
  forall e, In e (stored r) -> base_min_cooccurrence p <= e_val e.
Proof.
  intros Hb Hd Hn.
  unfold interactions_mat_to_cooccurrence_mat, first_degree_cooccurrence.
  assert (Ed : (1 <? degree p)%Z = false) by (apply Z.ltb_ge; exact Hd).
  rewrite Ed, Hn. apply Qlt_bool_iff in Hb. rewrite Hb.
  destruct (if String.eqb (trans_func p) "ones" then _ else _) as [mat'|e0];
    cbn [snd bind]; [|discriminate].
  rewrite prune_mat_ratio0.
  assert (Ez : Qeq_bool (base_min_cooccurrence p) 0 = false).
  { apply Qeq_bool_false. intro Hz. apply Qlt_bool_iff in Hb.
    rewrite Hz in Hb. apply (Qlt_not_le _ _ Hb). discriminate. }
  rewrite Ez. cbn [orb].
  destruct (length _ =? 0)%nat eqn:El; cbn [bind].
  - intro H; inversion H; subst r. intros e He. exfalso.
    apply data_nil_length in El. unfold data in El.
    destruct (stored _); [destruct He | discriminate].
  - intro H; inversion H; subst r. cbn [stored]. intros e He.
    apply filter_In in He. destruct He as [_ Hk].
    unfold kept_by_cutoff in Hk. apply andb_true_iff in Hk.
    apply Qle_bool_iff. tauto.
Qed.

Lemma base_min_cooccurrence_is_floor_witness :
  exists r,
    snd (interactions_mat_to_cooccurrence_mat log10_unused choice_unused
           obs_chain (mkParams false 1 2 0 (1 # 2) 1 "none")) = Ok r /\
    forall e, In e (stored r) -> 2 <= e_val e.
Proof.
  destruct (snd (interactions_mat_to_cooccurrence_mat log10_unused
                   choice_unused obs_chain
                   (mkParams false 1 2 0 (1 # 2) 1 "none")))
    as [r|e] eqn:E; [|vm_compute in E; discriminate].
  exists r. split; [reflexivity|].
  apply (base_min_cooccurrence_is_floor log10_unused choice_unused obs_chain
           (mkParams false 1 2 0 (1 # 2) 1 "none") r);
    [reflexivity | simpl; lia | reflexivity | exact E].
Defined.

(** ** Non-negative similarities and scores *)


